(** * OatBuild: the scanner, the token stream and the parser of oatbuild.py

    A shallow embedding of the front end of [src/oatbuild.py]: [scan_file]
    turns the text of a build file into tokens, [parse_tokens] consumes them
    through a [TokenList] cursor and fills in a [CompileInfo] record.

    A character of the text is represented by its code point, held in an
    [ascii]: the model covers the texts whose characters have a code point
    below 256, and [str.isalnum] is embedded exactly on that range.
    Exceptions raised by the
    interpreter ([IndexError], [TypeError], [AttributeError]) are explicit
    results; the global [hadError] and what [print_error] writes to stderr
    are part of the threaded state. *)

From Stdlib Require Import List String Ascii Bool Arith Lia.
Import ListNotations.

Local Open Scope string_scope.
Local Open Scope nat_scope.
Local Open Scope list_scope.

(** ** Tokens *)

Inductive TokenType : Type :=
| STRING
| LEFT_PAREN
| RIGHT_PAREN
| COMMA
| LINE_END.

Definition TokenType_eqb (a b : TokenType) : bool :=
  match a, b with
  | STRING, STRING
  | LEFT_PAREN, LEFT_PAREN
  | RIGHT_PAREN, RIGHT_PAREN
  | COMMA, COMMA
  | LINE_END, LINE_END => true
  | _, _ => false
  end.

Record Token : Type := mkToken {
  tokenType : TokenType;
  lexeme : string;
  line : nat
}.

(** ** Results of running Python code *)

Inductive exn : Type :=
| IndexError      (* list or string index out of range *)
| TypeError       (* call with a wrong number of arguments *)
| AttributeError. (* attribute access on None *)

Inductive outcome (A : Type) : Type :=
| Ok (a : A)
| Raise (e : exn)
| OutOfFuel.

Arguments Ok {A} a.
Arguments Raise {A} e.
Arguments OutOfFuel {A}.

(** ** Characters *)

Definition newline : ascii := "010"%char.
Definition tab : ascii := "009"%char.
Definition nul : ascii := "000"%char.

(** [str.isalnum] on the character of code point [c]: true of the letters
    and of the characters with a numeric value.  Below 256 these are the
    digits [0-9], the letters [A-Z] and [a-z], and in the Latin-1 range the
    ordinal indicators (170, 186), the superscript digits (178, 179, 185),
    the micro sign (181), the vulgar fractions (188-190) and the letters
    192-214, 216-246 and 248-255 (215 and 247 are the multiplication and
    division signs). *)
Definition isalnum (c : ascii) : bool :=
  let n := nat_of_ascii c in
  ((48 <=? n) && (n <=? 57)) ||
  ((65 <=? n) && (n <=? 90)) ||
  ((97 <=? n) && (n <=? 122)) ||
  (n =? 170) ||
  ((178 <=? n) && (n <=? 179)) ||
  (n =? 181) ||
  ((185 <=? n) && (n <=? 186)) ||
  ((188 <=? n) && (n <=? 190)) ||
  ((192 <=? n) && (n <=? 214)) ||
  ((216 <=? n) && (n <=? 246)) ||
  ((248 <=? n) && (n <=? 255)).

Definition char_in (c : ascii) (cs : list ascii) : bool :=
  existsb (Ascii.eqb c) cs.

Definition is_valid_character (c : ascii) : bool :=
  isalnum c || char_in c ["_"; "-"; "."; "/"; "\"; ":"; "="]%char.

(** The code points below 256 on which [isalnum] holds. *)
Lemma isalnum_code_points :
  filter (fun n => isalnum (ascii_of_nat n)) (seq 0 256) =
  seq 48 10 ++ seq 65 26 ++ seq 97 26
    ++ [170; 178; 179; 181; 185; 186; 188; 189; 190]
    ++ seq 192 23 ++ seq 216 31 ++ seq 248 8.
Proof. vm_compute. reflexivity. Qed.

(** ** The scanner *)

(** [TokenList.add]: the new token goes to the end of the list. *)
Definition add (tokens : list Token) (tokenType : TokenType)
    (lexeme : string) (line : nat) : list Token :=
  tokens ++ [mkToken tokenType lexeme line].

(** The slice [line[tokenStart:tokenEnd]]. *)
Definition slice (line : list ascii) (tokenStart tokenEnd : nat) : list ascii :=
  firstn (tokenEnd - tokenStart) (skipn tokenStart line).

(** The inner loop
    [while tokenEnd < len(line) and is_valid_character(line[tokenEnd]):
       tokenEnd += 1],
    by recursion on the characters from [tokenEnd] on: the number of times
    the body runs. *)
Fixpoint valid_run (rest : list ascii) : nat :=
  match rest with
  | c :: rest' => if is_valid_character c then S (valid_run rest') else 0
  | [] => 0
  end.

Definition run_end (line : list ascii) (tokenEnd : nat) : nat :=
  tokenEnd + valid_run (skipn tokenEnd line).

(** One iteration of the loop [while tokenStart < len(line)] up to the two
    cursor updates: the token added, if any, and the value of [tokenEnd]
    before [tokenStart = tokenEnd; tokenEnd += 1]. *)
Definition scan_step (line : list ascii) (index : nat) (c : ascii)
    (tokenStart tokenEnd : nat) : option Token * nat :=
  if Ascii.eqb c "("%char then (Some (mkToken LEFT_PAREN "(" (index + 1)), tokenEnd)
  else if Ascii.eqb c ")"%char then (Some (mkToken RIGHT_PAREN ")" (index + 1)), tokenEnd)
  else if Ascii.eqb c ","%char then (Some (mkToken COMMA "," (index + 1)), tokenEnd)
  else if Ascii.eqb c newline then (Some (mkToken LINE_END "\n" (index + 1)), tokenEnd)
  else if char_in c [" "%char; tab; nul] then (None, tokenEnd)
  else
    let tokenEnd' := run_end line tokenEnd in
    (Some (mkToken STRING
             (string_of_list_ascii (slice line tokenStart tokenEnd'))
             (index + 1)),
     tokenEnd').

Definition add_opt (tokens : list Token) (t : option Token) : list Token :=
  match t with
  | Some t => add tokens (tokenType t) (lexeme t) (line t)
  | None => tokens
  end.

Fixpoint scan_loop (fuel : nat) (line : list ascii) (index : nat)
    (tokenStart tokenEnd : nat) (tokens : list Token) : outcome (list Token) :=
  match fuel with
  | 0 => OutOfFuel
  | S fuel' =>
      if tokenStart <? List.length line then
        match nth_error line tokenStart with
        | None => Raise IndexError
        | Some c =>
            let '(t, tokenEnd') := scan_step line index c tokenStart tokenEnd in
            scan_loop fuel' line index tokenEnd' (tokenEnd' + 1) (add_opt tokens t)
        end
      else Ok tokens
  end.

(** The body of [for index, line in enumerate(file)].  The loop runs at
    most once per character and once more for the first one, then its test
    fails: [len(line) + 2] units of fuel are enough ([scan_line_returns]). *)
Definition scan_line (index : nat) (line : list ascii) (tokens : list Token)
    : outcome (list Token) :=
  match line with
  | [] => Raise IndexError
  | c :: _ =>
      if Ascii.eqb c newline then Ok tokens
      else scan_loop (List.length line + 2) line index 0 0 tokens
  end.

Fixpoint scan_lines (index : nat) (lines : list (list ascii))
    (tokens : list Token) : outcome (list Token) :=
  match lines with
  | [] => Ok tokens
  | l :: lines' =>
      match scan_line index l tokens with
      | Ok tokens' => scan_lines (S index) lines' tokens'
      | Raise e => Raise e
      | OutOfFuel => OutOfFuel
      end
  end.

(** Iterating over a text file yields its lines, each with its terminating
    newline; only the last one may lack it. *)
Fixpoint file_lines (text : list ascii) (cur : list ascii) : list (list ascii) :=
  match text with
  | [] => match cur with [] => [] | _ => [cur] end
  | c :: text' =>
      if Ascii.eqb c newline then (cur ++ [c]) :: file_lines text' []
      else file_lines text' (cur ++ [c])
  end.

(** [scan_file] on the contents of the file (opening the file is left out). *)
Definition scan_file (text : string) : outcome (list Token) :=
  scan_lines 0 (file_lines (list_ascii_of_string text) []) [].

Definition NL : string := String newline EmptyString.

Example scan_scenario :
  scan_file ("SetProjectName(app)" ++ NL ++ "AddFile(a.c, b.c)" ++ NL)%string =
  Ok [mkToken STRING "SetProjectName" 1; mkToken LEFT_PAREN "(" 1;
      mkToken STRING "app" 1; mkToken RIGHT_PAREN ")" 1; mkToken LINE_END "\n" 1;
      mkToken STRING "AddFile" 2; mkToken LEFT_PAREN "(" 2;
      mkToken STRING "a.c" 2; mkToken COMMA "," 2; mkToken STRING "b.c" 2;
      mkToken RIGHT_PAREN ")" 2; mkToken LINE_END "\n" 2].
Proof. reflexivity. Qed.

(** A letter beyond ASCII is a valid character like any other letter: the
    line [a], e acute (code point 233), [b] gives one STRING token. *)
Example scan_latin1_word :
  scan_file (String "a" (String "233" (String "b" NL))) =
  Ok [mkToken STRING (String "a" (String "233" "b")) 1;
      mkToken LINE_END "\n" 1].
Proof. reflexivity. Qed.

(** ** The build configuration *)

Record CompileInfo : Type := mkCompileInfo {
  projectName : string;
  compiler : string;
  languageVersion : string;
  arch : string;
  outputType : string;
  buildType : string;
  files : list string;
  sourcePaths : list string;
  constants : list string;
  includePaths : list string;
  libraries : list string;
  objectFiles : list string;
  compilerFlags : list string;
  linkerFlags : list string
}.

(** [CompileInfo.__init__]. *)
Definition CompileInfo_init : CompileInfo :=
  mkCompileInfo "" "gcc" "c99" "64" "executable" "release"
                [] [] [] [] [] [] [] [].

Definition set_projectName (v : string) (i : CompileInfo) : CompileInfo :=
  mkCompileInfo v (compiler i) (languageVersion i) (arch i) (outputType i)
    (buildType i) (files i) (sourcePaths i) (constants i) (includePaths i)
    (libraries i) (objectFiles i) (compilerFlags i) (linkerFlags i).
Definition set_compiler (v : string) (i : CompileInfo) : CompileInfo :=
  mkCompileInfo (projectName i) v (languageVersion i) (arch i) (outputType i)
    (buildType i) (files i) (sourcePaths i) (constants i) (includePaths i)
    (libraries i) (objectFiles i) (compilerFlags i) (linkerFlags i).
Definition set_languageVersion (v : string) (i : CompileInfo) : CompileInfo :=
  mkCompileInfo (projectName i) (compiler i) v (arch i) (outputType i)
    (buildType i) (files i) (sourcePaths i) (constants i) (includePaths i)
    (libraries i) (objectFiles i) (compilerFlags i) (linkerFlags i).
Definition set_arch (v : string) (i : CompileInfo) : CompileInfo :=
  mkCompileInfo (projectName i) (compiler i) (languageVersion i) v (outputType i)
    (buildType i) (files i) (sourcePaths i) (constants i) (includePaths i)
    (libraries i) (objectFiles i) (compilerFlags i) (linkerFlags i).
Definition set_outputType (v : string) (i : CompileInfo) : CompileInfo :=
  mkCompileInfo (projectName i) (compiler i) (languageVersion i) (arch i) v
    (buildType i) (files i) (sourcePaths i) (constants i) (includePaths i)
    (libraries i) (objectFiles i) (compilerFlags i) (linkerFlags i).
Definition set_buildType (v : string) (i : CompileInfo) : CompileInfo :=
  mkCompileInfo (projectName i) (compiler i) (languageVersion i) (arch i)
    (outputType i) v (files i) (sourcePaths i) (constants i) (includePaths i)
    (libraries i) (objectFiles i) (compilerFlags i) (linkerFlags i).

(** [for x in xs: field.append(x)] on each of the list fields. *)
Definition extend_files (xs : list string) (i : CompileInfo) : CompileInfo :=
  mkCompileInfo (projectName i) (compiler i) (languageVersion i) (arch i)
    (outputType i) (buildType i) (files i ++ xs) (sourcePaths i) (constants i)
    (includePaths i) (libraries i) (objectFiles i) (compilerFlags i) (linkerFlags i).
Definition extend_sourcePaths (xs : list string) (i : CompileInfo) : CompileInfo :=
  mkCompileInfo (projectName i) (compiler i) (languageVersion i) (arch i)
    (outputType i) (buildType i) (files i) (sourcePaths i ++ xs) (constants i)
    (includePaths i) (libraries i) (objectFiles i) (compilerFlags i) (linkerFlags i).
Definition extend_constants (xs : list string) (i : CompileInfo) : CompileInfo :=
  mkCompileInfo (projectName i) (compiler i) (languageVersion i) (arch i)
    (outputType i) (buildType i) (files i) (sourcePaths i) (constants i ++ xs)
    (includePaths i) (libraries i) (objectFiles i) (compilerFlags i) (linkerFlags i).
Definition extend_includePaths (xs : list string) (i : CompileInfo) : CompileInfo :=
  mkCompileInfo (projectName i) (compiler i) (languageVersion i) (arch i)
    (outputType i) (buildType i) (files i) (sourcePaths i) (constants i)
    (includePaths i ++ xs) (libraries i) (objectFiles i) (compilerFlags i) (linkerFlags i).
Definition extend_libraries (xs : list string) (i : CompileInfo) : CompileInfo :=
  mkCompileInfo (projectName i) (compiler i) (languageVersion i) (arch i)
    (outputType i) (buildType i) (files i) (sourcePaths i) (constants i)
    (includePaths i) (libraries i ++ xs) (objectFiles i) (compilerFlags i) (linkerFlags i).
Definition extend_objectFiles (xs : list string) (i : CompileInfo) : CompileInfo :=
  mkCompileInfo (projectName i) (compiler i) (languageVersion i) (arch i)
    (outputType i) (buildType i) (files i) (sourcePaths i) (constants i)
    (includePaths i) (libraries i) (objectFiles i ++ xs) (compilerFlags i) (linkerFlags i).
Definition extend_compilerFlags (xs : list string) (i : CompileInfo) : CompileInfo :=
  mkCompileInfo (projectName i) (compiler i) (languageVersion i) (arch i)
    (outputType i) (buildType i) (files i) (sourcePaths i) (constants i)
    (includePaths i) (libraries i) (objectFiles i) (compilerFlags i ++ xs) (linkerFlags i).
Definition extend_linkerFlags (xs : list string) (i : CompileInfo) : CompileInfo :=
  mkCompileInfo (projectName i) (compiler i) (languageVersion i) (arch i)
    (outputType i) (buildType i) (files i) (sourcePaths i) (constants i)
    (includePaths i) (libraries i) (objectFiles i) (compilerFlags i) (linkerFlags i ++ xs).

(** ** Diagnostics

    [print_error] is always called with one formatted string
    [[line] at -> "lexeme" message]; a diagnostic keeps its three parts. *)

Inductive Message : Type :=
| Commands_must_begin_with_a_string
| Invalid_compiler
| Invalid_language_version
| Invalid_architeture
| Invalid_output_type
| Invalid_build_type
| Unkown_command
| Expected_parameters_after_command
| Expected_lparen_after_command
| Expected_rparen_after_parameters
| Expected_parameter_after_command
| Expected_rparen_after_parameter.

Record Diagnostic : Type := mkDiagnostic {
  at_line : nat;
  at_lexeme : string;
  message : Message
}.

Definition diag (t : Token) (m : Message) : Diagnostic :=
  mkDiagnostic (line t) (lexeme t) m.

(** ** The state of a run and the monad of the parser *)

Record TokenList : Type := mkTokenList {
  tokens : list Token;
  current : nat
}.

Record World : Type := mkWorld {
  tokenList : TokenList;
  compileInfo : CompileInfo;
  hadError : bool;
  stderr : list Diagnostic
}.

Definition M (A : Type) : Type := World -> outcome A * World.

Definition ret {A : Type} (a : A) : M A := fun w => (Ok a, w).

Definition bind {A B : Type} (m : M A) (k : A -> M B) : M B :=
  fun w =>
    match m w with
    | (Ok a, w') => k a w'
    | (Raise e, w') => (Raise e, w')
    | (OutOfFuel, w') => (OutOfFuel, w')
    end.

Definition raise {A : Type} (e : exn) : M A := fun w => (Raise e, w).
Definition out_of_fuel {A : Type} : M A := fun w => (OutOfFuel, w).

Declare Scope py_scope.
Delimit Scope py_scope with py.
Notation "x <- m ;; k" := (bind m (fun x => k))
  (at level 100, m at next level, right associativity) : py_scope.
Notation "m ;; k" := (bind m (fun _ => k))
  (at level 100, right associativity) : py_scope.
Local Open Scope py_scope.

Definition get_hadError : M bool := fun w => (Ok (hadError w), w).

Definition update_compileInfo (f : CompileInfo -> CompileInfo) : M unit :=
  fun w => (Ok tt, mkWorld (tokenList w) (f (compileInfo w)) (hadError w) (stderr w)).

Definition print_error (d : Diagnostic) : M unit :=
  fun w => (Ok tt, mkWorld (tokenList w) (compileInfo w) true (stderr w ++ [d])).

(** ** The token stream *)

Definition advance : M (option Token) :=
  fun w =>
    let tl := tokenList w in
    let current' := current tl + 1 in
    let w' := mkWorld (mkTokenList (tokens tl) current')
                      (compileInfo w) (hadError w) (stderr w) in
    if List.length (tokens tl) <=? current' - 1 then (Ok None, w')
    else (Ok (nth_error (tokens tl) (current' - 1)), w').

Definition peek : M Token :=
  fun w =>
    match nth_error (tokens (tokenList w)) (current (tokenList w)) with
    | Some t => (Ok t, w)
    | None => (Raise IndexError, w)
    end.

Definition is_at_end : M bool :=
  fun w => (Ok (List.length (tokens (tokenList w)) <=? current (tokenList w)), w).

Definition is_type (k : TokenType) (t : Token) : bool :=
  TokenType_eqb (tokenType t) k.

Fixpoint skip_line_loop (fuel : nat) (cur : option Token) : M unit :=
  match cur with
  | None => ret tt
  | Some t =>
      if is_type LINE_END t then ret tt
      else match fuel with
           | 0 => out_of_fuel
           | S fuel' => cur' <- advance ;; skip_line_loop fuel' cur'
           end
  end.

(** [skip_line]: the loop advances at most once per token
    ([skip_line_W] shows the fuel is enough). *)
Definition skip_line : M unit :=
  cur <- advance ;;
  fun w => skip_line_loop (List.length (tokens (tokenList w))) cur w.

(** ** The parser *)

(** The mutually recursive [consume_param] and [consume_comma].  The list
    [result] they append to is returned.  [peek] never returns [None], so
    the tests [if param == None] and [if comma == None] never succeed. *)
Fixpoint consume_param (fuel : nat) (result : list Token) : M (list Token) :=
  match fuel with
  | 0 => out_of_fuel
  | S fuel' =>
      param <- peek ;;
      if is_type STRING param then
        advance ;;
        consume_comma fuel' (result ++ [param])
      else ret result
  end
with consume_comma (fuel : nat) (result : list Token) : M (list Token) :=
  match fuel with
  | 0 => out_of_fuel
  | S fuel' =>
      comma <- peek ;;
      if is_type COMMA comma then
        advance ;;
        consume_param fuel' result
      else ret result
  end.

Definition is_some_type (k : TokenType) (t : option Token) : bool :=
  match t with
  | Some t => is_type k t
  | None => false
  end.

(** The recursion of [consume_param] moves the cursor at each call and
    stops at the end of the tokens at the latest: one unit of fuel more
    than there are tokens left is enough ([proceeds_consume_param]). *)
Definition get_complex_command_params (command : Token) : M (option (list Token)) :=
  lparen <- advance ;;
  if negb (is_some_type LEFT_PAREN lparen) then
    print_error (diag command Expected_lparen_after_command) ;;
    ret None
  else
    params <- (fun w => consume_param
                 (S (List.length (tokens (tokenList w)) - current (tokenList w)))
                 [] w) ;;
    if List.length params =? 0 then ret None
    else
      rparen <- advance ;;
      if negb (is_some_type RIGHT_PAREN rparen) then
        print_error (diag command Expected_rparen_after_parameters) ;;
        ret None
      else ret (Some params).

Definition complex_command (command : Token) : M (option (list Token)) :=
  params <- get_complex_command_params command ;;
  h <- get_hadError ;;
  match params with
  | None =>
      if h then skip_line ;; ret None
      else
        print_error (diag command Expected_parameters_after_command) ;;
        skip_line ;;
        ret None
  | Some ps => skip_line ;; ret (Some ps)
  end.

Definition get_simple_command_param (command : Token) : M (option Token) :=
  lparen <- advance ;;
  if negb (is_some_type LEFT_PAREN lparen) then
    print_error (diag command Expected_lparen_after_command) ;;
    ret None
  else
    param <- advance ;;
    match param with
    | None => ret None
    | Some p =>
        rparen <- advance ;;
        if negb (is_some_type RIGHT_PAREN rparen) then
          print_error (diag command Expected_rparen_after_parameter) ;;
          ret None
        else ret (Some p)
    end.

Definition simple_command (command : Token) : M (option Token) :=
  param <- get_simple_command_param command ;;
  h <- get_hadError ;;
  match param with
  | None =>
      if h then skip_line ;; ret None
      else
        print_error (diag command Expected_parameter_after_command) ;;
        skip_line ;;
        ret None
  | Some p => skip_line ;; ret (Some p)
  end.

(** Membership in a set literal such as [{"gcc", "cl", "clang", "clang-cl"}]. *)
Definition str_in (s : string) (set : list string) : bool :=
  existsb (String.eqb s) set.

Definition compilers : list string := ["gcc"; "cl"; "clang"; "clang-cl"].
Definition languageVersions : list string := ["c89"; "c99"; "c11"; "c17"].
Definition archs : list string := ["32"; "64"].
Definition outputTypes : list string := ["shared"; "object"; "executable"].
Definition buildTypes : list string := ["debug"; "release"].

(** The body shared by the five validated [Set...] branches:
    [if param != None: if param.lexeme in legal: field = param.lexeme
     else: print_error(...)]. *)
Definition assign_checked (legal : list string)
    (set : string -> CompileInfo -> CompileInfo) (m : Message)
    (param : option Token) : M unit :=
  match param with
  | Some p =>
      if str_in (lexeme p) legal then update_compileInfo (set (lexeme p))
      else print_error (diag p m)
  | None => ret tt
  end.

(** The body shared by the eight [Add...] branches:
    [if params != None: for param in params: field.append(param.lexeme)]. *)
Definition append_all (extend : list string -> CompileInfo -> CompileInfo)
    (params : option (list Token)) : M unit :=
  match params with
  | Some ps => update_compileInfo (extend (map lexeme ps))
  | None => ret tt
  end.

Definition handle_command : M unit :=
  command <- advance ;;
  match command with
  | None => raise AttributeError
  | Some command =>
      let name := lexeme command in
      if String.eqb name "SetProjectName" then
        param <- simple_command command ;;
        match param with
        | Some p => update_compileInfo (set_projectName (lexeme p))
        | None => ret tt
        end
      else if String.eqb name "SetCompiler" then
        param <- simple_command command ;;
        assign_checked compilers set_compiler Invalid_compiler param
      else if String.eqb name "SetLanguageVersion" then
        param <- simple_command command ;;
        assign_checked languageVersions set_languageVersion
                       Invalid_language_version param
      else if String.eqb name "SetTargetArch" then
        param <- simple_command command ;;
        assign_checked archs set_arch Invalid_architeture param
      else if String.eqb name "SetOutputType" then
        param <- simple_command command ;;
        assign_checked outputTypes set_outputType Invalid_output_type param
      else if String.eqb name "SetBuildType" then
        param <- simple_command command ;;
        assign_checked buildTypes set_buildType Invalid_build_type param
      else if String.eqb name "AddFile" then
        params <- complex_command command ;;
        append_all extend_files params
      else if String.eqb name "AddSourcePath" then
        params <- complex_command command ;;
        append_all extend_sourcePaths params
      else if String.eqb name "AddConstant" then
        params <- complex_command command ;;
        append_all extend_constants params
      else if String.eqb name "AddIncludePath" then
        params <- complex_command command ;;
        append_all extend_includePaths params
      else if String.eqb name "AddLibrary" then
        params <- complex_command command ;;
        append_all extend_libraries params
      else if String.eqb name "AddObjectFile" then
        params <- complex_command command ;;
        append_all extend_objectFiles params
      else if String.eqb name "AddCompilerFlag" then
        params <- complex_command command ;;
        append_all extend_compilerFlags params
      else if String.eqb name "AddLinkerFlag" then
        params <- complex_command command ;;
        append_all extend_linkerFlags params
      else
        print_error (diag command Unkown_command) ;;
        (* [tokenList.skip_line(command)]: [skip_line] takes no argument
           besides [self], the call raises before its body runs *)
        raise TypeError
  end.

Fixpoint parse_loop (fuel : nat) : M unit :=
  match fuel with
  | 0 => out_of_fuel
  | S fuel' =>
      e <- is_at_end ;;
      if e then ret tt
      else
        token <- peek ;;
        (if is_type STRING token then handle_command
         else
           print_error (diag token Commands_must_begin_with_a_string) ;;
           skip_line) ;;
        parse_loop fuel'
  end.

(** [parse_tokens]: every iteration of the loop moves the cursor, so one
    unit of fuel more than there are tokens is enough
    ([parse_terminates]). *)
Definition parse_tokens : M CompileInfo :=
  update_compileInfo (fun _ => CompileInfo_init) ;;
  (fun w => parse_loop (S (List.length (tokens (tokenList w)))) w) ;;
  fun w => (Ok (compileInfo w), w).

(** A run of [parse_tokens] on a fresh token list, as [main] does it:
    [hadError] is still [False] and nothing was printed. *)
Definition start (toks : list Token) : World :=
  mkWorld (mkTokenList toks 0) CompileInfo_init false [].

Definition parse (toks : list Token) : outcome CompileInfo * World :=
  parse_tokens (start toks).

(** Scanning then parsing the contents of a build file. *)
Definition scan_and_parse (text : string) : outcome (outcome CompileInfo * World) :=
  match scan_file text with
  | Ok toks => Ok (parse toks)
  | Raise e => Raise e
  | OutOfFuel => OutOfFuel
  end.

Definition scenario_text : string :=
  ("SetProjectName(app)" ++ NL ++ "AddFile(a.c, b.c)" ++ NL ++
   "SetBuildType(debug)" ++ NL)%string.

(** * Facts about the token stream *)

Local Abbreviation W toks c i h e := (mkWorld (mkTokenList toks c) i h e).

Lemma nth_error_past {A : Type} (pre suf : list A) (k : nat) :
  nth_error (pre ++ suf) (List.length pre + k) = nth_error suf k.
Proof.
  induction pre as [|x pre IH]; simpl; auto.
Qed.

Lemma skipn_past {A : Type} (pre suf : list A) (k : nat) :
  skipn (List.length pre + k) (pre ++ suf) = skipn k suf.
Proof.
  induction pre as [|x pre IH]; simpl; auto.
Qed.

Lemma skipn_nth_error_None {A : Type} (l : list A) (n : nat) :
  nth_error l n = None -> skipn n l = [].
Proof.
  intros H. apply skipn_all2. now apply nth_error_None.
Qed.

Lemma skipn_nth_error_Some {A : Type} (l : list A) (n : nat) (x : A) :
  nth_error l n = Some x -> skipn n l = x :: skipn (S n) l.
Proof.
  revert n; induction l as [|y l IH]; intros [|n] H; simpl in *; try discriminate.
  - now inversion H.
  - now apply IH.
Qed.

Lemma advance_W toks c i h e :
  advance (W toks c i h e) = (Ok (nth_error toks c), W toks (S c) i h e).
Proof.
  unfold advance; simpl.
  replace (c + 1 - 1) with c by lia.
  replace (c + 1) with (S c) by lia.
  destruct (Nat.leb_spec (List.length toks) c) as [Hle|Hlt]; auto.
  now rewrite (proj2 (nth_error_None toks c) Hle).
Qed.

(** The number of tokens [skip_line] consumes when the cursor is in front
    of [rest]: up to and including the first [LINE_END], or one more than
    there are when there is none. *)
Fixpoint line_span (rest : list Token) : nat :=
  match rest with
  | [] => 1
  | t :: rest' => if is_type LINE_END t then 1 else S (line_span rest')
  end.

Lemma skip_line_loop_W toks i h e fuel : forall c,
  List.length toks - c <= fuel ->
  skip_line_loop fuel (nth_error toks c) (W toks (S c) i h e) =
  (Ok tt, W toks (c + line_span (skipn c toks)) i h e).
Proof.
  induction fuel as [|fuel IH]; intros c Hf.
  - rewrite (proj2 (nth_error_None toks c)) by lia.
    rewrite skipn_all2 by lia. simpl. now rewrite Nat.add_1_r.
  - destruct (nth_error toks c) as [t|] eqn:Ht.
    + rewrite (skipn_nth_error_Some _ _ _ Ht). simpl.
      destruct (is_type LINE_END t).
      * now rewrite Nat.add_1_r.
      * unfold bind. rewrite advance_W. rewrite IH by lia.
        now rewrite Nat.add_succ_r.
    + rewrite (skipn_nth_error_None _ _ Ht). simpl. now rewrite Nat.add_1_r.
Qed.

(** [skip_line] always returns, and moves the cursor by [line_span]. *)
Lemma skip_line_W toks c i h e :
  skip_line (W toks c i h e) =
  (Ok tt, W toks (c + line_span (skipn c toks)) i h e).
Proof.
  unfold skip_line, bind. rewrite advance_W.
  apply skip_line_loop_W. simpl. lia.
Qed.

Lemma line_span_pos rest : 1 <= line_span rest.
Proof. destruct rest as [|t rest]; simpl; [|destruct (is_type LINE_END t)]; lia. Qed.

Global Opaque advance skip_line.

(** * Facts about simple commands *)

Definition LPAREN (ln : nat) : Token := mkToken LEFT_PAREN "(" ln.
Definition RPAREN (ln : nat) : Token := mkToken RIGHT_PAREN ")" ln.
Definition EOL (ln : nat) : Token := mkToken LINE_END "\n" ln.

(** The tokens of [Command(param)] with the cursor on the token after the
    command name: the parameter is returned whatever its kind. *)
Lemma get_simple_command_param_W pre command l1 p l2 rest i h e :
  let toks := pre ++ [command; LPAREN l1; p; RPAREN l2] ++ rest in
  get_simple_command_param command (W toks (S (List.length pre)) i h e) =
  (Ok (Some p), W toks (List.length pre + 4) i h e).
Proof.
  intros toks. unfold get_simple_command_param, bind.
  rewrite <- (Nat.add_1_r (List.length pre)).
  rewrite advance_W. unfold toks. rewrite nth_error_past. simpl.
  rewrite advance_W. rewrite <- Nat.add_succ_r, nth_error_past. simpl.
  rewrite advance_W. rewrite <- Nat.add_succ_r, nth_error_past. simpl.
  now rewrite <- Nat.add_succ_r.
Qed.

Lemma simple_command_W pre command l1 p l2 rest i h e :
  let toks := pre ++ [command; LPAREN l1; p; RPAREN l2] ++ rest in
  simple_command command (W toks (S (List.length pre)) i h e) =
  (Ok (Some p), W toks (List.length pre + 4 + line_span rest) i h e).
Proof.
  intros toks. unfold simple_command, bind.
  unfold toks. rewrite get_simple_command_param_W. simpl.
  rewrite skip_line_W. rewrite skipn_past. reflexivity.
Qed.

Lemma nth_error_here {A : Type} (pre suf : list A) :
  nth_error (pre ++ suf) (List.length pre) = nth_error suf 0.
Proof. rewrite <- (Nat.add_0_r (List.length pre)). apply nth_error_past. Qed.

(** The six simple commands of the command table, with the field each one
    writes and, for the validated ones, the set the value is checked
    against in [handle_command]. *)
Inductive SimpleCommand : Type :=
| SetProjectName
| SetCompiler
| SetLanguageVersion
| SetTargetArch
| SetOutputType
| SetBuildType.

Definition simple_name (s : SimpleCommand) : string :=
  match s with
  | SetProjectName => "SetProjectName"
  | SetCompiler => "SetCompiler"
  | SetLanguageVersion => "SetLanguageVersion"
  | SetTargetArch => "SetTargetArch"
  | SetOutputType => "SetOutputType"
  | SetBuildType => "SetBuildType"
  end.

Definition legal_values (s : SimpleCommand) : option (list string) :=
  match s with
  | SetProjectName => None
  | SetCompiler => Some compilers
  | SetLanguageVersion => Some languageVersions
  | SetTargetArch => Some archs
  | SetOutputType => Some outputTypes
  | SetBuildType => Some buildTypes
  end.

Definition accepts (s : SimpleCommand) (v : string) : bool :=
  match legal_values s with
  | None => true
  | Some legal => str_in v legal
  end.

Definition field (s : SimpleCommand) : CompileInfo -> string :=
  match s with
  | SetProjectName => projectName
  | SetCompiler => compiler
  | SetLanguageVersion => languageVersion
  | SetTargetArch => arch
  | SetOutputType => outputType
  | SetBuildType => buildType
  end.

Definition set_field (s : SimpleCommand) : string -> CompileInfo -> CompileInfo :=
  match s with
  | SetProjectName => set_projectName
  | SetCompiler => set_compiler
  | SetLanguageVersion => set_languageVersion
  | SetTargetArch => set_arch
  | SetOutputType => set_outputType
  | SetBuildType => set_buildType
  end.

Definition invalid_message (s : SimpleCommand) : Message :=
  match s with
  | SetProjectName => Unkown_command (* no validation, never reported *)
  | SetCompiler => Invalid_compiler
  | SetLanguageVersion => Invalid_language_version
  | SetTargetArch => Invalid_architeture
  | SetOutputType => Invalid_output_type
  | SetBuildType => Invalid_build_type
  end.

Lemma field_set_field s v i : field s (set_field s v i) = v.
Proof. now destruct s. Qed.

(** [handle_command] on [SetX(p)]: the dispatch reaches the branch of [s],
    which runs [simple_command] and then looks at the lexeme of [p]. *)
Lemma handle_simple_W s pre ln l1 p l2 rest i h e :
  let toks := pre ++ [mkToken STRING (simple_name s) ln; LPAREN l1; p; RPAREN l2]
                  ++ rest in
  let c' := List.length pre + 4 + line_span rest in
  handle_command (W toks (List.length pre) i h e) =
  if accepts s (lexeme p)
  then (Ok tt, W toks c' (set_field s (lexeme p) i) h e)
  else (Ok tt, W toks c' i true (e ++ [diag p (invalid_message s)])).
Proof.
  intros toks c'. unfold handle_command, bind.
  rewrite advance_W. unfold toks at 1. rewrite nth_error_here.
  destruct s; simpl; unfold toks; rewrite simple_command_W;
    try reflexivity;
    unfold assign_checked, accepts; cbv beta iota delta [legal_values];
    destruct (str_in (lexeme p) _); reflexivity.
Qed.

(** * Facts about the main loop *)

Lemma parse_loop_end fuel toks c i h e :
  List.length toks <= c ->
  parse_loop (S fuel) (W toks c i h e) = (Ok tt, W toks c i h e).
Proof.
  intros Hc. simpl. unfold bind, is_at_end. simpl.
  now rewrite (proj2 (Nat.leb_le _ _) Hc).
Qed.

Lemma parse_loop_command fuel toks c t i h e w' :
  nth_error toks c = Some t ->
  is_type STRING t = true ->
  handle_command (W toks c i h e) = (Ok tt, w') ->
  parse_loop (S fuel) (W toks c i h e) = parse_loop fuel w'.
Proof.
  intros Ht Hs Hh. simpl. unfold bind at 1, is_at_end. simpl.
  assert (Hlt : c < List.length toks) by (apply nth_error_Some; congruence).
  rewrite (proj2 (Nat.leb_gt _ _) Hlt).
  unfold bind at 1, peek. simpl. rewrite Ht.
  unfold bind at 1. rewrite Hs, Hh. reflexivity.
Qed.

Lemma parse_loop_no_command fuel toks c t i h e :
  nth_error toks c = Some t ->
  is_type STRING t = false ->
  parse_loop (S fuel) (W toks c i h e) =
  parse_loop fuel
    (W toks (c + line_span (skipn c toks)) i true
       (e ++ [diag t Commands_must_begin_with_a_string])).
Proof.
  intros Ht Hs. simpl. unfold bind at 1, is_at_end. simpl.
  assert (Hlt : c < List.length toks) by (apply nth_error_Some; congruence).
  rewrite (proj2 (Nat.leb_gt _ _) Hlt).
  unfold bind at 1, peek. simpl. rewrite Ht.
  unfold bind at 1. rewrite Hs.
  unfold bind at 1. unfold print_error at 1. simpl.
  rewrite skip_line_W. reflexivity.
Qed.

Lemma parse_unfold toks :
  parse toks =
  match parse_loop (S (List.length toks)) (start toks) with
  | (Ok _, w) => (Ok (compileInfo w), w)
  | (Raise x, w) => (Raise x, w)
  | (OutOfFuel, w) => (OutOfFuel, w)
  end.
Proof.
  unfold parse, parse_tokens, bind, update_compileInfo, start. simpl tokenList.
  cbv beta iota. simpl tokens.
  destruct (parse_loop _ _) as [[u|x|] w]; reflexivity.
Qed.

(** * Properties of the configuration that every step of the parser keeps *)

Definition preserves {A : Type} (P : World -> Prop) (m : M A) : Prop :=
  forall w, P w -> P (snd (m w)).

Lemma preserves_ret {A : Type} (P : World -> Prop) (a : A) : preserves P (ret a).
Proof. now intros w Hw. Qed.

Lemma preserves_raise {A : Type} (P : World -> Prop) (x : exn) :
  preserves P (@raise A x).
Proof. now intros w Hw. Qed.

Lemma preserves_out_of_fuel {A : Type} (P : World -> Prop) :
  preserves P (@out_of_fuel A).
Proof. now intros w Hw. Qed.

Lemma preserves_bind {A B : Type} (P : World -> Prop) (m : M A) (k : A -> M B) :
  preserves P m -> (forall a, preserves P (k a)) -> preserves P (bind m k).
Proof.
  intros Hm Hk w Hw. unfold bind. specialize (Hm w Hw).
  destruct (m w) as [[a|x|] w']; simpl in *; auto.
  now apply Hk.
Qed.

Lemma preserves_if {A : Type} (P : World -> Prop) (b : bool) (m1 m2 : M A) :
  preserves P m1 -> preserves P m2 -> preserves P (if b then m1 else m2).
Proof. now destruct b. Qed.

Create HintDb keeps.

Section Invariant.

(** A property [Q] of the configuration that holds of the defaults, that
    every assignment of a checked value keeps, and that appending to a
    list field keeps. *)
Variable Q : CompileInfo -> Prop.

Hypothesis Q_projectName : forall v i, Q i -> Q (set_projectName v i).
Hypothesis Q_compiler :
  forall v i, str_in v compilers = true -> Q i -> Q (set_compiler v i).
Hypothesis Q_languageVersion :
  forall v i, str_in v languageVersions = true -> Q i -> Q (set_languageVersion v i).
Hypothesis Q_arch :
  forall v i, str_in v archs = true -> Q i -> Q (set_arch v i).
Hypothesis Q_outputType :
  forall v i, str_in v outputTypes = true -> Q i -> Q (set_outputType v i).
Hypothesis Q_buildType :
  forall v i, str_in v buildTypes = true -> Q i -> Q (set_buildType v i).
Hypothesis Q_files : forall xs i, Q i -> Q (extend_files xs i).
Hypothesis Q_sourcePaths : forall xs i, Q i -> Q (extend_sourcePaths xs i).
Hypothesis Q_constants : forall xs i, Q i -> Q (extend_constants xs i).
Hypothesis Q_includePaths : forall xs i, Q i -> Q (extend_includePaths xs i).
Hypothesis Q_libraries : forall xs i, Q i -> Q (extend_libraries xs i).
Hypothesis Q_objectFiles : forall xs i, Q i -> Q (extend_objectFiles xs i).
Hypothesis Q_compilerFlags : forall xs i, Q i -> Q (extend_compilerFlags xs i).
Hypothesis Q_linkerFlags : forall xs i, Q i -> Q (extend_linkerFlags xs i).

Let P (w : World) : Prop := Q (compileInfo w).

Lemma keeps_advance : preserves P advance.
Proof.
  intros [[toks c] i h e] Hw. rewrite advance_W. exact Hw.
Qed.

Lemma keeps_peek : preserves P peek.
Proof.
  intros w Hw. unfold peek. now destruct (nth_error _ _).
Qed.

Lemma keeps_is_at_end : preserves P is_at_end.
Proof. now intros w Hw. Qed.

Lemma keeps_get_hadError : preserves P get_hadError.
Proof. now intros w Hw. Qed.

Lemma keeps_print_error d : preserves P (print_error d).
Proof. now intros w Hw. Qed.

Lemma keeps_skip_line : preserves P skip_line.
Proof.
  intros [[toks c] i h e] Hw. rewrite skip_line_W. exact Hw.
Qed.

Lemma keeps_update f :
  (forall i, Q i -> Q (f i)) -> preserves P (update_compileInfo f).
Proof. intros Hf w Hw. now apply Hf. Qed.

Hint Resolve preserves_ret preserves_raise preserves_out_of_fuel
  keeps_advance keeps_peek keeps_is_at_end keeps_get_hadError
  keeps_print_error keeps_skip_line : keeps.

Ltac keeps :=
  repeat
    match goal with
    | |- preserves _ (bind _ _) => apply preserves_bind; [|intros ?]
    | |- preserves _ (if _ then _ else _) => apply preserves_if
    | |- preserves _ (match ?x with _ => _ end) => destruct x
    | |- preserves _ _ => solve [auto with keeps]
    end.

Lemma keeps_consume_param fuel :
  forall result, preserves P (consume_param fuel result)
                 /\ preserves P (consume_comma fuel result).
Proof.
  induction fuel as [|fuel IH]; intros result; split; simpl; keeps;
    apply IH.
Qed.

Lemma keeps_get_complex_command_params command :
  preserves P (get_complex_command_params command).
Proof.
  unfold get_complex_command_params. keeps.
  intros w Hw. now apply keeps_consume_param.
Qed.

Lemma keeps_complex_command command :
  preserves P (complex_command command).
Proof.
  unfold complex_command. keeps. apply keeps_get_complex_command_params.
Qed.

Lemma keeps_get_simple_command_param command :
  preserves P (get_simple_command_param command).
Proof. unfold get_simple_command_param. keeps. Qed.

Lemma keeps_simple_command command :
  preserves P (simple_command command).
Proof.
  unfold simple_command. keeps. apply keeps_get_simple_command_param.
Qed.

Lemma keeps_assign_checked legal set m param :
  (forall v i, str_in v legal = true -> Q i -> Q (set v i)) ->
  preserves P (assign_checked legal set m param).
Proof.
  intros Hset. unfold assign_checked. destruct param as [p|]; [|keeps].
  destruct (str_in (lexeme p) legal) eqn:Hin; [|keeps].
  apply keeps_update. intros i. now apply Hset.
Qed.

Lemma keeps_append_all extend params :
  (forall xs i, Q i -> Q (extend xs i)) ->
  preserves P (append_all extend params).
Proof.
  intros Hext. unfold append_all. destruct params as [ps|]; keeps.
  apply keeps_update. intros i. apply Hext.
Qed.

Lemma keeps_handle_command : preserves P handle_command.
Proof.
  unfold handle_command.
  apply preserves_bind; [apply keeps_advance|intros [command|]]; keeps;
    first [ apply keeps_simple_command
          | apply keeps_complex_command
          | apply keeps_assign_checked; assumption
          | apply keeps_append_all; assumption
          | apply keeps_update; intros i; apply Q_projectName ].
Qed.

Lemma keeps_parse_loop fuel : preserves P (parse_loop fuel).
Proof.
  induction fuel as [|fuel IH]; simpl; keeps.
  apply keeps_handle_command.
Qed.

End Invariant.

(** * Facts about complex commands *)

Definition STR (ln : nat) (v : string) : Token := mkToken STRING v ln.

(** The tokens of the parameter list [v, v1, ..., vn] on line [ln]. *)
Fixpoint params_tokens (ln : nat) (v : string) (vs : list string) : list Token :=
  STR ln v ::
  match vs with
  | [] => []
  | v' :: vs' => mkToken COMMA "," ln :: params_tokens ln v' vs'
  end.

Lemma params_tokens_length ln vs : forall v,
  List.length (params_tokens ln v vs) = 2 * List.length vs + 1.
Proof.
  induction vs as [|v' vs IH]; intros v; simpl; auto.
  rewrite IH. lia.
Qed.

Lemma peek_W toks c i h e t :
  nth_error toks c = Some t ->
  peek (W toks c i h e) = (Ok t, W toks c i h e).
Proof. intros Ht. unfold peek. simpl. now rewrite Ht. Qed.

Lemma peek_end toks c i h e :
  nth_error toks c = None ->
  peek (W toks c i h e) = (Raise IndexError, W toks c i h e).
Proof. intros Ht. unfold peek. simpl. now rewrite Ht. Qed.

(** A well-formed parameter list followed by a token that is not a comma
    is consumed whole, in order. *)
Lemma consume_param_W ln t rest i h e vs : forall v pre fuel result,
  is_type COMMA t = false ->
  2 * List.length vs + 2 <= fuel ->
  let toks := pre ++ params_tokens ln v vs ++ t :: rest in
  consume_param fuel result (W toks (List.length pre) i h e) =
  (Ok (result ++ map (STR ln) (v :: vs)),
   W toks (List.length pre + List.length (params_tokens ln v vs)) i h e).
Proof.
  induction vs as [|v' vs IH]; intros v pre fuel result Ht Hf toks.
  - destruct fuel as [|[|fuel]]; try (simpl in Hf; lia).
    unfold toks. simpl consume_param. unfold bind.
    rewrite (peek_W _ _ _ _ _ (STR ln v)) by now rewrite nth_error_here.
    change (is_type STRING (STR ln v)) with true. cbv beta iota.
    rewrite advance_W.
    rewrite (peek_W _ _ _ _ _ t)
      by now rewrite <- Nat.add_1_r, nth_error_past.
    rewrite Ht. unfold ret. simpl. now rewrite Nat.add_1_r.
  - destruct fuel as [|[|fuel]]; try (simpl in Hf; lia).
    unfold toks. simpl consume_param. unfold bind.
    rewrite (peek_W _ _ _ _ _ (STR ln v)) by now rewrite nth_error_here.
    change (is_type STRING (STR ln v)) with true. cbv beta iota.
    rewrite advance_W.
    rewrite (peek_W _ _ _ _ _ (mkToken COMMA "," ln))
      by now rewrite <- Nat.add_1_r, nth_error_past.
    change (is_type COMMA (mkToken COMMA "," ln)) with true. cbv beta iota.
    rewrite advance_W.
    specialize (IH v' (pre ++ [STR ln v; mkToken COMMA "," ln]) fuel
                  (result ++ [STR ln v]) Ht).
    cbv zeta in IH. rewrite <- app_assoc in IH. simpl app in IH.
    rewrite length_app in IH. simpl List.length in IH.
    replace (List.length pre + 2) with (S (S (List.length pre))) in IH by lia.
    simpl params_tokens. simpl app.
    rewrite IH by (simpl in Hf; lia).
    rewrite <- app_assoc. simpl.
    do 2 f_equal. f_equal. lia.
Qed.

Lemma get_complex_command_params_W pre command l1 ln v vs l2 rest i h e :
  let toks := pre ++ [command; LPAREN l1] ++ params_tokens ln v vs
                  ++ RPAREN l2 :: rest in
  get_complex_command_params command (W toks (S (List.length pre)) i h e) =
  (Ok (Some (map (STR ln) (v :: vs))),
   W toks (List.length pre + 2 + List.length (params_tokens ln v vs) + 1) i h e).
Proof.
  intros toks. unfold get_complex_command_params, bind.
  rewrite advance_W. unfold toks at 1.
  rewrite <- Nat.add_1_r, nth_error_past.
  change (nth_error ([command; LPAREN l1] ++ _) 1) with (Some (LPAREN l1)).
  change (negb (is_some_type LEFT_PAREN (Some (LPAREN l1)))) with false.
  cbv beta iota.
  assert (Etoks : toks = (pre ++ [command; LPAREN l1]) ++ params_tokens ln v vs
                           ++ RPAREN l2 :: rest)
    by (unfold toks; now rewrite <- app_assoc).
  assert (Elen : S (List.length pre + 1) = List.length (pre ++ [command; LPAREN l1]))
    by (rewrite length_app; simpl; lia).
  rewrite Elen, Etoks. simpl tokenList. simpl tokens. simpl current.
  rewrite consume_param_W; [|reflexivity|].
  2:{ rewrite !length_app, params_tokens_length. simpl. lia. }
  change (List.length ([] ++ map (STR ln) (v :: vs)) =? 0) with false.
  cbv beta iota.
  rewrite advance_W. rewrite nth_error_past, nth_error_here.
  change (nth_error (RPAREN l2 :: rest) 0) with (Some (RPAREN l2)).
  change (negb (is_some_type RIGHT_PAREN (Some (RPAREN l2)))) with false.
  cbv beta iota. unfold ret.
  rewrite length_app. simpl. do 3 f_equal. lia.
Qed.

Lemma complex_command_W pre command l1 ln v vs l2 rest i h e :
  let toks := pre ++ [command; LPAREN l1] ++ params_tokens ln v vs
                  ++ RPAREN l2 :: rest in
  complex_command command (W toks (S (List.length pre)) i h e) =
  (Ok (Some (map (STR ln) (v :: vs))),
   W toks (List.length pre + 2 + List.length (params_tokens ln v vs) + 1
           + line_span rest) i h e).
Proof.
  intros toks. unfold complex_command, bind.
  unfold toks. rewrite get_complex_command_params_W.
  unfold get_hadError. cbv beta iota.
  rewrite skip_line_W. unfold ret. do 3 f_equal.
  replace (pre ++ [command; LPAREN l1] ++ params_tokens ln v vs ++ RPAREN l2 :: rest)
    with ((pre ++ [command; LPAREN l1] ++ params_tokens ln v vs ++ [RPAREN l2]) ++ rest)
    by (now rewrite <- !app_assoc).
  replace (List.length pre + 2 + List.length (params_tokens ln v vs) + 1)
    with (List.length (pre ++ [command; LPAREN l1] ++ params_tokens ln v vs
                           ++ [RPAREN l2]) + 0)
    by (rewrite !length_app; simpl; lia).
  now rewrite skipn_past.
Qed.

(** The eight complex commands of the command table and the list field
    each one appends to. *)
Inductive ComplexCommand : Type :=
| AddFile
| AddSourcePath
| AddConstant
| AddIncludePath
| AddLibrary
| AddObjectFile
| AddCompilerFlag
| AddLinkerFlag.

Definition complex_name (a : ComplexCommand) : string :=
  match a with
  | AddFile => "AddFile"
  | AddSourcePath => "AddSourcePath"
  | AddConstant => "AddConstant"
  | AddIncludePath => "AddIncludePath"
  | AddLibrary => "AddLibrary"
  | AddObjectFile => "AddObjectFile"
  | AddCompilerFlag => "AddCompilerFlag"
  | AddLinkerFlag => "AddLinkerFlag"
  end.

Definition list_field (a : ComplexCommand) : CompileInfo -> list string :=
  match a with
  | AddFile => files
  | AddSourcePath => sourcePaths
  | AddConstant => constants
  | AddIncludePath => includePaths
  | AddLibrary => libraries
  | AddObjectFile => objectFiles
  | AddCompilerFlag => compilerFlags
  | AddLinkerFlag => linkerFlags
  end.

Definition extend_field (a : ComplexCommand)
    : list string -> CompileInfo -> CompileInfo :=
  match a with
  | AddFile => extend_files
  | AddSourcePath => extend_sourcePaths
  | AddConstant => extend_constants
  | AddIncludePath => extend_includePaths
  | AddLibrary => extend_libraries
  | AddObjectFile => extend_objectFiles
  | AddCompilerFlag => extend_compilerFlags
  | AddLinkerFlag => extend_linkerFlags
  end.

Lemma list_field_extend_field a xs i :
  list_field a (extend_field a xs i) = list_field a i ++ xs.
Proof. now destruct a. Qed.

Lemma map_lexeme_STR ln xs : map lexeme (map (STR ln) xs) = xs.
Proof. induction xs as [|x xs IH]; simpl; congruence. Qed.

(** [handle_command] on [AddX(v, v1, ..., vn)]. *)
Lemma handle_complex_W a pre ln0 l1 ln v vs l2 rest i h e :
  let toks := pre ++ [STR ln0 (complex_name a); LPAREN l1]
                  ++ params_tokens ln v vs ++ RPAREN l2 :: rest in
  handle_command (W toks (List.length pre) i h e) =
  (Ok tt,
   W toks (List.length pre + 2 + List.length (params_tokens ln v vs) + 1
           + line_span rest)
     (extend_field a (v :: vs) i) h e).
Proof.
  intros toks. unfold handle_command, bind.
  rewrite advance_W. unfold toks at 1. rewrite nth_error_here.
  change (nth_error ([STR ln0 (complex_name a); LPAREN l1] ++ _) 0)
    with (Some (STR ln0 (complex_name a))).
  cbv beta iota.
  destruct a; simpl; unfold toks; rewrite complex_command_W;
    unfold append_all, update_compileInfo; cbv beta iota;
    rewrite map_lexeme_STR; reflexivity.
Qed.

(** * List fields only grow *)

Definition grows_from (a : ComplexCommand) (l : list string) (i : CompileInfo) : Prop :=
  exists more, list_field a i = l ++ more.

Lemma grows_from_refl a i : grows_from a (list_field a i) i.
Proof. exists []. now rewrite app_nil_r. Qed.

Ltac grows_case :=
  match goal with
  | H : grows_from _ _ _ |- grows_from _ _ _ =>
      let more := fresh "more" in
      let Hm := fresh "Hm" in
      destruct H as [more Hm]; unfold grows_from in *; simpl in *;
      rewrite Hm;
      first [ eexists; reflexivity
            | eexists; rewrite <- app_assoc; reflexivity ]
  end.

Lemma parse_loop_grows a fuel w :
  grows_from a (list_field a (compileInfo w))
             (compileInfo (snd (parse_loop fuel w))).
Proof.
  apply (keeps_parse_loop (grows_from a (list_field a (compileInfo w))));
    try (intros; destruct a; grows_case).
  apply grows_from_refl.
Qed.

Lemma handle_command_grows a w :
  grows_from a (list_field a (compileInfo w))
             (compileInfo (snd (handle_command w))).
Proof.
  apply (keeps_handle_command (grows_from a (list_field a (compileInfo w))));
    try (intros; destruct a; grows_case).
  apply grows_from_refl.
Qed.

(** * Enumerated fields hold legal values *)

Definition legal_config (i : CompileInfo) : Prop :=
  str_in (compiler i) compilers = true /\
  str_in (languageVersion i) languageVersions = true /\
  str_in (arch i) archs = true /\
  str_in (outputType i) outputTypes = true /\
  str_in (buildType i) buildTypes = true.

Lemma legal_config_init : legal_config CompileInfo_init.
Proof. repeat split. Qed.

Ltac legal_case :=
  match goal with
  | H : legal_config _ |- legal_config _ =>
      unfold legal_config in *; simpl; tauto
  end.

Lemma parse_loop_legal fuel w :
  legal_config (compileInfo w) ->
  legal_config (compileInfo (snd (parse_loop fuel w))).
Proof.
  apply (keeps_parse_loop legal_config); intros; legal_case.
Qed.

Lemma handle_command_legal w :
  legal_config (compileInfo w) ->
  legal_config (compileInfo (snd (handle_command w))).
Proof.
  apply (keeps_handle_command legal_config); intros; legal_case.
Qed.

Lemma parse_legal toks :
  legal_config (compileInfo (snd (parse toks))) /\
  (forall i, fst (parse toks) = Ok i -> legal_config i).
Proof.
  rewrite parse_unfold.
  pose proof (parse_loop_legal (S (List.length toks)) (start toks)
                legal_config_init) as H.
  destruct (parse_loop _ _) as [[u|x|] w]; simpl in *; split; auto;
    intros i Hi; try discriminate.
  inversion Hi; subst. exact H.
Qed.

(** * Complex commands append their parameters *)

(** The tokens of the line [AddX(v, v1, ..., vn)] numbered [ln]. *)
Definition complex_line (a : ComplexCommand) (ln : nat) (v : string)
    (vs : list string) : list Token :=
  [STR ln (complex_name a); LPAREN ln] ++ params_tokens ln v vs
    ++ [RPAREN ln; EOL ln].

Lemma complex_line_length a ln v vs :
  List.length (complex_line a ln v vs) = 2 * List.length vs + 5.
Proof.
  unfold complex_line. rewrite !length_app, params_tokens_length. simpl. lia.
Qed.

Lemma handle_complex_line a pre ln v vs rest i h e :
  let toks := pre ++ complex_line a ln v vs ++ rest in
  handle_command (W toks (List.length pre) i h e) =
  (Ok tt,
   W toks (List.length pre + List.length (complex_line a ln v vs))
     (extend_field a (v :: vs) i) h e).
Proof.
  intros toks.
  pose proof (handle_complex_W a pre ln ln ln v vs ln (EOL ln :: rest) i h e) as H.
  cbv zeta in H.
  replace (pre ++ [STR ln (complex_name a); LPAREN ln] ++ params_tokens ln v vs
               ++ RPAREN ln :: EOL ln :: rest)
    with toks in H
    by (unfold toks, complex_line; now rewrite <- !app_assoc).
  rewrite H. do 3 f_equal.
  rewrite complex_line_length, params_tokens_length. simpl. lia.
Qed.

(** C5. For every complex command [AddX(v, v1, ..., vn)]:
    [handle_command] returns normally with the parameters appended, in
    source order, at the end of the list field of [AddX], all else being as
    before; the field is the old one followed by the parameters and is
    longer by their number; a file that holds the command twice ends with
    both parameter lists, the second after the first; and no run of the
    main loop, whatever the tokens, removes or reorders what a list field
    already holds.  The file of the two lines [AddFile(a, b, c)] and
    [AddFile(a, d)] gives the files [a, b, c, a, d] and no error. *)
Theorem complex_command_appends (a : ComplexCommand) (v : string) (vs : list string) :
  (forall pre ln0 l1 ln l2 rest i h e,
     let toks := pre ++ [STR ln0 (complex_name a); LPAREN l1]
                     ++ params_tokens ln v vs ++ RPAREN l2 :: rest in
     handle_command (W toks (List.length pre) i h e) =
     (Ok tt,
      W toks (List.length pre + 2 + List.length (params_tokens ln v vs) + 1
              + line_span rest)
        (extend_field a (v :: vs) i) h e))
  /\ (forall i,
        list_field a (extend_field a (v :: vs) i) = list_field a i ++ v :: vs
        /\ List.length (list_field a (extend_field a (v :: vs) i)) =
           List.length (list_field a i) + List.length (v :: vs))
  /\ (forall ln ln' u us,
        let toks := complex_line a ln v vs ++ complex_line a ln' u us in
        let i' := extend_field a (u :: us)
                    (extend_field a (v :: vs) CompileInfo_init) in
        parse toks = (Ok i', W toks (List.length toks) i' false [])
        /\ list_field a i' = (v :: vs) ++ (u :: us))
  /\ (forall fuel w,
        exists more,
          list_field a (compileInfo (snd (parse_loop fuel w))) =
          list_field a (compileInfo w) ++ more)
  /\ (exists w,
        scan_and_parse ("AddFile(a, b, c)" ++ NL ++ "AddFile(a, d)" ++ NL)%string =
        Ok (Ok (extend_files ["a"; "d"]
                  (extend_files ["a"; "b"; "c"] CompileInfo_init)), w)
        /\ hadError w = false /\ stderr w = []).
Proof.
  split; [|split; [|split; [|split]]];
    [| | | |eexists; split; [vm_compute; reflexivity|split; reflexivity]].
  - intros. apply handle_complex_W.
  - intros i. rewrite list_field_extend_field. split; auto.
    now rewrite length_app.
  - intros ln ln' u us toks i'. split.
    + rewrite parse_unfold. unfold start.
      assert (Hlen : List.length toks
                     = S (S (2 * List.length vs + 2 * List.length us + 8))).
      { unfold toks. rewrite length_app, !complex_line_length. lia. }
      rewrite Hlen.
      pose proof (handle_complex_line a [] ln v vs (complex_line a ln' u us)
                    CompileInfo_init false []) as H1.
      cbv zeta in H1. simpl app in H1. simpl List.length in H1.
      rewrite (parse_loop_command _ toks 0 (STR ln (complex_name a))
                 _ _ _ _ eq_refl eq_refl H1).
      pose proof (handle_complex_line a (complex_line a ln v vs) ln' u us []
                    (extend_field a (v :: vs) CompileInfo_init) false []) as H2.
      cbv zeta in H2. rewrite app_nil_r in H2.
      rewrite (parse_loop_command _ toks _ (STR ln' (complex_name a))
                 _ _ _ _ (nth_error_here _ _) eq_refl H2).
      rewrite parse_loop_end; [|rewrite length_app; lia].
      rewrite !complex_line_length. simpl compileInfo.
      unfold i', toks. do 3 f_equal. lia.
    + unfold i'. rewrite !list_field_extend_field.
      now destruct a.
  - intros fuel w. apply parse_loop_grows.
Qed.

(** * Simple commands with an illegal value *)

(** C6. For every simple command [SetX(v)] on an enumerated field whose
    value [v] is not in the set of the field: [handle_command] returns
    normally, the configuration is left as it was, so the field keeps its
    prior value, the error flag is set and the diagnostic of the field is
    reported for the parameter.  Hence the enumerated scalar fields hold
    legal values at every point: a step of [handle_command] and a run of
    the main loop keep them legal, and after [parse_tokens] on any tokens
    they are legal, whether the run returned or raised. *)
Theorem illegal_value_rejected (s : SimpleCommand) (v : string) :
  accepts s v = false ->
  (forall pre ln l1 k lp l2 rest i h e,
     let toks := pre ++ [mkToken STRING (simple_name s) ln; LPAREN l1;
                         mkToken k v lp; RPAREN l2] ++ rest in
     handle_command (W toks (List.length pre) i h e) =
     (Ok tt,
      W toks (List.length pre + 4 + line_span rest) i true
        (e ++ [mkDiagnostic lp v (invalid_message s)])))
  /\ (forall w, legal_config (compileInfo w) ->
                legal_config (compileInfo (snd (handle_command w))))
  /\ (forall fuel w, legal_config (compileInfo w) ->
                     legal_config (compileInfo (snd (parse_loop fuel w))))
  /\ (forall toks,
        legal_config (compileInfo (snd (parse toks))) /\
        (forall i, fst (parse toks) = Ok i -> legal_config i)).
Proof.
  intros Hv. split; [|split; [|split]].
  - intros pre ln l1 k lp l2 rest i h e toks.
    unfold toks. rewrite handle_simple_W. simpl lexeme. now rewrite Hv.
  - apply handle_command_legal.
  - apply parse_loop_legal.
  - apply parse_legal.
Qed.

Lemma illegal_value_rejected_witness :
  accepts SetCompiler "msvc" = false /\
  handle_command
    (W [mkToken STRING "SetCompiler" 1; LPAREN 1; mkToken STRING "msvc" 1;
        RPAREN 1; EOL 1] 0 CompileInfo_init false []) =
  (Ok tt,
   W [mkToken STRING "SetCompiler" 1; LPAREN 1; mkToken STRING "msvc" 1;
      RPAREN 1; EOL 1] 5 CompileInfo_init true
     [mkDiagnostic 1 "msvc" Invalid_compiler]).
Proof.
  split; [reflexivity|].
  exact (proj1 (illegal_value_rejected SetCompiler "msvc" eq_refl)
           [] 1 1 STRING 1 1 [EOL 1] CompileInfo_init false []).
Defined.

(** * The parameter of a simple command is not checked for its kind *)

(** C9. Between the parentheses of a simple command one token is taken
    whatever its kind: [get_simple_command_param] returns it, and
    [SetProjectName] stores its lexeme, which is then what [projectName]
    holds, without reporting anything; the file [SetProjectName(,)] sets
    [projectName] to [","], the other fields keeping their defaults, with
    no error. *)
Theorem simple_param_of_any_kind :
  (forall pre command l1 p l2 rest i h e,
     let toks := pre ++ [command; LPAREN l1; p; RPAREN l2] ++ rest in
     get_simple_command_param command (W toks (S (List.length pre)) i h e) =
     (Ok (Some p), W toks (List.length pre + 4) i h e))
  /\ (forall pre ln l1 p l2 rest i h e,
        let toks := pre ++ [mkToken STRING "SetProjectName" ln; LPAREN l1; p;
                            RPAREN l2] ++ rest in
        handle_command (W toks (List.length pre) i h e) =
        (Ok tt,
         W toks (List.length pre + 4 + line_span rest)
           (set_projectName (lexeme p) i) h e)
        /\ projectName
             (compileInfo (snd (handle_command (W toks (List.length pre) i h e))))
           = lexeme p)
  /\ (exists w,
        scan_and_parse ("SetProjectName(,)" ++ NL)%string =
        Ok (Ok (set_projectName "," CompileInfo_init), w)
        /\ scan_and_parse ("SetProjectName(,)" ++ NL)%string =
           Ok (Ok (mkCompileInfo "," "gcc" "c99" "64" "executable" "release"
                     [] [] [] [] [] [] [] []), w)
        /\ projectName (compileInfo w) = ","
        /\ nth_error (tokens (tokenList w)) 2 = Some (mkToken COMMA "," 1)
        /\ hadError w = false /\ stderr w = []).
Proof.
  split; [|split].
  - intros. apply get_simple_command_param_W.
  - intros pre ln l1 p l2 rest i h e toks.
    assert (H : handle_command (W toks (List.length pre) i h e) =
                (Ok tt,
                 W toks (List.length pre + 4 + line_span rest)
                   (set_projectName (lexeme p) i) h e))
      by exact (handle_simple_W SetProjectName pre ln l1 p l2 rest i h e).
    split; [exact H|]. rewrite H. reflexivity.
  - eexists. split; [vm_compute; reflexivity|]. repeat split.
Qed.

(** * The parser always terminates *)

(** [proceeds k m]: [m] does not run out of fuel; when it returns, the
    tokens are the same and the cursor has moved forward by [k] at least;
    when it raises, the exception is not [AttributeError]. *)
Definition proceeds_at {A : Type} (k : nat) (m : M A) (w : World) : Prop :=
  match m w with
  | (Ok _, w') =>
      tokens (tokenList w') = tokens (tokenList w)
      /\ current (tokenList w) + k <= current (tokenList w')
  | (Raise x, _) => x <> AttributeError
  | (OutOfFuel, _) => False
  end.

Definition proceeds {A : Type} (k : nat) (m : M A) : Prop :=
  forall w, proceeds_at k m w.

Lemma proceeds_bind {A B : Type} (k1 k2 : nat) (m : M A) (f : A -> M B) :
  proceeds k1 m -> (forall a, proceeds k2 (f a)) ->
  proceeds (k1 + k2) (bind m f).
Proof.
  intros Hm Hf w. unfold proceeds_at, bind. specialize (Hm w).
  unfold proceeds_at in Hm.
  destruct (m w) as [[a|x|] w']; auto.
  specialize (Hf a w'). unfold proceeds_at in Hf.
  destruct (f a w') as [[b|y|] w'']; auto.
  destruct Hm as [Hm1 Hm2], Hf as [Hf1 Hf2]. split; [congruence|lia].
Qed.

Lemma proceeds_ret {A : Type} (a : A) : proceeds 0 (ret a).
Proof. intros w. unfold proceeds_at, ret. split; [reflexivity|lia]. Qed.

Lemma proceeds_advance : proceeds 1 advance.
Proof.
  intros [[toks c] i h e]. unfold proceeds_at. rewrite advance_W. simpl.
  split; [reflexivity|lia].
Qed.

Lemma proceeds_skip_line : proceeds 1 skip_line.
Proof.
  intros [[toks c] i h e]. unfold proceeds_at. rewrite skip_line_W. simpl.
  pose proof (line_span_pos (skipn c toks)). split; [reflexivity|lia].
Qed.

Lemma proceeds_peek : proceeds 0 peek.
Proof.
  intros w. unfold proceeds_at, peek.
  destruct (nth_error _ _); [split; [reflexivity|lia]|discriminate].
Qed.

Lemma proceeds_print_error d : proceeds 0 (print_error d).
Proof. intros w. unfold proceeds_at. simpl. split; [reflexivity|lia]. Qed.

Lemma proceeds_update f : proceeds 0 (update_compileInfo f).
Proof. intros w. unfold proceeds_at. simpl. split; [reflexivity|lia]. Qed.

Lemma proceeds_get_hadError : proceeds 0 get_hadError.
Proof. intros w. unfold proceeds_at. simpl. split; [reflexivity|lia]. Qed.

Lemma proceeds_TypeError {A : Type} (k : nat) : proceeds k (@raise A TypeError).
Proof. intros w. unfold proceeds_at. simpl. discriminate. Qed.

Lemma proceeds_if {A : Type} (k : nat) (b : bool) (m1 m2 : M A) :
  proceeds k m1 -> proceeds k m2 -> proceeds k (if b then m1 else m2).
Proof. now destruct b. Qed.

Lemma proceeds_less {A : Type} (k : nat) (m : M A) :
  proceeds k m -> proceeds 0 m.
Proof.
  intros H w. specialize (H w). unfold proceeds_at in *.
  destruct (m w) as [[a|x|] w']; auto.
  destruct H; split; [assumption|lia].
Qed.

Lemma proceeds_advance_0 : proceeds 0 advance.
Proof. exact (proceeds_less 1 _ proceeds_advance). Qed.

Lemma proceeds_skip_line_0 : proceeds 0 skip_line.
Proof. exact (proceeds_less 1 _ proceeds_skip_line). Qed.

Create HintDb proceeds.
#[local] Hint Resolve proceeds_ret proceeds_advance proceeds_skip_line proceeds_peek
  proceeds_advance_0 proceeds_skip_line_0
  proceeds_print_error proceeds_update proceeds_get_hadError
  proceeds_TypeError : proceeds.

Ltac proceeds :=
  repeat
    match goal with
    | |- proceeds 0 (bind _ _) => apply (proceeds_bind 0 0); [|intros ?]
    | |- proceeds _ (if _ then _ else _) => apply proceeds_if
    | |- proceeds _ (match ?x with _ => _ end) => destruct x
    | |- proceeds _ _ => solve [auto with proceeds]
    end.

(** With more fuel than there are tokens left, the parameter list is read
    to its end or [peek] raises. *)
Lemma proceeds_consume_param fuel : forall result w,
  List.length (tokens (tokenList w)) - current (tokenList w) < fuel ->
  proceeds_at 0 (consume_param fuel result) w
  /\ proceeds_at 0 (consume_comma fuel result) w.
Proof.
  induction fuel as [|fuel IH]; intros result [[toks c] i h e] Hf;
    simpl tokenList in Hf; simpl tokens in Hf; simpl current in Hf; [lia|].
  assert (Hone : forall k (next : list Token -> M (list Token)) (r' : list Token),
            (forall w, List.length (tokens (tokenList w)) - current (tokenList w) < fuel ->
                       proceeds_at 0 (next r') w) ->
            proceeds_at 0
              (bind peek (fun t => if is_type k t
                                   then bind advance (fun _ => next r')
                                   else ret result))
              (W toks c i h e)).
  { intros k next r' Hnext. unfold proceeds_at, bind, peek. simpl.
    destruct (nth_error toks c) as [t|] eqn:Ht; [|discriminate].
    destruct (is_type k t); [|split; [reflexivity|simpl; lia]].
    rewrite advance_W.
    assert (Hlt : c < List.length toks) by (apply nth_error_Some; congruence).
    assert (Hfuel : List.length toks - S c < fuel) by lia.
    specialize (Hnext (W toks (S c) i h e) Hfuel). unfold proceeds_at in Hnext.
    destruct (next r' (W toks (S c) i h e)) as [[a|x|] w']; auto.
    simpl in Hnext. destruct Hnext as [H1 H2]. split; [exact H1|lia]. }
  split.
  - simpl consume_param.
    destruct (nth_error toks c) as [t|] eqn:Ht.
    + unfold proceeds_at, bind. rewrite (peek_W _ _ _ _ _ _ Ht).
      pose proof (Hone STRING (consume_comma fuel) (result ++ [t])
                    (fun w Hw => proj2 (IH _ w Hw))) as H.
      unfold proceeds_at, bind in H. rewrite (peek_W _ _ _ _ _ _ Ht) in H.
      exact H.
    + unfold proceeds_at, bind. rewrite (peek_end _ _ _ _ _ Ht). discriminate.
  - simpl consume_comma.
    exact (Hone COMMA (consume_param fuel) result
             (fun w Hw => proj1 (IH _ w Hw))).
Qed.

Lemma proceeds_get_complex_command_params command :
  proceeds 1 (get_complex_command_params command).
Proof.
  unfold get_complex_command_params.
  apply (proceeds_bind 1 0); [apply proceeds_advance|intros lparen].
  apply proceeds_if; [proceeds|].
  apply (proceeds_bind 0 0);
    [intros w; apply proceeds_consume_param; lia|intros params; proceeds].
Qed.

Lemma proceeds_complex_command command : proceeds 1 (complex_command command).
Proof.
  unfold complex_command.
  apply (proceeds_bind 1 0); [apply proceeds_get_complex_command_params|].
  intros params. proceeds.
  all: apply (proceeds_bind 0 0); [auto with proceeds|intros ?]; proceeds.
Qed.

Lemma proceeds_get_simple_command_param command :
  proceeds 1 (get_simple_command_param command).
Proof.
  unfold get_simple_command_param.
  apply (proceeds_bind 1 0); [apply proceeds_advance|intros lparen].
  proceeds.
Qed.

Lemma proceeds_simple_command command : proceeds 1 (simple_command command).
Proof.
  unfold simple_command.
  apply (proceeds_bind 1 0); [apply proceeds_get_simple_command_param|].
  intros param. proceeds.
Qed.

Lemma proceeds_assign_checked legal set m param :
  proceeds 0 (assign_checked legal set m param).
Proof. unfold assign_checked. proceeds. Qed.

Lemma proceeds_append_all extend params : proceeds 0 (append_all extend params).
Proof. unfold append_all. proceeds. Qed.

#[local] Hint Resolve proceeds_assign_checked proceeds_append_all : proceeds.

(** [handle_command] is called with the cursor on a token: the command
    name is there, and the cursor moves. *)
Lemma proceeds_handle_command toks c t i h e :
  nth_error toks c = Some t ->
  proceeds_at 1 handle_command (W toks c i h e).
Proof.
  intros Ht.
  unfold proceeds_at, handle_command, bind at 1. rewrite advance_W, Ht.
  assert (Hs : forall (k : option Token -> M unit),
             (forall p, proceeds 0 (k p)) ->
             proceeds_at 1 (bind (simple_command t) k) (W toks (S c) i h e)).
  { intros k Hk. exact (proceeds_bind 1 0 _ _ (proceeds_simple_command t) Hk _). }
  assert (Hc : forall (k : option (list Token) -> M unit),
             (forall p, proceeds 0 (k p)) ->
             proceeds_at 1 (bind (complex_command t) k) (W toks (S c) i h e)).
  { intros k Hk. exact (proceeds_bind 1 0 _ _ (proceeds_complex_command t) Hk _). }
  assert (Hup : forall m : M unit,
             proceeds_at 1 m (W toks (S c) i h e) ->
             match m (W toks (S c) i h e) with
             | (Ok _, w') => tokens (tokenList w') = toks /\ c + 1 <= current (tokenList w')
             | (Raise x, _) => x <> AttributeError
             | (OutOfFuel, _) => False
             end).
  { intros m H. unfold proceeds_at in H.
    destruct (m (W toks (S c) i h e)) as [[u|x|] w']; auto.
    simpl in H. destruct H; split; [assumption|lia]. }
  cbv zeta.
  repeat match goal with
         | |- context [if ?b then _ else _] => destruct b
         end;
    try (apply Hup; first [apply Hs | apply Hc]; intros p; proceeds).
  simpl. discriminate.
Qed.

Lemma parse_loop_terminates fuel : forall w,
  List.length (tokens (tokenList w)) - current (tokenList w) < fuel ->
  match parse_loop fuel w with
  | (Ok _, _) => True
  | (Raise x, _) => x <> AttributeError
  | (OutOfFuel, _) => False
  end.
Proof.
  induction fuel as [|fuel IH]; intros [[toks c] i h e] Hf;
    simpl tokenList in Hf; simpl tokens in Hf; simpl current in Hf; [lia|].
  destruct (nth_error toks c) as [t|] eqn:Ht.
  - assert (Hlt : c < List.length toks) by (apply nth_error_Some; congruence).
    destruct (is_type STRING t) eqn:Hs.
    + pose proof (proceeds_handle_command toks c t i h e Ht) as Hh.
      unfold proceeds_at in Hh.
      destruct (handle_command (W toks c i h e)) as [[[]|x|] w'] eqn:Hrun.
      * rewrite (parse_loop_command _ _ _ _ _ _ _ _ Ht Hs Hrun).
        apply IH. simpl in Hh. destruct Hh as [-> Hh]. lia.
      * simpl. unfold bind, is_at_end. simpl.
        rewrite (proj2 (Nat.leb_gt _ _) Hlt).
        unfold peek. simpl. rewrite Ht, Hs, Hrun. exact Hh.
      * destruct Hh.
    + rewrite (parse_loop_no_command _ _ _ _ _ _ _ Ht Hs).
      apply IH. simpl. pose proof (line_span_pos (skipn c toks)). lia.
  - rewrite parse_loop_end by now apply nth_error_None.
    exact I.
Qed.

(** On every token list [parse_tokens] terminates: it returns a
    configuration or raises [IndexError] or [TypeError]. *)
Lemma parse_terminates toks :
  (exists i, fst (parse toks) = Ok i)
  \/ fst (parse toks) = Raise IndexError
  \/ fst (parse toks) = Raise TypeError.
Proof.
  rewrite parse_unfold.
  assert (Hf : List.length (tokens (tokenList (start toks)))
               - current (tokenList (start toks)) < S (List.length toks))
    by (simpl; lia).
  pose proof (parse_loop_terminates (S (List.length toks)) (start toks) Hf) as H.
  destruct (parse_loop (S (List.length toks)) (start toks)) as [[u|x|] w]; simpl.
  - left. eauto.
  - right. destruct x; auto. congruence.
  - destruct H.
Qed.

(** * Where the parser stops with an exception *)

Definition command_table : list string :=
  ["SetProjectName"; "SetCompiler"; "SetLanguageVersion"; "SetTargetArch";
   "SetOutputType"; "SetBuildType"; "AddFile"; "AddSourcePath"; "AddConstant";
   "AddIncludePath"; "AddLibrary"; "AddObjectFile"; "AddCompilerFlag";
   "AddLinkerFlag"].

(** A command name outside the table: the diagnostic is printed and the
    call [tokenList.skip_line(command)] raises, with the cursor just after
    the name. *)
Lemma handle_unknown_W toks c t i h e :
  nth_error toks c = Some t ->
  str_in (lexeme t) command_table = false ->
  handle_command (W toks c i h e) =
  (Raise TypeError, W toks (S c) i true (e ++ [diag t Unkown_command])).
Proof.
  intros Ht Hn. unfold handle_command, bind. rewrite advance_W, Ht.
  cbv beta iota zeta.
  unfold str_in, command_table in Hn. simpl existsb in Hn.
  repeat match goal with
         | H : (_ || _)%bool = false |- _ =>
             apply orb_false_elim in H;
             let E := fresh "E" in
             destruct H as [E H]; rewrite E; cbv iota
         end.
  reflexivity.
Qed.

(** [consume_param] with the cursor at the end of the tokens: [peek]
    raises. *)
Lemma consume_param_at_end toks c i h e fuel result :
  List.length toks <= c ->
  consume_param (S fuel) result (W toks c i h e) =
  (Raise IndexError, W toks c i h e)
  /\ consume_comma (S fuel) result (W toks c i h e) =
     (Raise IndexError, W toks c i h e).
Proof.
  intros Hc. apply nth_error_None in Hc.
  split; simpl; unfold bind; now rewrite peek_end.
Qed.

(** C1. On the file [Foo(bar)] the tokens are scanned, the error flag is
    set and the diagnostic of an unknown command is reported for [Foo] on
    line 1, the configuration is the default one; but parsing does not
    complete: the call that should skip the line raises [TypeError], with
    the cursor after [Foo] and the four other tokens of the line unread. *)
Theorem unknown_command_raises :
  exists w,
    scan_and_parse ("Foo(bar)" ++ NL)%string = Ok (Raise TypeError, w)
    /\ hadError w = true
    /\ stderr w = [mkDiagnostic 1 "Foo" Unkown_command]
    /\ compileInfo w = CompileInfo_init
    /\ List.length (tokens (tokenList w)) = 5
    /\ current (tokenList w) = 1.
Proof.
  eexists. split; [vm_compute; reflexivity|]. repeat split.
Qed.

(** A complex command cut off after its opening parenthesis, at the end
    of the tokens. *)
Lemma handle_complex_cut_off a pre ln l1 i h e :
  let toks := pre ++ [STR ln (complex_name a); LPAREN l1] in
  handle_command (W toks (List.length pre) i h e) =
  (Raise IndexError, W toks (List.length pre + 2) i h e).
Proof.
  intros toks0. remember toks0 as toks eqn:Etoks. unfold toks0 in Etoks.
  clear toks0.
  assert (Hname : nth_error toks (List.length pre)
                  = Some (STR ln (complex_name a)))
    by (subst toks; now rewrite nth_error_here).
  assert (Hparen : nth_error toks (S (List.length pre)) = Some (LPAREN l1))
    by (subst toks; now rewrite <- Nat.add_1_r, nth_error_past).
  assert (Hend : List.length toks <= S (S (List.length pre)))
    by (subst toks; rewrite length_app; simpl; lia).
  assert (Hrun : forall command,
            complex_command command (W toks (S (List.length pre)) i h e) =
            (Raise IndexError, W toks (List.length pre + 2) i h e)).
  { intros command. unfold complex_command, get_complex_command_params, bind.
    rewrite advance_W, Hparen.
    change (negb (is_some_type LEFT_PAREN (Some (LPAREN l1)))) with false.
    cbv beta iota. simpl tokenList. simpl tokens. simpl current.
    rewrite (proj1 (consume_param_at_end toks _ i h e _ [] Hend)).
    do 3 f_equal. lia. }
  unfold handle_command, bind. rewrite advance_W, Hname.
  cbv beta iota.
  destruct a; simpl; rewrite Hrun; reflexivity.
Qed.

(** C2. Parsing always terminates, but not always normally.  On every
    token list [parse_tokens] returns a configuration or raises
    [IndexError] or [TypeError].  When the tokens end right after the
    opening parenthesis of a complex command, [consume_param] reads past
    the last token and [peek] raises [IndexError]; so it is for the files
    [AddFile(], and [AddFile(a] and [AddFile(a,] where [consume_comma] and
    [consume_param] do the same after a parameter.  An unknown command
    raises [TypeError]. *)
Theorem parse_can_raise :
  (forall toks,
     (exists i, fst (parse toks) = Ok i)
     \/ fst (parse toks) = Raise IndexError
     \/ fst (parse toks) = Raise TypeError)
  /\ (forall a pre ln l1 i h e,
        let toks := pre ++ [STR ln (complex_name a); LPAREN l1] in
        handle_command (W toks (List.length pre) i h e) =
        (Raise IndexError, W toks (List.length pre + 2) i h e))
  /\ (exists w, scan_and_parse "AddFile(" = Ok (Raise IndexError, w)
                /\ List.length (tokens (tokenList w)) = 2
                /\ current (tokenList w) = 2)
  /\ (exists w, scan_and_parse "AddFile(a" = Ok (Raise IndexError, w)
                /\ List.length (tokens (tokenList w)) = 3
                /\ current (tokenList w) = 3)
  /\ (exists w, scan_and_parse "AddFile(a," = Ok (Raise IndexError, w)
                /\ List.length (tokens (tokenList w)) = 4
                /\ current (tokenList w) = 4)
  /\ (exists w, scan_and_parse ("Foo(bar)" ++ NL)%string = Ok (Raise TypeError, w)).
Proof.
  split; [exact parse_terminates|].
  split; [exact handle_complex_cut_off|].
  repeat split; eexists; try (split; [vm_compute; reflexivity|]);
    try (repeat split); vm_compute; reflexivity.
Qed.

(** A complex command with nothing between its parentheses: whether the
    lack of parameters is reported depends on the error flag left by the
    lines before. *)
Lemma handle_complex_empty a pre ln l1 l2 rest i h e :
  let toks := pre ++ [STR ln (complex_name a); LPAREN l1; RPAREN l2] ++ rest in
  handle_command (W toks (List.length pre) i h e) =
  (Ok tt,
   W toks (List.length pre + 2 + line_span (RPAREN l2 :: rest)) i true
     (if h then e
      else e ++ [mkDiagnostic ln (complex_name a)
                   Expected_parameters_after_command])).
Proof.
  intros toks0. remember toks0 as toks eqn:Etoks. unfold toks0 in Etoks.
  clear toks0.
  assert (Hname : nth_error toks (List.length pre)
                  = Some (STR ln (complex_name a)))
    by (subst toks; now rewrite nth_error_here).
  assert (Hparen : nth_error toks (S (List.length pre)) = Some (LPAREN l1))
    by (subst toks; now rewrite <- Nat.add_1_r, nth_error_past).
  assert (Hclose : nth_error toks (S (S (List.length pre))) = Some (RPAREN l2)).
  { subst toks.
    replace (S (S (List.length pre))) with (List.length pre + 2) by lia.
    now rewrite nth_error_past. }
  assert (Hrest : skipn (S (S (List.length pre))) toks = RPAREN l2 :: rest).
  { subst toks.
    replace (S (S (List.length pre))) with (List.length pre + 2) by lia.
    now rewrite skipn_past. }
  assert (Hrun : forall command,
            complex_command command (W toks (S (List.length pre)) i h e) =
            (Ok None,
             W toks (List.length pre + 2 + line_span (RPAREN l2 :: rest)) i true
               (if h then e
                else e ++ [diag command Expected_parameters_after_command]))).
  { intros command. unfold complex_command, get_complex_command_params, bind.
    rewrite advance_W, Hparen.
    change (negb (is_some_type LEFT_PAREN (Some (LPAREN l1)))) with false.
    cbv beta iota. simpl tokenList. simpl tokens. simpl current.
    simpl consume_param. unfold bind.
    rewrite (peek_W _ _ _ _ _ _ Hclose).
    change (is_type STRING (RPAREN l2)) with false. cbv beta iota.
    unfold ret at 1. change (List.length (@nil Token) =? 0) with true.
    cbv beta iota. unfold ret at 1. unfold get_hadError. cbv beta iota.
    destruct h;
      cbv beta iota delta [hadError print_error tokenList compileInfo stderr];
      rewrite skip_line_W, Hrest; unfold ret;
      do 3 f_equal; lia. }
  unfold handle_command, bind. rewrite advance_W, Hname.
  cbv beta iota.
  destruct a; simpl; rewrite Hrun; destruct h; reflexivity.
Qed.

(** C3. A run does not surface every error of a file.
    - A complex command without parameters is reported only if no error
      came before it in the run: the test [hadError == True] in
      [complex_command] takes the flag left by an earlier line for an error
      already reported on this one.  So [AddFile()] alone is reported as
      lacking parameters, and after the line [SetCompiler(msvc)] it gets no
      diagnostic.
    - When the token in place of a parenthesis is the end of the line, the
      recovery discards the following line: [SetBuildType(debug)] after
      the line [SetCompiler] is never applied, and the invalid value on the
      line after [SetCompiler(gcc] is never reported.
    - An unknown command stops the run: the invalid value on the second
      line is never reported. *)
Theorem errors_not_all_surfaced :
  (forall a pre ln l1 l2 rest i e,
     let toks := pre ++ [STR ln (complex_name a); LPAREN l1; RPAREN l2] ++ rest in
     let c' := List.length pre + 2 + line_span (RPAREN l2 :: rest) in
     handle_command (W toks (List.length pre) i false e) =
     (Ok tt, W toks c' i true
               (e ++ [mkDiagnostic ln (complex_name a)
                        Expected_parameters_after_command]))
     /\ handle_command (W toks (List.length pre) i true e) =
        (Ok tt, W toks c' i true e))
  /\ (exists w, scan_and_parse ("AddFile()" ++ NL)%string = Ok (Ok CompileInfo_init, w)
                /\ stderr w = [mkDiagnostic 1 "AddFile" Expected_parameters_after_command])
  /\ (exists w,
        scan_and_parse ("SetCompiler(msvc)" ++ NL ++ "AddFile()" ++ NL)%string =
        Ok (Ok CompileInfo_init, w)
        /\ stderr w = [mkDiagnostic 1 "msvc" Invalid_compiler])
  /\ (exists w,
        scan_and_parse ("SetCompiler" ++ NL ++ "SetBuildType(debug)" ++ NL)%string =
        Ok (Ok CompileInfo_init, w)
        /\ stderr w = [mkDiagnostic 1 "SetCompiler" Expected_lparen_after_command])
  /\ (exists w,
        scan_and_parse ("SetCompiler(gcc" ++ NL ++ "SetBuildType(fast)" ++ NL)%string =
        Ok (Ok CompileInfo_init, w)
        /\ stderr w = [mkDiagnostic 1 "SetCompiler" Expected_rparen_after_parameter])
  /\ (exists w,
        scan_and_parse ("Foo(bar)" ++ NL ++ "SetCompiler(msvc)" ++ NL)%string =
        Ok (Raise TypeError, w)
        /\ stderr w = [mkDiagnostic 1 "Foo" Unkown_command]).
Proof.
  split.
  { intros a pre ln l1 l2 rest i e toks c'. split.
    - exact (handle_complex_empty a pre ln l1 l2 rest i false e).
    - exact (handle_complex_empty a pre ln l1 l2 rest i true e). }
  repeat split; eexists; (split; [vm_compute; reflexivity|reflexivity]).
Qed.

(** * Facts about the scanner *)

Lemma scan_loop_step fuel line index tokenStart tokenEnd tokens c :
  nth_error line tokenStart = Some c ->
  scan_loop (S fuel) line index tokenStart tokenEnd tokens =
  scan_loop fuel line index
    (snd (scan_step line index c tokenStart tokenEnd))
    (snd (scan_step line index c tokenStart tokenEnd) + 1)
    (add_opt tokens (fst (scan_step line index c tokenStart tokenEnd))).
Proof.
  intros Hc. simpl.
  assert (Hlt : tokenStart < List.length line)
    by (apply nth_error_Some; congruence).
  rewrite (proj2 (Nat.ltb_lt _ _) Hlt), Hc.
  now destruct (scan_step line index c tokenStart tokenEnd).
Qed.

Lemma scan_loop_stop fuel line index tokenStart tokenEnd tokens :
  List.length line <= tokenStart ->
  scan_loop (S fuel) line index tokenStart tokenEnd tokens = Ok tokens.
Proof.
  intros Hge. simpl. now rewrite (proj2 (Nat.ltb_ge _ _) Hge).
Qed.

Lemma run_end_ge line tokenEnd : tokenEnd <= run_end line tokenEnd.
Proof. unfold run_end. lia. Qed.

Lemma scan_step_ge line index c tokenStart tokenEnd :
  tokenEnd <= snd (scan_step line index c tokenStart tokenEnd).
Proof.
  unfold scan_step.
  repeat match goal with
         | |- context [if ?b then _ else _] => destruct b
         end; simpl; auto using run_end_ge.
Qed.

(** The loop of a line returns: once [tokenEnd] is ahead of [tokenStart],
    every iteration moves [tokenStart] forward; the first iteration may
    leave it at 0. *)
Lemma scan_loop_returns line index fuel : forall tokenStart tokenEnd tokens,
  tokenStart < tokenEnd ->
  1 <= fuel ->
  List.length line + 1 <= fuel + tokenStart ->
  exists more,
    scan_loop fuel line index tokenStart tokenEnd tokens = Ok (tokens ++ more).
Proof.
  induction fuel as [|fuel IH]; intros ts te acc Hlt Hpos Hf.
  - lia.
  - destruct (nth_error line ts) as [c|] eqn:Hc.
    + rewrite (scan_loop_step _ _ _ _ _ _ _ Hc).
      pose proof (scan_step_ge line index c ts te) as Hge.
      assert (ts < List.length line) by (apply nth_error_Some; congruence).
      destruct (IH (snd (scan_step line index c ts te))
                   (snd (scan_step line index c ts te) + 1)
                   (add_opt acc (fst (scan_step line index c ts te))))
        as [more Hmore]; try lia.
      rewrite Hmore.
      destruct (fst (scan_step line index c ts te)) as [t|]; simpl.
      * exists (t :: more). unfold add. rewrite <- app_assoc.
        now destruct t.
      * now exists more.
    + exists []. rewrite app_nil_r. apply scan_loop_stop.
      now apply nth_error_None.
Qed.

Lemma scan_line_returns index line tokens :
  line <> [] ->
  exists more, scan_line index line tokens = Ok (tokens ++ more).
Proof.
  intros Hne. destruct line as [|c rest]; [congruence|].
  unfold scan_line. destruct (Ascii.eqb c newline).
  - exists []. now rewrite app_nil_r.
  - replace (List.length (c :: rest) + 2) with (S (S (List.length rest + 1)))
      by (simpl; lia).
    rewrite (scan_loop_step _ (c :: rest) _ 0 0 _ c eq_refl).
    pose proof (scan_step_ge (c :: rest) index c 0 0) as Hge.
    destruct (scan_loop_returns (c :: rest) index (S (List.length rest + 1))
                (snd (scan_step (c :: rest) index c 0 0))
                (snd (scan_step (c :: rest) index c 0 0) + 1)
                (add_opt tokens (fst (scan_step (c :: rest) index c 0 0))))
      as [more Hmore]; try (simpl; lia).
    rewrite Hmore.
    destruct (fst (scan_step (c :: rest) index c 0 0)) as [t|]; simpl.
    + exists (t :: more). unfold add. rewrite <- app_assoc. now destruct t.
    + now exists more.
Qed.

Lemma file_lines_nonempty text : forall cur,
  Forall (fun l => l <> []) (file_lines text cur).
Proof.
  induction text as [|c text IH]; intros cur; simpl.
  - destruct cur; constructor; [congruence|constructor].
  - destruct (Ascii.eqb c newline).
    + constructor; [|apply IH]. now destruct cur.
    + apply IH.
Qed.

Lemma scan_lines_returns lines : forall index tokens,
  Forall (fun l => l <> []) lines ->
  exists more, scan_lines index lines tokens = Ok (tokens ++ more).
Proof.
  induction lines as [|l lines IH]; intros index tokens Hne; simpl.
  - exists []. now rewrite app_nil_r.
  - inversion Hne as [|? ? Hl Hrest]; subst.
    destruct (scan_line_returns index l tokens Hl) as [m1 H1]. rewrite H1.
    destruct (IH (S index) (tokens ++ m1) Hrest) as [m2 H2]. rewrite H2.
    exists (m1 ++ m2). now rewrite app_assoc.
Qed.

(** Scanning never fails and never runs out of fuel. *)
Lemma scan_file_returns text : exists toks, scan_file text = Ok toks.
Proof.
  unfold scan_file.
  destruct (scan_lines_returns (file_lines (list_ascii_of_string text) []) 0 []
              (file_lines_nonempty _ _)) as [more H].
  exists more. exact H.
Qed.

Definition continue_with (tokens : list Token) (r : outcome (list Token))
    : outcome (list Token) :=
  match r with
  | Ok more => Ok (tokens ++ more)
  | Raise x => Raise x
  | OutOfFuel => OutOfFuel
  end.

(** The tokens already in the list play no part in the scan of a line. *)
Lemma scan_loop_app line index fuel : forall tokenStart tokenEnd tokens,
  scan_loop fuel line index tokenStart tokenEnd tokens =
  continue_with tokens (scan_loop fuel line index tokenStart tokenEnd []).
Proof.
  induction fuel as [|fuel IH]; intros ts te acc; simpl; auto.
  destruct (ts <? List.length line); simpl; [|now rewrite app_nil_r].
  destruct (nth_error line ts) as [c|]; simpl; auto.
  destruct (scan_step line index c ts te) as [t te'].
  rewrite IH. rewrite (IH _ _ (add_opt [] t)).
  destruct (scan_loop fuel line index te' (te' + 1) []) as [m|x|]; simpl; auto.
  destruct t as [t|]; simpl; auto.
  unfold add. now rewrite <- app_assoc.
Qed.

(** * The first character of a line is scanned twice *)

Definition punctuation_type (c : ascii) : TokenType :=
  if Ascii.eqb c "("%char then LEFT_PAREN
  else if Ascii.eqb c ")"%char then RIGHT_PAREN
  else COMMA.

(** C10. For every line whose first character [c] is a parenthesis or a
    comma: the first iteration adds the token of [c] and leaves [tokenEnd]
    at 0, so [tokenStart] stays 0; the second iteration, with the cursors
    at 0 and 1, reads [c] again and adds the same token; the tokens of the
    line are these two identical tokens followed by those scanned from
    position 1 on. *)
Theorem first_punctuation_scanned_twice (index : nat) (c : ascii)
    (rest : list ascii) (tokens : list Token) :
  In c ["("; ")"; ","]%char ->
  let t := mkToken (punctuation_type c) (String c EmptyString) (index + 1) in
  scan_step (c :: rest) index c 0 0 = (Some t, 0)
  /\ scan_step (c :: rest) index c 0 1 = (Some t, 1)
  /\ exists more,
       scan_loop (List.length rest + 1) (c :: rest) index 1 2 [] = Ok more
       /\ scan_line index (c :: rest) tokens = Ok (tokens ++ t :: t :: more).
Proof.
  intros Hc t.
  assert (Hstep : forall te, scan_step (c :: rest) index c 0 te = (Some t, te)
                             /\ Ascii.eqb c newline = false).
  { intros te. simpl in Hc.
    destruct Hc as [<-|[<-|[<-|[]]]]; split; reflexivity. }
  split; [apply Hstep|]. split; [apply Hstep|].
  destruct (scan_loop_returns (c :: rest) index (List.length rest + 1) 1 2 [])
    as [more Hmore]; try (simpl; lia).
  exists more. split; [exact Hmore|].
  unfold scan_line. rewrite (proj2 (Hstep 0)).
  replace (List.length (c :: rest) + 2) with (S (S (List.length rest + 1)))
    by (simpl; lia).
  rewrite (scan_loop_step _ (c :: rest) _ 0 0 _ c eq_refl).
  rewrite (proj1 (Hstep 0)). simpl fst. simpl snd. change (0 + 1) with 1.
  rewrite (scan_loop_step _ (c :: rest) _ 0 1 _ c eq_refl).
  rewrite (proj1 (Hstep 1)). simpl fst. simpl snd. change (1 + 1) with 2.
  rewrite scan_loop_app, Hmore. simpl. unfold add.
  now rewrite <- !app_assoc.
Qed.

Lemma first_punctuation_scanned_twice_witness :
  In "("%char ["("; ")"; ","]%char /\
  scan_step (list_ascii_of_string "(x") 0 "("%char 0 0 =
  (Some (mkToken LEFT_PAREN "(" 1), 0).
Proof.
  split; [left; reflexivity|].
  exact (proj1 (first_punctuation_scanned_twice 0 "("%char ["x"%char] []
                  (or_introl eq_refl))).
Defined.

(** * STRING tokens *)

Definition whitespace (c : ascii) : bool := char_in c [" "%char; tab; nul].
Definition delimiter (c : ascii) : bool :=
  char_in c ["("; ")"; ","; newline]%char.

(** The values of [tokenStart] and [tokenEnd] at the head of the loop, in
    the scan of [line]. *)
Inductive scan_state (line : list ascii) (index : nat) : nat -> nat -> Prop :=
| scan_state_first : scan_state line index 0 0
| scan_state_next tokenStart tokenEnd c :
    scan_state line index tokenStart tokenEnd ->
    nth_error line tokenStart = Some c ->
    scan_state line index
      (snd (scan_step line index c tokenStart tokenEnd))
      (snd (scan_step line index c tokenStart tokenEnd) + 1).

Lemma scan_state_cursors line index tokenStart tokenEnd :
  scan_state line index tokenStart tokenEnd ->
  (tokenStart = 0 /\ tokenEnd = 0) \/ tokenEnd = tokenStart + 1.
Proof. intros H. destruct H; auto. Qed.

Lemma valid_run_le r : valid_run r <= List.length r.
Proof.
  induction r as [|c r IH]; simpl; auto.
  destruct (is_valid_character c); simpl; lia.
Qed.

Lemma valid_run_firstn r :
  forallb is_valid_character (firstn (valid_run r) r) = true.
Proof.
  induction r as [|c r IH]; simpl; auto.
  destruct (is_valid_character c) eqn:Hc; simpl; auto.
  now rewrite Hc.
Qed.

Lemma valid_run_stop r :
  match nth_error r (valid_run r) with
  | Some d => is_valid_character d = false
  | None => True
  end.
Proof.
  induction r as [|c r IH]; simpl; auto.
  destruct (is_valid_character c) eqn:Hc; simpl; auto.
Qed.

(** What a step that adds a STRING token looks like. *)
Lemma scan_step_STRING line index c tokenStart tokenEnd t tokenEnd' :
  scan_step line index c tokenStart tokenEnd = (Some t, tokenEnd') ->
  tokenType t = STRING ->
  delimiter c = false /\ whitespace c = false
  /\ tokenEnd' = run_end line tokenEnd
  /\ t = mkToken STRING
           (string_of_list_ascii (slice line tokenStart tokenEnd')) (index + 1).
Proof.
  unfold scan_step, delimiter, whitespace. intros H Hs.
  destruct (Ascii.eqb c "(") eqn:E1;
    [inversion H; subst; simpl in Hs; discriminate|].
  destruct (Ascii.eqb c ")") eqn:E2;
    [inversion H; subst; simpl in Hs; discriminate|].
  destruct (Ascii.eqb c ",") eqn:E3;
    [inversion H; subst; simpl in Hs; discriminate|].
  destruct (Ascii.eqb c newline) eqn:E4;
    [inversion H; subst; simpl in Hs; discriminate|].
  destruct (char_in c [" "%char; tab; nul]) eqn:E5; [discriminate|].
  inversion H; subst. split; [|auto].
  unfold char_in. simpl. now rewrite E1, E2, E3, E4.
Qed.

(** From a character of a word on, with the cursors as the loop has them,
    the run ends where the valid characters from [tokenStart] on end. *)
Lemma run_end_of_word line c tokenStart tokenEnd :
  nth_error line tokenStart = Some c ->
  is_valid_character c = true ->
  (tokenStart = 0 /\ tokenEnd = 0) \/ tokenEnd = tokenStart + 1 ->
  run_end line tokenEnd = tokenStart + valid_run (skipn tokenStart line)
  /\ 1 <= valid_run (skipn tokenStart line).
Proof.
  intros Hc Hv Hcur. unfold run_end.
  pose proof (skipn_nth_error_Some _ _ _ Hc) as Hs.
  assert (Hr : valid_run (skipn tokenStart line)
               = S (valid_run (skipn (S tokenStart) line)))
    by (rewrite Hs; simpl; now rewrite Hv).
  destruct Hcur as [ [Hts Hte] | Hte ]; subst.
  - split; lia.
  - rewrite Hr, Nat.add_1_r. split; lia.
Qed.

(** A token is emitted in the scan of [line] when some iteration of the
    loop adds it. *)
Definition emitted (line : list ascii) (index : nat) (t : Token) : Prop :=
  exists tokenStart tokenEnd c,
    scan_state line index tokenStart tokenEnd
    /\ nth_error line tokenStart = Some c
    /\ fst (scan_step line index c tokenStart tokenEnd) = Some t.

Lemma scan_loop_emitted line index fuel : forall tokenStart tokenEnd tokens toks,
  scan_state line index tokenStart tokenEnd ->
  scan_loop fuel line index tokenStart tokenEnd tokens = Ok toks ->
  forall t, In t toks -> In t tokens \/ emitted line index t.
Proof.
  induction fuel as [|fuel IH]; intros ts te acc toks Hst Hrun t Ht.
  - discriminate.
  - destruct (nth_error line ts) as [c|] eqn:Hc.
    + rewrite (scan_loop_step _ _ _ _ _ _ _ Hc) in Hrun.
      destruct (IH _ _ _ _ (scan_state_next _ _ _ _ _ Hst Hc) Hrun t Ht)
        as [Hin|Hem]; auto.
      destruct (fst (scan_step line index c ts te)) as [t0|] eqn:Hfst;
        simpl in Hin; auto.
      unfold add in Hin. apply in_app_or in Hin. destruct Hin as [Hin|Hin]; auto.
      right. exists ts, te, c. repeat split; auto.
      rewrite Hfst. destruct Hin as [<-|[]]. now destruct t0.
    + rewrite scan_loop_stop in Hrun by now apply nth_error_None.
      inversion Hrun; subst. auto.
Qed.

Lemma scan_line_emitted line index toks t :
  scan_line index line [] = Ok toks -> In t toks -> emitted line index t.
Proof.
  unfold scan_line. destruct line as [|c rest]; [discriminate|].
  destruct (Ascii.eqb c newline).
  - intros H. inversion H; subst. intros [].
  - intros Hrun Ht.
    destruct (scan_loop_emitted _ _ _ _ _ _ _ (scan_state_first _ _) Hrun t Ht)
      as [[]|Hem].
    exact Hem.
Qed.

(** C8, for the STRING tokens that begin on a valid character.  For every
    line, whatever its characters: whenever an iteration of the loop, with
    [tokenStart] at a valid character, adds a STRING token, the lexeme is
    not empty, is made of valid characters only, is the slice of the line
    from [tokenStart] to the new [tokenEnd], which is [tokenStart] plus its
    length and is where the next iteration starts, and the character
    there, if any, is not valid; and every STRING token in the tokens of
    the line is added by an iteration of the loop, with these properties
    when the character at its [tokenStart] is valid. *)
Theorem string_token_is_valid_run (line : list ascii) (index : nat) :
  (forall tokenStart tokenEnd c t tokenEnd',
     scan_state line index tokenStart tokenEnd ->
     nth_error line tokenStart = Some c ->
     scan_step line index c tokenStart tokenEnd = (Some t, tokenEnd') ->
     tokenType t = STRING ->
     is_valid_character c = true ->
     let run := list_ascii_of_string (lexeme t) in
     run <> []
     /\ forallb is_valid_character run = true
     /\ run = slice line tokenStart tokenEnd'
     /\ tokenEnd' = tokenStart + List.length run
     /\ match nth_error line tokenEnd' with
        | Some d => is_valid_character d = false
        | None => True
        end)
  /\ (forall toks t,
        scan_line index line [] = Ok toks ->
        In t toks ->
        tokenType t = STRING ->
        exists tokenStart tokenEnd c tokenEnd',
          scan_state line index tokenStart tokenEnd
          /\ nth_error line tokenStart = Some c
          /\ scan_step line index c tokenStart tokenEnd = (Some t, tokenEnd')
          /\ (is_valid_character c = true ->
              lexeme t <> ""
              /\ forallb is_valid_character
                   (list_ascii_of_string (lexeme t)) = true
              /\ list_ascii_of_string (lexeme t) = slice line tokenStart tokenEnd'
              /\ tokenEnd' = tokenStart
                              + List.length (list_ascii_of_string (lexeme t))
              /\ match nth_error line tokenEnd' with
                 | Some d => is_valid_character d = false
                 | None => True
                 end)).
Proof.
  assert (Hstep : forall tokenStart tokenEnd c t tokenEnd',
     scan_state line index tokenStart tokenEnd ->
     nth_error line tokenStart = Some c ->
     scan_step line index c tokenStart tokenEnd = (Some t, tokenEnd') ->
     tokenType t = STRING ->
     is_valid_character c = true ->
     let run := list_ascii_of_string (lexeme t) in
     run <> []
     /\ forallb is_valid_character run = true
     /\ run = slice line tokenStart tokenEnd'
     /\ tokenEnd' = tokenStart + List.length run
     /\ match nth_error line tokenEnd' with
        | Some d => is_valid_character d = false
        | None => True
        end).
  { intros ts te c t te' Hst Hc Hstep Hkind Hv run.
    destruct (scan_step_STRING _ _ _ _ _ _ _ Hstep Hkind)
      as (Hd & Hw & Hte' & Ht).
    destruct (run_end_of_word _ _ _ _ Hc Hv (scan_state_cursors _ _ _ _ Hst))
      as [Hend Hpos].
    rewrite Hend in Hte'.
    set (s := skipn ts line) in *. set (n := valid_run s) in *.
    assert (Hrun : run = firstn n s).
    { unfold run. rewrite Ht. simpl lexeme.
      rewrite list_ascii_of_string_of_list_ascii. unfold slice. fold s.
      f_equal. lia. }
    assert (Hlen : List.length run = n).
    { rewrite Hrun. apply firstn_length_le. apply valid_run_le. }
    repeat split.
    - intros Hnil. rewrite Hnil in Hlen. simpl in Hlen. lia.
    - rewrite Hrun. apply valid_run_firstn.
    - rewrite Hrun. unfold slice. fold s. f_equal. lia.
    - lia.
    - rewrite Hte'. unfold s. rewrite <- nth_error_skipn. apply valid_run_stop. }
  split; [exact Hstep|].
  intros toks t Hrun Ht Hkind.
  destruct (scan_line_emitted _ _ _ _ Hrun Ht) as (ts & te & c & Hst & Hc & Hfst).
  destruct (scan_step line index c ts te) as [o te'] eqn:Hs.
  simpl in Hfst. subst o.
  exists ts, te, c, te'. split; [exact Hst|]. split; [exact Hc|].
  split; [exact Hs|]. intros Hv.
  destruct (Hstep _ _ _ _ _ Hst Hc Hs Hkind Hv) as (Hne & Hval & Hsl & Hlen & Hnext).
  split; [intros Hempty; apply Hne; now rewrite Hempty|].
  split; [exact Hval|]. split; [exact Hsl|]. split; [exact Hlen|exact Hnext].
Qed.

Lemma string_token_is_valid_run_witness :
  is_valid_character "a"%char = true /\
  list_ascii_of_string (lexeme (mkToken STRING "ab" 1)) =
  slice (list_ascii_of_string "ab #x") 0 2.
Proof.
  split; [reflexivity|].
  exact (proj1 (proj2 (proj2
           (proj1 (string_token_is_valid_run (list_ascii_of_string "ab #x") 0)
              0 0 "a"%char (mkToken STRING "ab" 1) 2
              (scan_state_first _ _) eq_refl eq_refl eq_refl eq_refl)))).
Defined.

(** C8 as stated fails on a line with a character that is neither valid,
    punctuation nor blank: in [a#b] the STRING token scanned after [a] has
    the lexeme [#b], and [#] is not a valid character; at the head of a
    line such a character first gives a STRING token with an empty
    lexeme. *)
Lemma string_token_counterexample :
  scan_line 0 (list_ascii_of_string ("a#b" ++ NL)%string) [] =
  Ok [mkToken STRING "a" 1; mkToken STRING "#b" 1; mkToken LINE_END "\n" 1]
  /\ forallb is_valid_character
       (list_ascii_of_string (lexeme (mkToken STRING "#b" 1))) = false
  /\ scan_line 0 (list_ascii_of_string ("#a" ++ NL)%string) [] =
     Ok [mkToken STRING "" 1; mkToken STRING "#a" 1; mkToken LINE_END "\n" 1].
Proof. repeat split; reflexivity. Qed.

(** * Blank lines and lines of blanks *)

Lemma scan_step_whitespace line index c tokenStart tokenEnd :
  whitespace c = true ->
  scan_step line index c tokenStart tokenEnd = (None, tokenEnd)
  /\ Ascii.eqb c newline = false.
Proof.
  unfold whitespace, char_in. simpl. rewrite orb_false_r.
  intros H. apply orb_true_iff in H. destruct H as [H|H];
    [|apply orb_true_iff in H; destruct H as [H|H]];
    apply Ascii.eqb_eq in H; subst c; split; reflexivity.
Qed.

Lemma scan_step_newline line index tokenStart tokenEnd :
  scan_step line index newline tokenStart tokenEnd =
  (Some (mkToken LINE_END "\n" (index + 1)), tokenEnd).
Proof. reflexivity. Qed.

(** From inside a run of blanks that ends the line, the loop adds the
    LINE_END token and nothing else. *)
Lemma scan_loop_blanks index tokens suf : forall pre fuel,
  forallb whitespace suf = true ->
  List.length suf + 2 <= fuel ->
  scan_loop fuel (pre ++ suf ++ [newline]) index
    (List.length pre) (List.length pre + 1) tokens =
  Ok (tokens ++ [mkToken LINE_END "\n" (index + 1)]).
Proof.
  induction suf as [|c suf IH]; intros pre fuel Hws Hf.
  - destruct fuel as [|[|fuel]]; try (simpl in Hf; lia).
    rewrite (scan_loop_step _ _ _ _ _ _ newline)
      by now rewrite nth_error_here.
    rewrite scan_step_newline. simpl fst. simpl snd.
    apply scan_loop_stop. rewrite length_app. simpl. lia.
  - destruct fuel as [|fuel]; [simpl in Hf; lia|].
    simpl in Hws. apply andb_true_iff in Hws. destruct Hws as [Hc Hws].
    rewrite (scan_loop_step _ _ _ _ _ _ c) by now rewrite nth_error_here.
    rewrite (proj1 (scan_step_whitespace _ _ _ _ _ Hc)). simpl fst. simpl snd.
    specialize (IH (pre ++ [c]) fuel Hws).
    rewrite <- app_assoc in IH. simpl app in IH.
    rewrite length_app in IH. simpl List.length in IH.
    simpl add_opt. apply IH. simpl in Hf. lia.
Qed.

Lemma scan_line_blanks index tokens c ws :
  forallb whitespace (c :: ws) = true ->
  scan_line index ((c :: ws) ++ [newline]) tokens =
  Ok (tokens ++ [mkToken LINE_END "\n" (index + 1)]).
Proof.
  intros Hws. pose proof Hws as Hc. simpl in Hc.
  apply andb_true_iff in Hc. destruct Hc as [Hc _].
  change ((c :: ws) ++ [newline]) with (c :: (ws ++ [newline])).
  unfold scan_line.
  rewrite (proj2 (scan_step_whitespace [] 0 c 0 0 Hc)).
  replace (List.length (c :: ws ++ [newline]) + 2)
    with (S (List.length (c :: ws) + 2))
    by (simpl; rewrite length_app; simpl; lia).
  rewrite (scan_loop_step _ (c :: ws ++ [newline]) _ 0 0 _ c eq_refl).
  rewrite (proj1 (scan_step_whitespace _ _ _ _ _ Hc)). simpl fst. simpl snd.
  simpl add_opt.
  exact (scan_loop_blanks index tokens (c :: ws) [] _ Hws (le_n _)).
Qed.

Lemma parse_one_command fuel toks c t i h e i' c' :
  nth_error toks c = Some t ->
  is_type STRING t = true ->
  handle_command (W toks c i h e) = (Ok tt, W toks c' i' h e) ->
  List.length toks <= c' ->
  parse_loop (S (S fuel)) (W toks c i h e) = (Ok tt, W toks c' i' h e).
Proof.
  intros Ht Hs Hh Hend.
  rewrite (parse_loop_command _ _ _ _ _ _ _ _ Ht Hs Hh).
  now apply parse_loop_end.
Qed.

(** The tokens of the line [SetX(v)] numbered [ln]. *)
Definition simple_line (s : SimpleCommand) (ln : nat) (v : string) : list Token :=
  [STR ln (simple_name s); LPAREN ln; STR ln v; RPAREN ln; EOL ln].

Definition no_command_at (ln : nat) : Diagnostic :=
  mkDiagnostic ln "\n" Commands_must_begin_with_a_string.

(** C7, as the code has it.  A wholly blank line adds no token, so the
    scan goes on with the next line as if it were not there.  A line of
    spaces, tabs or NULs before its terminator adds one LINE_END token.
    When the main loop meets a LINE_END token where a command should start,
    it reports that commands must begin with a string, which sets the error
    flag, skips that one token and leaves the configuration as it was.  The
    commands that follow are applied as usual: a complex or an accepted
    simple command after such a token gives the configuration it gives
    alone, with the error flag set and that one diagnostic. *)
Theorem blank_lines_and_lines_of_blanks :
  (forall index tokens, scan_line index [newline] tokens = Ok tokens)
  /\ (forall index lines tokens,
        scan_lines index ([newline] :: lines) tokens =
        scan_lines (S index) lines tokens)
  /\ (forall index tokens c ws,
        forallb whitespace (c :: ws) = true ->
        scan_line index ((c :: ws) ++ [newline]) tokens =
        Ok (tokens ++ [EOL (index + 1)]))
  /\ (forall fuel toks c ln i h e,
        nth_error toks c = Some (EOL ln) ->
        parse_loop (S fuel) (W toks c i h e) =
        parse_loop fuel (W toks (S c) i true (e ++ [no_command_at ln])))
  /\ (forall ln ln' a v vs,
        let toks := EOL ln :: complex_line a ln' v vs in
        let i' := extend_field a (v :: vs) CompileInfo_init in
        parse toks = (Ok i', W toks (List.length toks) i' true [no_command_at ln]))
  /\ (forall ln ln' s v,
        accepts s v = true ->
        let toks := EOL ln :: simple_line s ln' v in
        let i' := set_field s v CompileInfo_init in
        parse toks = (Ok i', W toks (List.length toks) i' true [no_command_at ln])).
Proof.
  assert (Hskip : forall fuel toks c ln i h e,
        nth_error toks c = Some (EOL ln) ->
        parse_loop (S fuel) (W toks c i h e) =
        parse_loop fuel (W toks (S c) i true (e ++ [no_command_at ln]))).
  { intros fuel toks c ln i h e Hc.
    rewrite (parse_loop_no_command _ _ _ _ _ _ _ Hc eq_refl).
    rewrite (skipn_nth_error_Some _ _ _ Hc). simpl line_span.
    now rewrite Nat.add_1_r. }
  repeat split.
  - intros index tokens c ws Hws. now apply scan_line_blanks.
  - exact Hskip.
  - intros ln ln' a v vs toks i'.
    rewrite parse_unfold. unfold start.
    rewrite (Hskip _ toks 0 ln _ _ _ eq_refl). simpl app.
    pose proof (handle_complex_line a [EOL ln] ln' v vs []
                  CompileInfo_init true [no_command_at ln]) as Hh.
    cbv zeta in Hh. rewrite app_nil_r in Hh.
    change ([EOL ln] ++ complex_line a ln' v vs) with toks in Hh.
    change (List.length [EOL ln]) with 1 in Hh.
    assert (Hlen : List.length toks = S (List.length (complex_line a ln' v vs)))
      by reflexivity.
    rewrite Hlen at 1. rewrite complex_line_length at 1.
    replace (S (2 * List.length vs + 5)) with (S (S (2 * List.length vs + 4)))
      by lia.
    rewrite (parse_one_command _ toks 1 (STR ln' (complex_name a))
               _ _ _ _ _ eq_refl eq_refl Hh)
      by (rewrite Hlen; lia).
    simpl compileInfo. now rewrite Hlen.
  - intros ln ln' s v Hv toks i'.
    rewrite parse_unfold. unfold start.
    rewrite (Hskip _ toks 0 ln _ _ _ eq_refl). simpl app.
    pose proof (handle_simple_W s [EOL ln] ln' ln' (STR ln' v) ln' [EOL ln']
                  CompileInfo_init true [no_command_at ln]) as Hh.
    simpl lexeme in Hh. rewrite Hv in Hh. cbv zeta in Hh. simpl in Hh.
    simpl List.length.
    now rewrite (parse_one_command _ toks 1 (STR ln' (simple_name s))
                   _ _ _ _ _ eq_refl eq_refl Hh (le_n _)).
Qed.

Lemma blank_lines_and_lines_of_blanks_witness :
  forallb whitespace [" "%char; tab] = true /\
  scan_line 0 ([" "%char; tab] ++ [newline]) [] = Ok ([] ++ [EOL (0 + 1)]).
Proof.
  split; [reflexivity|].
  exact (proj1 (proj2 (proj2 blank_lines_and_lines_of_blanks))
           0 [] " "%char [tab] eq_refl).
Defined.

(** C7 as stated fails on a line of blanks: for the file made of a line
    with one space and the line [SetBuildType(debug)], the command is
    applied, but an error is recorded for the first line. *)
Lemma line_of_blanks_counterexample :
  match scan_and_parse (" " ++ NL ++ "SetBuildType(debug)" ++ NL)%string with
  | Ok (Ok i, w) =>
      i = set_buildType "debug" CompileInfo_init
      /\ hadError w = true
      /\ stderr w = [no_command_at 1]
  | _ => False
  end.
Proof. vm_compute. repeat split. Qed.

(** * Scanning the text of a simple command *)

Lemma skipn_head {A : Type} (l : list A) (n : nat) (x : A) (r : list A) :
  skipn n l = x :: r -> nth_error l n = Some x.
Proof.
  intros H. rewrite <- (Nat.add_0_r n), <- nth_error_skipn, H. reflexivity.
Qed.

Lemma skipn_next {A : Type} (l : list A) (n : nat) (x : A) (r : list A) :
  skipn n l = x :: r -> skipn (n + 1) l = r.
Proof.
  intros H. rewrite Nat.add_comm, <- skipn_skipn, H. reflexivity.
Qed.

Lemma skipn_over {A : Type} (l : list A) (n : nat) (w r : list A) :
  skipn n l = w ++ r -> skipn (n + List.length w) l = r.
Proof.
  intros H. rewrite Nat.add_comm, <- skipn_skipn, H.
  rewrite <- (Nat.add_0_r (List.length w)). now rewrite skipn_past.
Qed.

Lemma skipn_end {A : Type} (l : list A) (n : nat) :
  skipn n l = [] -> List.length l <= n.
Proof.
  intros H. pose proof (length_skipn n l) as Hl. rewrite H in Hl.
  simpl in Hl. lia.
Qed.

Lemma firstn_exact {A : Type} (w r : list A) : firstn (List.length w) (w ++ r) = w.
Proof. induction w as [|x w IH]; simpl; congruence. Qed.

(** Where a run of valid characters stops: at the end of the line or in
    front of a character that is not valid. *)
Definition stops_run (rest : list ascii) : Prop :=
  match rest with
  | [] => True
  | d :: _ => is_valid_character d = false
  end.

Lemma valid_run_app w rest :
  forallb is_valid_character w = true -> stops_run rest ->
  valid_run (w ++ rest) = List.length w.
Proof.
  intros Hw Hr. induction w as [|c w IH]; simpl in *.
  - destruct rest as [|d rest]; simpl in *; auto. now rewrite Hr.
  - apply andb_true_iff in Hw. destruct Hw as [Hc Hw]. rewrite Hc. auto.
Qed.

Lemma scan_step_word line index c tokenStart tokenEnd :
  is_valid_character c = true ->
  scan_step line index c tokenStart tokenEnd =
  (Some (mkToken STRING
           (string_of_list_ascii (slice line tokenStart (run_end line tokenEnd)))
           (index + 1)),
   run_end line tokenEnd).
Proof.
  intros Hv. unfold scan_step.
  destruct (Ascii.eqb_spec c "("); [subst; discriminate|].
  destruct (Ascii.eqb_spec c ")"); [subst; discriminate|].
  destruct (Ascii.eqb_spec c ","); [subst; discriminate|].
  destruct (Ascii.eqb_spec c newline); [subst; discriminate|].
  destruct (char_in c [" "%char; tab; nul]) eqn:Hw; [|reflexivity].
  unfold char_in in Hw. simpl in Hw. rewrite orb_false_r in Hw.
  apply orb_true_iff in Hw. destruct Hw as [Hw|Hw];
    [|apply orb_true_iff in Hw; destruct Hw as [Hw|Hw]];
    apply Ascii.eqb_eq in Hw; subst c; discriminate.
Qed.

(** An iteration in front of a word adds the word and moves to its end. *)
Lemma scan_loop_word fuel line index tokenStart tokenEnd tokens c w rest :
  skipn tokenStart line = (c :: w) ++ rest ->
  forallb is_valid_character (c :: w) = true ->
  stops_run rest ->
  (tokenStart = 0 /\ tokenEnd = 0) \/ tokenEnd = tokenStart + 1 ->
  scan_loop (S fuel) line index tokenStart tokenEnd tokens =
  scan_loop fuel line index
    (tokenStart + List.length (c :: w)) (tokenStart + List.length (c :: w) + 1)
    (tokens ++ [mkToken STRING (string_of_list_ascii (c :: w)) (index + 1)]).
Proof.
  intros Hs Hw Hr Hcur.
  pose proof (skipn_head _ _ _ _ Hs) as Hc.
  assert (Hv : is_valid_character c = true)
    by (simpl in Hw; now apply andb_true_iff in Hw).
  rewrite (scan_loop_step _ _ _ _ _ _ _ Hc).
  rewrite (scan_step_word _ _ _ _ _ Hv). simpl fst. simpl snd.
  destruct (run_end_of_word _ _ _ _ Hc Hv Hcur) as [-> _].
  rewrite Hs, (valid_run_app _ _ Hw Hr).
  unfold slice. rewrite Hs.
  replace (tokenStart + List.length (c :: w) - tokenStart)
    with (List.length (c :: w)) by lia.
  now rewrite firstn_exact.
Qed.

(** An iteration on a parenthesis, a comma or a line terminator, with
    [tokenEnd] one ahead. *)
Lemma scan_loop_mark fuel line index tokenStart tokens c rest t :
  skipn tokenStart line = c :: rest ->
  (forall tokenEnd, scan_step line index c tokenStart tokenEnd = (Some t, tokenEnd)) ->
  scan_loop (S fuel) line index tokenStart (tokenStart + 1) tokens =
  scan_loop fuel line index (tokenStart + 1) (tokenStart + 1 + 1) (tokens ++ [t]).
Proof.
  intros Hs Hstep.
  rewrite (scan_loop_step _ _ _ _ _ _ _ (skipn_head _ _ _ _ Hs)).
  rewrite Hstep. simpl. unfold add. now destruct t.
Qed.

Definition word (v : string) : Prop :=
  v <> "" /\ forallb is_valid_character (list_ascii_of_string v) = true.

(** The line [name(v)] with its terminator, for two words [name] and [v],
    is scanned into the five tokens of a simple command. *)
Lemma scan_line_simple index tokens name v :
  word name -> word v ->
  scan_line index
    (list_ascii_of_string name ++ "("%char :: list_ascii_of_string v
       ++ [")"%char; newline]) tokens =
  Ok (tokens ++ [STR (index + 1) name; LPAREN (index + 1); STR (index + 1) v;
                 RPAREN (index + 1); EOL (index + 1)]).
Proof.
  intros [Hn Hnv] [Hv Hvv].
  rewrite <- (string_of_list_ascii_of_string name) at 2.
  rewrite <- (string_of_list_ascii_of_string v) at 2.
  destruct (list_ascii_of_string name) as [|a n] eqn:En.
  { destruct name; [congruence|discriminate]. }
  destruct (list_ascii_of_string v) as [|b w] eqn:Ev.
  { destruct v; [congruence|discriminate]. }
  set (line := (a :: n) ++ "("%char :: (b :: w) ++ [")"%char; newline]).
  assert (Ha : is_valid_character a = true)
    by (simpl in Hnv; now apply andb_true_iff in Hnv).
  assert (Hnl : Ascii.eqb a newline = false).
  { destruct (Ascii.eqb_spec a newline); [subst; discriminate|reflexivity]. }
  assert (Hlen : List.length line + 2
                 = S (S (S (S (S (S (List.length n + List.length w + 1))))))).
  { unfold line. rewrite !length_app. simpl. rewrite length_app. simpl. lia. }
  unfold scan_line. fold line. change line with (a :: (n ++ "("%char :: (b :: w) ++ [")"%char; newline])) at 1.
  cbv iota. rewrite Hnl, Hlen.
  assert (S0 : skipn 0 line = (a :: n) ++ "("%char :: (b :: w) ++ [")"%char; newline])
    by reflexivity.
  rewrite (scan_loop_word _ line index 0 0 _ a n _ S0 Hnv eq_refl (or_introl (conj eq_refl eq_refl))).
  pose proof (skipn_over _ _ _ _ S0) as S1.
  rewrite (scan_loop_mark _ line index _ _ _ _ (LPAREN (index + 1)) S1 (fun _ => eq_refl)).
  pose proof (skipn_next _ _ _ _ S1) as S2.
  rewrite (scan_loop_word _ line index _ _ _ b w _ S2 Hvv eq_refl (or_intror eq_refl)).
  pose proof (skipn_over _ _ _ _ S2) as S3.
  rewrite (scan_loop_mark _ line index _ _ _ _ (RPAREN (index + 1)) S3 (fun _ => eq_refl)).
  pose proof (skipn_next _ _ _ _ S3) as S4.
  rewrite (scan_loop_mark _ line index _ _ _ _ (EOL (index + 1)) S4 (fun _ => eq_refl)).
  pose proof (skipn_next _ _ _ _ S4) as S5.
  rewrite scan_loop_stop by (apply skipn_end; exact S5).
  rewrite <- !app_assoc. reflexivity.
Qed.

Lemma list_ascii_of_string_app a b :
  list_ascii_of_string (a ++ b)%string =
  list_ascii_of_string a ++ list_ascii_of_string b.
Proof. induction a as [|c a IH]; simpl; congruence. Qed.

Definition not_newline (c : ascii) : bool := negb (Ascii.eqb c newline).

Lemma file_lines_one l : forall cur,
  forallb not_newline l = true ->
  file_lines (l ++ [newline]) cur = [cur ++ l ++ [newline]].
Proof.
  induction l as [|c l IH]; intros cur Hl; simpl.
  - reflexivity.
  - simpl in Hl. apply andb_true_iff in Hl. destruct Hl as [Hc Hl].
    unfold not_newline in Hc. apply negb_true_iff in Hc. rewrite Hc.
    rewrite IH by assumption. now rewrite <- app_assoc.
Qed.

Lemma word_not_newline l :
  forallb is_valid_character l = true -> forallb not_newline l = true.
Proof.
  induction l as [|c l IH]; simpl; auto.
  intros H. apply andb_true_iff in H. destruct H as [Hc Hl].
  rewrite IH by assumption. rewrite andb_true_r.
  unfold not_newline. destruct (Ascii.eqb_spec c newline); [subst; discriminate|].
  reflexivity.
Qed.

(** The file that holds the one line [name(v)]. *)
Lemma scan_file_simple name v :
  word name -> word v ->
  scan_file (name ++ "(" ++ v ++ ")" ++ NL)%string =
  Ok [STR 1 name; LPAREN 1; STR 1 v; RPAREN 1; EOL 1].
Proof.
  intros Hn Hv. unfold scan_file.
  rewrite !list_ascii_of_string_app.
  change (list_ascii_of_string "(") with ["("%char].
  change (list_ascii_of_string ")") with [")"%char].
  change (list_ascii_of_string NL) with [newline].
  replace (list_ascii_of_string name ++ ["("%char] ++ list_ascii_of_string v
             ++ [")"%char] ++ [newline])
    with ((list_ascii_of_string name ++ "("%char :: list_ascii_of_string v
             ++ [")"%char]) ++ [newline])
    by (now rewrite <- !app_assoc; simpl; rewrite <- app_assoc).
  rewrite file_lines_one.
  - simpl app. unfold scan_lines.
    replace ((list_ascii_of_string name ++ "("%char :: list_ascii_of_string v
                ++ [")"%char]) ++ [newline])
      with (list_ascii_of_string name ++ "("%char :: list_ascii_of_string v
                ++ [")"%char; newline])
      by (now rewrite <- !app_assoc; simpl; rewrite <- app_assoc).
    now rewrite (scan_line_simple 0 [] name v Hn Hv).
  - rewrite forallb_app. simpl. rewrite forallb_app. simpl.
    rewrite (word_not_newline _ (proj2 Hn)), (word_not_newline _ (proj2 Hv)).
    reflexivity.
Qed.

Lemma simple_name_word s : word (simple_name s).
Proof. destruct s; split; (discriminate || reflexivity). Qed.

Lemma legal_value_word s legal v :
  legal_values s = Some legal -> str_in v legal = true -> word v.
Proof.
  destruct s; simpl; intros H; inversion H; subst; clear H;
    unfold str_in; simpl; rewrite orb_false_r; intros H;
    repeat match goal with
           | H : (_ || _)%bool = true |- _ =>
               apply orb_true_iff in H; destruct H as [H|H]
           end;
    apply String.eqb_eq in H; subst v; split; (discriminate || reflexivity).
Qed.

(** * Simple commands with a legal value *)

(** C4. For every simple command [SetX(v)] whose value [v] is in the set
    the field is checked against (any [v] for [SetProjectName]):
    [handle_command] returns normally, the configuration is the previous
    one with the field of [SetX] set to [v], and the error flag and the
    diagnostics are as before; that field then reads [v]; parsing the
    tokens of just this command yields the default configuration with the
    field set to [v] and no error recorded; and so does scanning and
    parsing the text [SetX(v)] of one line, [v] being a word when the
    command is [SetProjectName].  The scenario of the three lines
    [SetProjectName(app)], [AddFile(a.c, b.c)], [SetBuildType(debug)]
    gives the project name [app], the files [a.c] and [b.c], the build
    type [debug] and no error. *)
Theorem simple_command_legal_value (s : SimpleCommand) (v : string) :
  accepts s v = true ->
  (forall pre ln l1 k lp l2 rest i h e,
     let toks := pre ++ [mkToken STRING (simple_name s) ln; LPAREN l1;
                         mkToken k v lp; RPAREN l2] ++ rest in
     handle_command (W toks (List.length pre) i h e) =
     (Ok tt, W toks (List.length pre + 4 + line_span rest) (set_field s v i) h e))
  /\ (forall i, field s (set_field s v i) = v)
  /\ (forall ln,
        parse (simple_line s ln v) =
        (Ok (set_field s v CompileInfo_init),
         W (simple_line s ln v) 5 (set_field s v CompileInfo_init) false []))
  /\ ((legal_values s = None -> word v) ->
      scan_and_parse (simple_name s ++ "(" ++ v ++ ")" ++ NL)%string =
      Ok (Ok (set_field s v CompileInfo_init),
          W (simple_line s 1 v) 5 (set_field s v CompileInfo_init) false []))
  /\ (exists w,
        scan_and_parse scenario_text =
        Ok (Ok (set_buildType "debug"
                  (extend_files ["a.c"; "b.c"]
                     (set_projectName "app" CompileInfo_init))), w)
        /\ hadError w = false /\ stderr w = []).
Proof.
  intros Hv.
  assert (Hparse : forall ln,
        parse (simple_line s ln v) =
        (Ok (set_field s v CompileInfo_init),
         W (simple_line s ln v) 5 (set_field s v CompileInfo_init) false [])).
  { intros ln. rewrite parse_unfold. unfold start.
    pose proof (handle_simple_W s [] ln ln (STR ln v) ln [EOL ln]
                  CompileInfo_init false []) as Hh.
    simpl lexeme in Hh. rewrite Hv in Hh. cbv zeta in Hh. simpl in Hh.
    simpl List.length.
    now rewrite (parse_one_command _ (simple_line s ln v) 0
                   (STR ln (simple_name s)) _ _ _ _ _ eq_refl eq_refl Hh (le_n _)). }
  split; [|split; [|split; [|split]]].
  - intros pre ln l1 k lp l2 rest i h e toks.
    unfold toks. rewrite handle_simple_W. simpl lexeme. now rewrite Hv.
  - intros i. apply field_set_field.
  - exact Hparse.
  - intros Hw.
    assert (Hword : word v).
    { destruct (legal_values s) as [legal|] eqn:Hl; [|now apply Hw].
      apply (legal_value_word s legal v Hl).
      unfold accepts in Hv. now rewrite Hl in Hv. }
    unfold scan_and_parse.
    rewrite (scan_file_simple _ _ (simple_name_word s) Hword).
    f_equal. exact (Hparse 1).
  - eexists. split; [vm_compute; reflexivity|]. split; reflexivity.
Qed.

Lemma simple_command_legal_value_witness :
  accepts SetCompiler "clang-cl" = true /\
  parse (simple_line SetCompiler 1 "clang-cl") =
  (Ok (set_compiler "clang-cl" CompileInfo_init),
   W (simple_line SetCompiler 1 "clang-cl") 5
     (set_compiler "clang-cl" CompileInfo_init) false []).
Proof.
  split; [reflexivity|].
  exact (proj1 (proj2 (proj2 (simple_command_legal_value SetCompiler "clang-cl"
                                eq_refl))) 1).
Defined.

(** * Further properties of the token stream and of error recovery *)

Definition not_line_end (t : Token) : bool := negb (is_type LINE_END t).

Lemma line_span_found junk t more :
  forallb not_line_end junk = true ->
  is_type LINE_END t = true ->
  line_span (junk ++ t :: more) = List.length junk + 1.
Proof.
  intros Hj Ht. induction junk as [|u junk IH]; simpl.
  - now rewrite Ht.
  - simpl in Hj. apply andb_true_iff in Hj. destruct Hj as [Hu Hj].
    unfold not_line_end in Hu. apply negb_true_iff in Hu. rewrite Hu.
    now rewrite IH.
Qed.

Lemma line_span_none rest :
  forallb not_line_end rest = true ->
  line_span rest = List.length rest + 1.
Proof.
  intros Hr. induction rest as [|u rest IH]; simpl; auto.
  simpl in Hr. apply andb_true_iff in Hr. destruct Hr as [Hu Hr].
  unfold not_line_end in Hu. apply negb_true_iff in Hu. rewrite Hu.
  now rewrite IH.
Qed.

(** X1. [skip_line] always returns and changes nothing but the cursor.
    When a LINE_END token lies at or after the cursor, the cursor ends
    just after the first one; when there is none, the cursor ends one
    position past the tokens that were left, hence beyond the end of the
    list. *)
Theorem skip_line_stops_after_line_end toks c i h e :
  (forall junk t more,
     skipn c toks = junk ++ t :: more ->
     forallb not_line_end junk = true ->
     is_type LINE_END t = true ->
     skip_line (W toks c i h e) =
     (Ok tt, W toks (c + List.length junk + 1) i h e))
  /\ (forallb not_line_end (skipn c toks) = true ->
      skip_line (W toks c i h e) =
      (Ok tt, W toks (c + List.length (skipn c toks) + 1) i h e)).
Proof.
  split.
  - intros junk t more Hs Hj Ht.
    rewrite skip_line_W, Hs, (line_span_found _ _ _ Hj Ht).
    do 3 f_equal. lia.
  - intros Hr. rewrite skip_line_W, (line_span_none _ Hr).
    do 3 f_equal. lia.
Qed.

Lemma skip_line_stops_after_line_end_witness :
  skip_line (W [STR 1 "x"; RPAREN 1; EOL 1; STR 2 "y"] 0 CompileInfo_init false []) =
  (Ok tt, W [STR 1 "x"; RPAREN 1; EOL 1; STR 2 "y"] 3 CompileInfo_init false [])
  /\ skip_line (W [STR 1 "x"; RPAREN 1] 1 CompileInfo_init false []) =
     (Ok tt, W [STR 1 "x"; RPAREN 1] 3 CompileInfo_init false []).
Proof.
  split.
  - exact (proj1 (skip_line_stops_after_line_end
                    [STR 1 "x"; RPAREN 1; EOL 1; STR 2 "y"] 0
                    CompileInfo_init false [])
             [STR 1 "x"; RPAREN 1] (EOL 1) [STR 2 "y"]
             eq_refl eq_refl eq_refl).
  - exact (proj2 (skip_line_stops_after_line_end
                    [STR 1 "x"; RPAREN 1] 1 CompileInfo_init false [])
             eq_refl).
Defined.

(** ** What a run leaves alone *)

Create HintDb stays.

Section Stable.

(** A property [P] of the whole state that survives a move of the cursor
    forward, a report of an error and a change of the configuration. *)
Variable P : World -> Prop.

Hypothesis P_moves :
  forall toks c c' i h e, c <= c' -> P (W toks c i h e) -> P (W toks c' i h e).
Hypothesis P_reports :
  forall toks c i h e d, P (W toks c i h e) -> P (W toks c i true (e ++ [d])).
Hypothesis P_config :
  forall toks c i i' h e, P (W toks c i h e) -> P (W toks c i' h e).

Lemma stays_advance : preserves P advance.
Proof.
  intros [[toks c] i h e] Hw. rewrite advance_W. simpl.
  apply (P_moves toks c (S c) i h e); auto.
Qed.

Lemma stays_skip_line : preserves P skip_line.
Proof.
  intros [[toks c] i h e] Hw. rewrite skip_line_W. simpl.
  apply (P_moves toks c _ i h e); auto. lia.
Qed.

Lemma stays_peek : preserves P peek.
Proof. intros w Hw. unfold peek. now destruct (nth_error _ _). Qed.

Lemma stays_is_at_end : preserves P is_at_end.
Proof. now intros w Hw. Qed.

Lemma stays_get_hadError : preserves P get_hadError.
Proof. now intros w Hw. Qed.

Lemma stays_print_error d : preserves P (print_error d).
Proof.
  intros [[toks c] i h e] Hw. simpl. now apply (P_reports toks c i h e d).
Qed.

Lemma stays_update f : preserves P (update_compileInfo f).
Proof.
  intros [[toks c] i h e] Hw. simpl. now apply (P_config toks c i (f i) h e).
Qed.

Hint Resolve preserves_ret preserves_raise preserves_out_of_fuel
  stays_advance stays_skip_line stays_peek stays_is_at_end stays_get_hadError
  stays_print_error stays_update : stays.

Ltac stays :=
  repeat
    match goal with
    | |- preserves _ (bind _ _) => apply preserves_bind; [|intros ?]
    | |- preserves _ (if _ then _ else _) => apply preserves_if
    | |- preserves _ (match ?x with _ => _ end) => destruct x
    | |- preserves _ _ => solve [auto with stays]
    end.

Lemma stays_consume_param fuel :
  forall result, preserves P (consume_param fuel result)
                 /\ preserves P (consume_comma fuel result).
Proof.
  induction fuel as [|fuel IH]; intros result; split; simpl; stays;
    apply IH.
Qed.

Lemma stays_get_complex_command_params command :
  preserves P (get_complex_command_params command).
Proof.
  unfold get_complex_command_params. stays.
  intros w Hw. now apply stays_consume_param.
Qed.

Lemma stays_complex_command command : preserves P (complex_command command).
Proof.
  unfold complex_command. stays. apply stays_get_complex_command_params.
Qed.

Lemma stays_get_simple_command_param command :
  preserves P (get_simple_command_param command).
Proof. unfold get_simple_command_param. stays. Qed.

Lemma stays_simple_command command : preserves P (simple_command command).
Proof.
  unfold simple_command. stays. apply stays_get_simple_command_param.
Qed.

Lemma stays_assign_checked legal set m param :
  preserves P (assign_checked legal set m param).
Proof. unfold assign_checked. stays. Qed.

Lemma stays_append_all extend params : preserves P (append_all extend params).
Proof. unfold append_all. stays. Qed.

Lemma stays_handle_command : preserves P handle_command.
Proof.
  unfold handle_command.
  apply preserves_bind; [apply stays_advance|intros [command|]]; stays;
    first [ apply stays_simple_command
          | apply stays_complex_command
          | apply stays_assign_checked
          | apply stays_append_all ].
Qed.

Lemma stays_parse_loop fuel : preserves P (parse_loop fuel).
Proof.
  induction fuel as [|fuel IH]; simpl; stays.
  apply stays_handle_command.
Qed.

Lemma stays_parse_tokens : preserves P parse_tokens.
Proof.
  unfold parse_tokens.
  apply preserves_bind; [apply stays_update|intros _].
  apply preserves_bind; [intros w Hw; now apply stays_parse_loop|intros _].
  now intros w Hw.
Qed.

End Stable.

Definition run_extends (w w' : World) : Prop :=
  tokens (tokenList w') = tokens (tokenList w)
  /\ current (tokenList w) <= current (tokenList w')
  /\ (exists more, stderr w' = stderr w ++ more)
  /\ (hadError w = true -> hadError w' = true).

Lemma run_extends_refl w : run_extends w w.
Proof.
  repeat split; auto. exists []. now rewrite app_nil_r.
Qed.

Lemma run_extends_moves w toks c c' i h e :
  c <= c' -> run_extends w (W toks c i h e) -> run_extends w (W toks c' i h e).
Proof.
  intros Hc (Ht & Hcur & Herr & Hflag). repeat split; auto.
  simpl in *. lia.
Qed.

Lemma run_extends_reports w toks c i h e d :
  run_extends w (W toks c i h e) -> run_extends w (W toks c i true (e ++ [d])).
Proof.
  intros (Ht & Hcur & [more Herr] & Hflag). repeat split; auto.
  simpl in *. exists (more ++ [d]). now rewrite Herr, app_assoc.
Qed.

Lemma run_extends_config w toks c i i' h e :
  run_extends w (W toks c i h e) -> run_extends w (W toks c i' h e).
Proof. intros (Ht & Hcur & Herr & Hflag). repeat split; auto. Qed.

(** X2. Whatever the tokens and whether it returns or raises, a call of
    [handle_command] and a run of the main loop leave the token list as it
    was, never move the cursor backwards, only append to what was printed
    on stderr, and never clear the error flag once it is set. *)
Theorem run_only_moves_forward :
  (forall w, run_extends w (snd (handle_command w)))
  /\ (forall fuel w, run_extends w (snd (parse_loop fuel w))).
Proof.
  split.
  - intros w.
    apply (stays_handle_command (run_extends w) (run_extends_moves w)
             (run_extends_reports w) (run_extends_config w)).
    apply run_extends_refl.
  - intros fuel w.
    apply (stays_parse_loop (run_extends w) (run_extends_moves w)
             (run_extends_reports w) (run_extends_config w)).
    apply run_extends_refl.
Qed.

Definition flag_matches_stderr (w : World) : Prop :=
  hadError w = true <-> stderr w <> [].

Lemma error_flag_iff_diagnostic_aux toks :
  hadError (snd (parse toks)) = true <-> stderr (snd (parse toks)) <> [].
Proof.
  apply (stays_parse_tokens flag_matches_stderr).
  - intros ? ? ? ? ? ? _ H. exact H.
  - intros ? ? ? ? e d _. unfold flag_matches_stderr. simpl.
    split; [intros _|reflexivity]. now destruct e.
  - intros ? ? ? ? ? ? H. exact H.
  - unfold flag_matches_stderr, start. simpl. split; [discriminate|congruence].
Qed.

(** X3. After [parse_tokens] on a fresh token list, whether it returned
    or raised, the error flag is set exactly when something was printed on
    stderr: no diagnostic is printed without the flag, and the flag is
    never set silently. *)
Theorem error_flag_iff_diagnostic toks :
  hadError (snd (parse toks)) = true <-> stderr (snd (parse toks)) <> [].
Proof. exact (error_flag_iff_diagnostic_aux toks). Qed.

(** ** Lines that are not commands, and commands without their parentheses *)

(** X4. When the main loop finds a token that is not a STRING where a
    command should start, it reports that commands must begin with a
    string for that token, sets the error flag, discards the tokens up to
    and including the next LINE_END (see [line_span]) and goes on from
    there with the configuration untouched. *)
Theorem line_without_command_is_skipped fuel toks c t i h e :
  nth_error toks c = Some t ->
  is_type STRING t = false ->
  parse_loop (S fuel) (W toks c i h e) =
  parse_loop fuel
    (W toks (c + line_span (skipn c toks)) i true
       (e ++ [mkDiagnostic (line t) (lexeme t) Commands_must_begin_with_a_string])).
Proof. intros Ht Hs. exact (parse_loop_no_command fuel toks c t i h e Ht Hs). Qed.

Lemma line_without_command_is_skipped_witness :
  parse_loop 3
    (W [LPAREN 1; STR 1 "x"; EOL 1; STR 2 "y"] 0 CompileInfo_init false []) =
  parse_loop 2
    (W [LPAREN 1; STR 1 "x"; EOL 1; STR 2 "y"] 3 CompileInfo_init true
       [mkDiagnostic 1 "(" Commands_must_begin_with_a_string]).
Proof.
  exact (line_without_command_is_skipped 2
           [LPAREN 1; STR 1 "x"; EOL 1; STR 2 "y"] 0 (LPAREN 1)
           CompileInfo_init false [] eq_refl eq_refl).
Defined.

(** What the branch of a simple command does with the parameter that
    [simple_command] returns. *)
Definition simple_effect (s : SimpleCommand) (param : option Token) : M unit :=
  match s with
  | SetProjectName =>
      match param with
      | Some p => update_compileInfo (set_projectName (lexeme p))
      | None => ret tt
      end
  | SetCompiler => assign_checked compilers set_compiler Invalid_compiler param
  | SetLanguageVersion =>
      assign_checked languageVersions set_languageVersion
                     Invalid_language_version param
  | SetTargetArch => assign_checked archs set_arch Invalid_architeture param
  | SetOutputType =>
      assign_checked outputTypes set_outputType Invalid_output_type param
  | SetBuildType => assign_checked buildTypes set_buildType Invalid_build_type param
  end.

Lemma handle_command_simple s toks c command i h e :
  nth_error toks c = Some command ->
  lexeme command = simple_name s ->
  handle_command (W toks c i h e) =
  bind (simple_command command) (simple_effect s) (W toks (S c) i h e).
Proof.
  intros Ht Hn. unfold handle_command. unfold bind at 1.
  rewrite advance_W, Ht. cbv beta iota zeta. rewrite Hn.
  destruct s; reflexivity.
Qed.

Lemma handle_command_complex a toks c command i h e :
  nth_error toks c = Some command ->
  lexeme command = complex_name a ->
  handle_command (W toks c i h e) =
  bind (complex_command command) (append_all (extend_field a))
       (W toks (S c) i h e).
Proof.
  intros Ht Hn. unfold handle_command. unfold bind at 1.
  rewrite advance_W, Ht. cbv beta iota zeta. rewrite Hn.
  destruct a; reflexivity.
Qed.

Lemma simple_effect_None s w : simple_effect s None w = (Ok tt, w).
Proof. destruct s; reflexivity. Qed.

Lemma simple_command_no_lparen command toks c i h e :
  is_some_type LEFT_PAREN (nth_error toks c) = false ->
  simple_command command (W toks c i h e) =
  (Ok None,
   W toks (S c + line_span (skipn (S c) toks)) i true
     (e ++ [diag command Expected_lparen_after_command])).
Proof.
  intros Hp. unfold simple_command, get_simple_command_param, bind.
  rewrite advance_W, Hp.
  cbv beta iota delta [negb print_error ret get_hadError hadError tokenList
                       compileInfo stderr].
  now rewrite skip_line_W.
Qed.

Lemma complex_command_no_lparen command toks c i h e :
  is_some_type LEFT_PAREN (nth_error toks c) = false ->
  complex_command command (W toks c i h e) =
  (Ok None,
   W toks (S c + line_span (skipn (S c) toks)) i true
     (e ++ [diag command Expected_lparen_after_command])).
Proof.
  intros Hp. unfold complex_command, get_complex_command_params, bind.
  rewrite advance_W, Hp.
  cbv beta iota delta [negb print_error ret get_hadError hadError tokenList
                       compileInfo stderr].
  now rewrite skip_line_W.
Qed.

(** X5. A command of the table whose name is not followed by an opening
    parenthesis (another token, or the end of the tokens): the missing
    parenthesis is reported once for the command, the error flag is set and
    the configuration is untouched.  The token after the name is consumed
    before the line is skipped, so the skip starts two positions after the
    name: when that token was the LINE_END of the line, the tokens of the
    following line are discarded as well. *)
Theorem command_without_lparen toks c command i h e :
  nth_error toks c = Some command ->
  is_some_type LEFT_PAREN (nth_error toks (S c)) = false ->
  (exists s, lexeme command = simple_name s)
  \/ (exists a, lexeme command = complex_name a) ->
  handle_command (W toks c i h e) =
  (Ok tt,
   W toks (c + 2 + line_span (skipn (c + 2) toks)) i true
     (e ++ [mkDiagnostic (line command) (lexeme command)
              Expected_lparen_after_command])).
Proof.
  intros Ht Hp [[s Hn]|[a Hn]].
  - rewrite (handle_command_simple s _ _ _ _ _ _ Ht Hn). unfold bind.
    rewrite (simple_command_no_lparen _ _ _ _ _ _ Hp), simple_effect_None.
    replace (c + 2) with (S (S c)) by lia. reflexivity.
  - rewrite (handle_command_complex a _ _ _ _ _ _ Ht Hn). unfold bind.
    rewrite (complex_command_no_lparen _ _ _ _ _ _ Hp).
    replace (c + 2) with (S (S c)) by lia. reflexivity.
Qed.

Lemma command_without_lparen_witness :
  handle_command
    (W [STR 1 "SetCompiler"; EOL 1; STR 2 "SetBuildType"; LPAREN 2;
        STR 2 "debug"; RPAREN 2; EOL 2] 0 CompileInfo_init false []) =
  (Ok tt,
   W [STR 1 "SetCompiler"; EOL 1; STR 2 "SetBuildType"; LPAREN 2;
      STR 2 "debug"; RPAREN 2; EOL 2] 7 CompileInfo_init true
     [mkDiagnostic 1 "SetCompiler" Expected_lparen_after_command]).
Proof.
  exact (command_without_lparen
           [STR 1 "SetCompiler"; EOL 1; STR 2 "SetBuildType"; LPAREN 2;
            STR 2 "debug"; RPAREN 2; EOL 2] 0 (STR 1 "SetCompiler")
           CompileInfo_init false [] eq_refl eq_refl
           (or_introl (ex_intro _ SetCompiler eq_refl))).
Defined.

Lemma simple_command_no_rparen command toks c lp p i h e :
  nth_error toks c = Some lp ->
  is_type LEFT_PAREN lp = true ->
  nth_error toks (S c) = Some p ->
  is_some_type RIGHT_PAREN (nth_error toks (S (S c))) = false ->
  simple_command command (W toks c i h e) =
  (Ok None,
   W toks (c + 3 + line_span (skipn (c + 3) toks)) i true
     (e ++ [diag command Expected_rparen_after_parameter])).
Proof.
  intros Hlp Hk Hp Hr. unfold simple_command, get_simple_command_param, bind.
  rewrite advance_W, Hlp.
  change (is_some_type LEFT_PAREN (Some lp)) with (is_type LEFT_PAREN lp).
  rewrite Hk.
  cbv beta iota delta [negb]. rewrite advance_W, Hp. cbv beta iota.
  rewrite advance_W, Hr.
  cbv beta iota delta [negb print_error ret get_hadError hadError tokenList
                       compileInfo stderr].
  rewrite skip_line_W. replace (c + 3) with (S (S (S c))) by lia. reflexivity.
Qed.

Lemma complex_command_no_rparen pre command l1 ln v vs u rest i h e :
  is_type COMMA u = false ->
  is_type RIGHT_PAREN u = false ->
  let toks := pre ++ [command; LPAREN l1] ++ params_tokens ln v vs ++ u :: rest in
  complex_command command (W toks (S (List.length pre)) i h e) =
  (Ok None,
   W toks (List.length pre + 2 + List.length (params_tokens ln v vs) + 1
           + line_span rest) i true
     (e ++ [diag command Expected_rparen_after_parameters])).
Proof.
  intros Hcomma Hparen toks0. remember toks0 as toks eqn:Etoks.
  unfold toks0 in Etoks. clear toks0.
  set (n := List.length (params_tokens ln v vs)).
  assert (Hlp : nth_error toks (S (List.length pre)) = Some (LPAREN l1))
    by (subst toks; now rewrite <- Nat.add_1_r, nth_error_past).
  assert (Etoks' : toks = (pre ++ [command; LPAREN l1]) ++ params_tokens ln v vs
                            ++ u :: rest)
    by (subst toks; now rewrite <- app_assoc).
  assert (Elen : S (S (List.length pre)) = List.length (pre ++ [command; LPAREN l1]))
    by (rewrite length_app; simpl; lia).
  assert (Hu : nth_error toks (List.length (pre ++ [command; LPAREN l1]) + n)
               = Some u)
    by (rewrite Etoks'; unfold n; now rewrite nth_error_past, nth_error_here).
  assert (Hrest : skipn (S (List.length (pre ++ [command; LPAREN l1]) + n)) toks
                  = rest).
  { rewrite Etoks'.
    replace (S (List.length (pre ++ [command; LPAREN l1]) + n))
      with (List.length (pre ++ [command; LPAREN l1]) + (n + 1)) by lia.
    rewrite skipn_past. unfold n. now rewrite skipn_past. }
  unfold complex_command, get_complex_command_params, bind.
  rewrite advance_W, Hlp.
  change (negb (is_some_type LEFT_PAREN (Some (LPAREN l1)))) with false.
  cbv beta iota. simpl tokenList. simpl tokens. simpl current.
  rewrite Elen. rewrite Etoks' at 2 3.
  rewrite consume_param_W; [|exact Hcomma|].
  2:{ rewrite Etoks', !length_app, params_tokens_length. simpl. lia. }
  rewrite <- Etoks'. fold n.
  change (List.length ([] ++ map (STR ln) (v :: vs)) =? 0) with false.
  cbv beta iota. rewrite advance_W, Hu.
  change (is_some_type RIGHT_PAREN (Some u)) with (is_type RIGHT_PAREN u).
  rewrite Hparen.
  cbv beta iota delta [negb print_error ret get_hadError hadError tokenList
                       compileInfo stderr].
  rewrite skip_line_W, Hrest. do 3 f_equal.
  rewrite <- Elen. lia.
Qed.

(** X6. A command whose closing parenthesis is missing changes nothing in
    the configuration, even when its parameters are legal.
    - Simple command: the token after the parameter is not a closing
      parenthesis (or the tokens end): the missing parenthesis is reported
      for the command, the flag is set, the field keeps its value.
    - Complex command: the parameter list is followed by a token that is
      neither a comma nor a closing parenthesis: the missing parenthesis is
      reported, the flag is set, and none of the parameters that were read
      is appended.
    In both cases the token found in place of the parenthesis is consumed
    before the line is skipped. *)
Theorem command_without_rparen :
  (forall s toks c command lp p i h e,
     nth_error toks c = Some command ->
     lexeme command = simple_name s ->
     nth_error toks (S c) = Some lp ->
     is_type LEFT_PAREN lp = true ->
     nth_error toks (S (S c)) = Some p ->
     is_some_type RIGHT_PAREN (nth_error toks (S (S (S c)))) = false ->
     handle_command (W toks c i h e) =
     (Ok tt,
      W toks (c + 4 + line_span (skipn (c + 4) toks)) i true
        (e ++ [mkDiagnostic (line command) (lexeme command)
                 Expected_rparen_after_parameter])))
  /\ (forall a pre command l1 ln v vs u rest i h e,
        lexeme command = complex_name a ->
        is_type COMMA u = false ->
        is_type RIGHT_PAREN u = false ->
        let toks := pre ++ [command; LPAREN l1] ++ params_tokens ln v vs
                        ++ u :: rest in
        handle_command (W toks (List.length pre) i h e) =
        (Ok tt,
         W toks (List.length pre + 2 + List.length (params_tokens ln v vs) + 1
                 + line_span rest) i true
           (e ++ [mkDiagnostic (line command) (lexeme command)
                    Expected_rparen_after_parameters]))).
Proof.
  split.
  - intros s toks c command lp p i h e Ht Hn Hlp Hk Hp Hr.
    rewrite (handle_command_simple s _ _ _ _ _ _ Ht Hn). unfold bind.
    rewrite (simple_command_no_rparen _ _ _ _ _ _ _ _ Hlp Hk Hp Hr),
      simple_effect_None.
    replace (S c + 3) with (c + 4) by lia. reflexivity.
  - intros a pre command l1 ln v vs u rest i h e Hn Hcomma Hparen toks.
    assert (Ht : nth_error toks (List.length pre) = Some command)
      by (unfold toks; now rewrite nth_error_here).
    rewrite (handle_command_complex a _ _ _ _ _ _ Ht Hn). unfold bind.
    unfold toks.
    now rewrite (complex_command_no_rparen pre command l1 ln v vs u rest i h e
                   Hcomma Hparen).
Qed.

Lemma command_without_rparen_witness :
  handle_command
    (W [STR 1 "SetCompiler"; LPAREN 1; STR 1 "clang"; EOL 1] 0
       CompileInfo_init false []) =
  (Ok tt,
   W [STR 1 "SetCompiler"; LPAREN 1; STR 1 "clang"; EOL 1] 5
     CompileInfo_init true
     [mkDiagnostic 1 "SetCompiler" Expected_rparen_after_parameter])
  /\ handle_command
       (W ([] ++ [STR 1 "AddFile"; LPAREN 1] ++ params_tokens 1 "a.c" ["b.c"]
              ++ EOL 1 :: []) 0 CompileInfo_init false []) =
     (Ok tt,
      W ([] ++ [STR 1 "AddFile"; LPAREN 1] ++ params_tokens 1 "a.c" ["b.c"]
             ++ EOL 1 :: []) 7 CompileInfo_init true
        [mkDiagnostic 1 "AddFile" Expected_rparen_after_parameters]).
Proof.
  split.
  - exact (proj1 command_without_rparen SetCompiler
             [STR 1 "SetCompiler"; LPAREN 1; STR 1 "clang"; EOL 1] 0
             (STR 1 "SetCompiler") (LPAREN 1) (STR 1 "clang")
             CompileInfo_init false []
             eq_refl eq_refl eq_refl eq_refl eq_refl eq_refl).
  - exact (proj2 command_without_rparen AddFile [] (STR 1 "AddFile") 1 1
             "a.c" ["b.c"] (EOL 1) [] CompileInfo_init false []
             eq_refl eq_refl eq_refl).
Defined.

(** * Files of well-formed commands *)

(** A well-formed line of a build file: a simple command with its value or
    a complex command with its parameters, at least one. *)
Inductive Line : Type :=
| SimpleLine (s : SimpleCommand) (v : string)
| ComplexLine (a : ComplexCommand) (v : string) (vs : list string).

Definition line_ok (l : Line) : bool :=
  match l with
  | SimpleLine s v => accepts s v
  | ComplexLine _ _ _ => true
  end.

Definition line_tokens (ln : nat) (l : Line) : list Token :=
  match l with
  | SimpleLine s v => simple_line s ln v
  | ComplexLine a v vs => complex_line a ln v vs
  end.

(** The tokens of a file whose lines are numbered from [ln] on. *)
Fixpoint file_tokens (ln : nat) (ls : list Line) : list Token :=
  match ls with
  | [] => []
  | l :: ls' => line_tokens ln l ++ file_tokens (S ln) ls'
  end.

Definition apply_line (l : Line) (i : CompileInfo) : CompileInfo :=
  match l with
  | SimpleLine s v => set_field s v i
  | ComplexLine a v vs => extend_field a (v :: vs) i
  end.

Definition apply_lines (ls : list Line) (i : CompileInfo) : CompileInfo :=
  fold_left (fun i l => apply_line l i) ls i.

Lemma line_tokens_head ln l rest :
  exists t more,
    line_tokens ln l ++ rest = t :: more /\ is_type STRING t = true.
Proof.
  destruct l as [s v|a v vs]; simpl; eexists; eexists; split; reflexivity.
Qed.

Lemma handle_line l pre ln rest i h e :
  line_ok l = true ->
  let toks := pre ++ line_tokens ln l ++ rest in
  handle_command (W toks (List.length pre) i h e) =
  (Ok tt,
   W toks (List.length pre + List.length (line_tokens ln l)) (apply_line l i) h e).
Proof.
  intros Hok toks. destruct l as [s v|a v vs].
  - pose proof (handle_simple_W s pre ln ln (STR ln v) ln (EOL ln :: rest) i h e)
      as H.
    simpl lexeme in H. simpl in Hok. rewrite Hok in H. cbv zeta in H.
    simpl line_span in H.
    change (pre ++ [mkToken STRING (simple_name s) ln; LPAREN ln; STR ln v; RPAREN ln]
                ++ EOL ln :: rest) with toks in H.
    rewrite H. simpl. do 3 f_equal. lia.
  - exact (handle_complex_line a pre ln v vs rest i h e).
Qed.

Lemma parse_lines ls : forall pre ln i h e fuel,
  forallb line_ok ls = true ->
  List.length ls < fuel ->
  parse_loop fuel (W (pre ++ file_tokens ln ls) (List.length pre) i h e) =
  (Ok tt,
   W (pre ++ file_tokens ln ls) (List.length (pre ++ file_tokens ln ls))
     (apply_lines ls i) h e).
Proof.
  induction ls as [|l ls IH]; intros pre ln i h e fuel Hok Hf.
  - destruct fuel as [|fuel]; [simpl in Hf; lia|].
    simpl file_tokens. rewrite parse_loop_end by (rewrite app_nil_r; lia).
    now rewrite app_nil_r.
  - destruct fuel as [|fuel]; [simpl in Hf; lia|].
    simpl in Hok. apply andb_true_iff in Hok. destruct Hok as [Hl Hls].
    simpl file_tokens.
    destruct (line_tokens_head ln l (file_tokens (S ln) ls))
      as (t & more & Hhead & Hstr).
    pose proof (handle_line l pre ln (file_tokens (S ln) ls) i h e Hl) as Hh.
    cbv zeta in Hh.
    assert (Ht : nth_error (pre ++ line_tokens ln l ++ file_tokens (S ln) ls)
                   (List.length pre) = Some t)
      by (rewrite nth_error_here, Hhead; reflexivity).
    rewrite (parse_loop_command _ _ _ _ _ _ _ _ Ht Hstr Hh).
    specialize (IH (pre ++ line_tokens ln l) (S ln) (apply_line l i) h e fuel Hls).
    rewrite <- app_assoc, length_app in IH.
    rewrite IH by (simpl in Hf; lia).
    rewrite !length_app. reflexivity.
Qed.

Lemma file_tokens_length ln ls : List.length ls <= List.length (file_tokens ln ls).
Proof.
  revert ln. induction ls as [|l ls IH]; intros ln; simpl; auto.
  rewrite length_app. specialize (IH (S ln)).
  destruct (line_tokens_head ln l []) as (t & more & Hhead & _).
  rewrite app_nil_r in Hhead. rewrite Hhead. simpl. lia.
Qed.

Lemma parse_file ls :
  forallb line_ok ls = true ->
  parse (file_tokens 1 ls) =
  (Ok (apply_lines ls CompileInfo_init),
   W (file_tokens 1 ls) (List.length (file_tokens 1 ls))
     (apply_lines ls CompileInfo_init) false []).
Proof.
  intros Hok. rewrite parse_unfold. unfold start.
  pose proof (parse_lines ls [] 1 CompileInfo_init false []
                (S (List.length (file_tokens 1 ls))) Hok) as H.
  simpl app in H. simpl List.length in H.
  rewrite H by (pose proof (file_tokens_length 1 ls); lia).
  reflexivity.
Qed.

(** X7. Parsing composes line by line.  For a file made of well-formed
    lines only (simple commands with an accepted value, complex commands
    with at least one parameter), [parse_tokens] returns the configuration
    obtained from the defaults by applying the effect of each line in
    order, reads all the tokens and records no error. *)
Theorem parse_of_well_formed_file (ls : list Line) :
  forallb line_ok ls = true ->
  parse (file_tokens 1 ls) =
  (Ok (fold_left (fun i l => apply_line l i) ls CompileInfo_init),
   W (file_tokens 1 ls) (List.length (file_tokens 1 ls))
     (fold_left (fun i l => apply_line l i) ls CompileInfo_init) false []).
Proof. exact (parse_file ls). Qed.

Lemma parse_of_well_formed_file_witness :
  parse (file_tokens 1 [SimpleLine SetCompiler "clang";
                        ComplexLine AddFile "a.c" ["b.c"];
                        SimpleLine SetCompiler "cl"]) =
  (Ok (set_compiler "cl" (extend_files ["a.c"; "b.c"]
                            (set_compiler "clang" CompileInfo_init))),
   W (file_tokens 1 [SimpleLine SetCompiler "clang";
                     ComplexLine AddFile "a.c" ["b.c"];
                     SimpleLine SetCompiler "cl"]) 17
     (set_compiler "cl" (extend_files ["a.c"; "b.c"]
                           (set_compiler "clang" CompileInfo_init))) false []).
Proof.
  exact (parse_of_well_formed_file
           [SimpleLine SetCompiler "clang"; ComplexLine AddFile "a.c" ["b.c"];
            SimpleLine SetCompiler "cl"] eq_refl).
Defined.

Definition SimpleCommand_eqb (s s' : SimpleCommand) : bool :=
  match s, s' with
  | SetProjectName, SetProjectName
  | SetCompiler, SetCompiler
  | SetLanguageVersion, SetLanguageVersion
  | SetTargetArch, SetTargetArch
  | SetOutputType, SetOutputType
  | SetBuildType, SetBuildType => true
  | _, _ => false
  end.

Definition ComplexCommand_eqb (a a' : ComplexCommand) : bool :=
  match a, a' with
  | AddFile, AddFile
  | AddSourcePath, AddSourcePath
  | AddConstant, AddConstant
  | AddIncludePath, AddIncludePath
  | AddLibrary, AddLibrary
  | AddObjectFile, AddObjectFile
  | AddCompilerFlag, AddCompilerFlag
  | AddLinkerFlag, AddLinkerFlag => true
  | _, _ => false
  end.

(** Whether the line is the simple command [s]. *)
Definition sets (s : SimpleCommand) (l : Line) : bool :=
  match l with
  | SimpleLine s' _ => SimpleCommand_eqb s s'
  | ComplexLine _ _ _ => false
  end.

(** The parameters the line gives to the complex command [a]. *)
Definition added (a : ComplexCommand) (l : Line) : list string :=
  match l with
  | SimpleLine _ _ => []
  | ComplexLine a' v vs => if ComplexCommand_eqb a a' then v :: vs else []
  end.

Lemma field_apply_line_other s l i :
  sets s l = false -> field s (apply_line l i) = field s i.
Proof.
  destruct l as [s' v|a v vs]; simpl.
  - destruct s, s'; simpl; intros H; try discriminate; reflexivity.
  - intros _. destruct s, a; reflexivity.
Qed.

Lemma list_field_apply_line a l i :
  list_field a (apply_line l i) = list_field a i ++ added a l.
Proof.
  destruct l as [s v|a' v vs]; simpl.
  - rewrite app_nil_r. destruct a, s; reflexivity.
  - destruct a, a'; simpl; try (now rewrite app_nil_r); reflexivity.
Qed.

Lemma field_apply_lines_other s ls : forall i,
  forallb (fun l => negb (sets s l)) ls = true ->
  field s (apply_lines ls i) = field s i.
Proof.
  induction ls as [|l ls IH]; intros i H; simpl; auto.
  simpl in H. apply andb_true_iff in H. destruct H as [Hl Hls].
  apply negb_true_iff in Hl.
  unfold apply_lines in IH. rewrite IH by assumption.
  now apply field_apply_line_other.
Qed.

Lemma list_field_apply_lines a ls : forall i,
  list_field a (apply_lines ls i) = list_field a i ++ flat_map (added a) ls.
Proof.
  induction ls as [|l ls IH]; intros i; simpl.
  - now rewrite app_nil_r.
  - unfold apply_lines in IH. rewrite IH, list_field_apply_line.
    now rewrite <- app_assoc.
Qed.

(** X8. What a file of well-formed lines leaves in the configuration.
    Each list field holds the parameters of all the lines of its complex
    command, in the order of the file, duplicates included.  Each scalar
    field holds the value of the last line of its simple command, whatever
    came before, and its default when the file has no such line.  No error
    is recorded. *)
Theorem configuration_of_well_formed_file (ls : list Line) :
  forallb line_ok ls = true ->
  exists i w,
    parse (file_tokens 1 ls) = (Ok i, w)
    /\ hadError w = false /\ stderr w = []
    /\ (forall a, list_field a i = flat_map (added a) ls)
    /\ (forall s before v after,
          ls = before ++ SimpleLine s v :: after ->
          forallb (fun l => negb (sets s l)) after = true ->
          field s i = v)
    /\ (forall s,
          forallb (fun l => negb (sets s l)) ls = true ->
          field s i = field s CompileInfo_init).
Proof.
  intros Hok. eexists. eexists. split; [exact (parse_file ls Hok)|].
  split; [reflexivity|]. split; [reflexivity|]. split; [|split].
  - intros a. rewrite list_field_apply_lines. now destruct a.
  - intros s before v after Hls Hafter. subst ls.
    unfold apply_lines. rewrite fold_left_app. simpl fold_left.
    fold (apply_lines after
            (set_field s v (fold_left (fun i l => apply_line l i) before
                              CompileInfo_init))).
    rewrite field_apply_lines_other by assumption.
    apply field_set_field.
  - intros s Hnone. now apply field_apply_lines_other.
Qed.

Lemma configuration_of_well_formed_file_witness :
  exists i w,
    parse (file_tokens 1 [SimpleLine SetCompiler "clang";
                          ComplexLine AddFile "a.c" ["b.c"];
                          SimpleLine SetCompiler "cl";
                          ComplexLine AddFile "a.c" []]) = (Ok i, w)
    /\ hadError w = false /\ stderr w = []
    /\ files i = ["a.c"; "b.c"; "a.c"]
    /\ compiler i = "cl"
    /\ buildType i = "release".
Proof.
  destruct (configuration_of_well_formed_file
              [SimpleLine SetCompiler "clang"; ComplexLine AddFile "a.c" ["b.c"];
               SimpleLine SetCompiler "cl"; ComplexLine AddFile "a.c" []]
              eq_refl) as (i & w & Hp & Hh & He & Hl & Hs & Hd).
  exists i, w. split; [exact Hp|]. split; [exact Hh|]. split; [exact He|].
  split; [exact (Hl AddFile)|]. split.
  - exact (Hs SetCompiler
             [SimpleLine SetCompiler "clang"; ComplexLine AddFile "a.c" ["b.c"]]
             "cl" [ComplexLine AddFile "a.c" []] eq_refl eq_refl).
  - exact (Hd SetBuildType eq_refl).
Defined.

(** * The scanner as a one-pass lexer *)

(** A reference lexer for the rest of a line, one character at a time:
    [skip] characters still belong to the word just produced; otherwise a
    parenthesis, a comma or a line terminator gives its token, a blank
    gives nothing, and any other character opens a word that extends over
    the valid characters that follow it. *)
Fixpoint lex (index : nat) (skip : nat) (rest : list ascii) : list Token :=
  match rest with
  | [] => []
  | c :: r =>
      match skip with
      | S k => lex index k r
      | 0 =>
          if Ascii.eqb c "("%char then mkToken LEFT_PAREN "(" (index + 1) :: lex index 0 r
          else if Ascii.eqb c ")"%char then mkToken RIGHT_PAREN ")" (index + 1) :: lex index 0 r
          else if Ascii.eqb c ","%char then mkToken COMMA "," (index + 1) :: lex index 0 r
          else if Ascii.eqb c newline then mkToken LINE_END "\n" (index + 1) :: lex index 0 r
          else if char_in c [" "%char; tab; nul] then lex index 0 r
          else
            mkToken STRING
              (string_of_list_ascii (c :: firstn (valid_run r) r)) (index + 1)
            :: lex index (valid_run r) r
      end
  end.

Lemma lex_skip index rest : forall k,
  lex index k rest = lex index 0 (skipn k rest).
Proof.
  induction rest as [|c r IH]; intros [|k]; simpl; auto.
Qed.

Lemma lex_cons index c r :
  lex index 0 (c :: r) =
  if Ascii.eqb c "("%char then mkToken LEFT_PAREN "(" (index + 1) :: lex index 0 r
  else if Ascii.eqb c ")"%char then mkToken RIGHT_PAREN ")" (index + 1) :: lex index 0 r
  else if Ascii.eqb c ","%char then mkToken COMMA "," (index + 1) :: lex index 0 r
  else if Ascii.eqb c newline then mkToken LINE_END "\n" (index + 1) :: lex index 0 r
  else if char_in c [" "%char; tab; nul] then lex index 0 r
  else
    mkToken STRING
      (string_of_list_ascii (c :: firstn (valid_run r) r)) (index + 1)
    :: lex index (valid_run r) r.
Proof. reflexivity. Qed.

(** After the first iteration the loop of [scan_file] is this lexer. *)
Lemma scan_loop_lex line index fuel : forall tokenStart tokens,
  List.length line + 1 <= fuel + tokenStart ->
  1 <= fuel ->
  scan_loop fuel line index tokenStart (tokenStart + 1) tokens =
  Ok (tokens ++ lex index 0 (skipn tokenStart line)).
Proof.
  induction fuel as [|fuel IH]; intros ts acc Hf Hpos; [lia|].
  destruct (nth_error line ts) as [c|] eqn:Hc.
  - assert (Hlt : ts < List.length line) by (apply nth_error_Some; congruence).
    rewrite (scan_loop_step _ _ _ _ _ _ _ Hc).
    rewrite (skipn_nth_error_Some _ _ _ Hc).
    set (r := skipn (S ts) line).
    assert (Hnext : forall t,
              scan_loop fuel line index (ts + 1) (ts + 1 + 1) (add_opt acc t) =
              Ok (add_opt acc t ++ lex index 0 r)).
    { intros t. rewrite IH by lia. unfold r. now rewrite Nat.add_1_r. }
    unfold scan_step. rewrite lex_cons.
    destruct (Ascii.eqb c "(");
      [simpl fst; simpl snd; rewrite Hnext; simpl; unfold add;
       now rewrite <- app_assoc|].
    destruct (Ascii.eqb c ")");
      [simpl fst; simpl snd; rewrite Hnext; simpl; unfold add;
       now rewrite <- app_assoc|].
    destruct (Ascii.eqb c ",");
      [simpl fst; simpl snd; rewrite Hnext; simpl; unfold add;
       now rewrite <- app_assoc|].
    destruct (Ascii.eqb c newline);
      [simpl fst; simpl snd; rewrite Hnext; simpl; unfold add;
       now rewrite <- app_assoc|].
    destruct (char_in c [" "%char; tab; nul]);
      [simpl fst; simpl snd; rewrite Hnext; reflexivity|].
    cbv zeta. simpl fst. simpl snd.
    assert (Hend : run_end line (ts + 1) = S ts + valid_run r)
      by (unfold run_end, r; now rewrite Nat.add_1_r).
    rewrite Hend.
    assert (Hslice : slice line ts (S ts + valid_run r)
                     = c :: firstn (valid_run r) r).
    { unfold slice. rewrite (skipn_nth_error_Some _ _ _ Hc). fold r.
      replace (S ts + valid_run r - ts) with (S (valid_run r)) by lia.
      reflexivity. }
    rewrite Hslice.
    pose proof (valid_run_le r) as Hle.
    assert (Hlen : List.length r = List.length line - S ts)
      by (unfold r; apply length_skipn).
    rewrite IH by lia.
    simpl add_opt. unfold add. rewrite <- app_assoc. simpl app.
    rewrite (lex_skip index r (valid_run r)). unfold r. rewrite skipn_skipn.
    now replace (valid_run (skipn (S ts) line) + S ts)
      with (S ts + valid_run (skipn (S ts) line)) by lia.
  - rewrite scan_loop_stop by now apply nth_error_None.
    now rewrite (skipn_nth_error_None _ _ Hc), app_nil_r.
Qed.

(** The token that the first iteration adds besides those of the lexer:
    a second copy of a leading parenthesis or comma, an empty word before
    a leading character that is neither valid, punctuation nor blank. *)
Definition first_extra (index : nat) (c : ascii) : list Token :=
  if Ascii.eqb c "("%char then [mkToken LEFT_PAREN "(" (index + 1)]
  else if Ascii.eqb c ")"%char then [mkToken RIGHT_PAREN ")" (index + 1)]
  else if Ascii.eqb c ","%char then [mkToken COMMA "," (index + 1)]
  else if char_in c [" "%char; tab; nul] then []
  else if is_valid_character c then []
  else [mkToken STRING "" (index + 1)].

Lemma scan_line_lex index c r tokens :
  Ascii.eqb c newline = false ->
  scan_line index (c :: r) tokens =
  Ok (tokens ++ first_extra index c ++ lex index 0 (c :: r)).
Proof.
  intros Hnl. unfold scan_line. rewrite Hnl.
  replace (List.length (c :: r) + 2) with (S (S (List.length r + 1)))
    by (simpl; lia).
  rewrite (scan_loop_step _ (c :: r) _ 0 0 _ c eq_refl).
  assert (Hrest : forall t,
            scan_loop (S (List.length r + 1)) (c :: r) index 0 (0 + 1)
              (add_opt tokens t) =
            Ok (add_opt tokens t ++ lex index 0 (c :: r))).
  { intros t. rewrite scan_loop_lex by (simpl; lia). reflexivity. }
  unfold scan_step, first_extra. rewrite Hnl.
  destruct (Ascii.eqb c "(") eqn:E1;
    [simpl fst; simpl snd; rewrite Hrest; simpl; unfold add;
     now rewrite <- app_assoc|].
  destruct (Ascii.eqb c ")") eqn:E2;
    [simpl fst; simpl snd; rewrite Hrest; simpl; unfold add;
     now rewrite <- app_assoc|].
  destruct (Ascii.eqb c ",") eqn:E3;
    [simpl fst; simpl snd; rewrite Hrest; simpl; unfold add;
     now rewrite <- app_assoc|].
  destruct (char_in c [" "%char; tab; nul]) eqn:E5;
    [simpl fst; simpl snd; rewrite Hrest; reflexivity|].
  cbv zeta. simpl fst. simpl snd.
  unfold run_end. simpl skipn. simpl valid_run.
  destruct (is_valid_character c) eqn:Hv.
  - set (n := valid_run r).
    assert (Hslice : slice (c :: r) 0 (0 + S n) = c :: firstn n r)
      by reflexivity.
    rewrite Hslice.
    pose proof (valid_run_le r) as Hle. fold n in Hle.
    rewrite scan_loop_lex by (simpl; lia).
    rewrite lex_cons, E1, E2, E3, Hnl, E5. fold n.
    rewrite (lex_skip index r n).
    simpl add_opt. unfold add. rewrite <- app_assoc. reflexivity.
  - change (slice (c :: r) 0 (0 + 0)) with (@nil ascii).
    change (0 + 0 + 1) with (0 + 1). rewrite Hrest.
    simpl add_opt. unfold add. now rewrite <- app_assoc.
Qed.

Lemma scan_line_is_lexer_aux index c r tokens :
  scan_line index (c :: r) tokens =
  if Ascii.eqb c newline then Ok tokens
  else Ok (tokens ++ first_extra index c ++ lex index 0 (c :: r)).
Proof.
  destruct (Ascii.eqb c newline) eqn:Hnl.
  - unfold scan_line. now rewrite Hnl.
  - now apply scan_line_lex.
Qed.

(** X9. On the rest of a line the two-cursor loop of [scan_file] is a
    one-pass lexer ([lex]): a parenthesis, a comma and the line terminator
    give their token, a space, a tab or a NUL gives none, and any other
    character opens a STRING token made of that character and of the valid
    characters that follow it.  The tokens of a line that does not start
    with the line terminator are those of the lexer on the whole line,
    preceded by what the first iteration adds ([first_extra]): a second
    copy of a leading parenthesis or comma, an empty STRING token before a
    leading character that is neither valid, punctuation nor blank, and
    nothing otherwise.  A line that starts with the line terminator gives
    no token. *)
Theorem scan_line_is_lexer (index : nat) (c : ascii) (r : list ascii)
    (tokens : list Token) :
  scan_line index (c :: r) tokens =
  if Ascii.eqb c newline then Ok tokens
  else Ok (tokens ++ first_extra index c ++ lex index 0 (c :: r)).
Proof. apply scan_line_is_lexer_aux. Qed.

Lemma lex_line_number index rest : forall k t,
  In t (lex index k rest) -> line t = index + 1.
Proof.
  induction rest as [|c r IH]; intros k t Ht; simpl in Ht; [destruct Ht|].
  destruct k as [|k]; [|now apply (IH k)].
  repeat match type of Ht with
         | In _ (if ?b then _ else _) => destruct b
         end;
    try (destruct Ht as [<-|Ht]; [reflexivity|]); eapply IH; eassumption.
Qed.

Lemma first_extra_line_number index c t :
  In t (first_extra index c) -> line t = index + 1.
Proof.
  unfold first_extra.
  repeat match goal with
         | |- In _ (if ?b then _ else _) -> _ => destruct b
         end; simpl; intros H; repeat destruct H as [H|H];
    try contradiction; subst; reflexivity.
Qed.

Lemma scan_line_line_number index l tokens toks :
  scan_line index l tokens = Ok toks ->
  exists more, toks = tokens ++ more
               /\ forall t, In t more -> line t = index + 1.
Proof.
  destruct l as [|c r]; [discriminate|].
  rewrite scan_line_is_lexer_aux.
  destruct (Ascii.eqb c newline); intros H; inversion H; subst.
  - exists []. rewrite app_nil_r. split; [reflexivity|intros t []].
  - eexists. split; [reflexivity|].
    intros t Ht. apply in_app_or in Ht. destruct Ht as [Ht|Ht].
    + exact (first_extra_line_number index c t Ht).
    + exact (lex_line_number index (c :: r) 0 t Ht).
Qed.

(** The scan of the lines from [index] on adds, line after line, what the
    scan of each line alone gives. *)
Lemma scan_lines_groups lines : forall index tokens,
  Forall (fun l => l <> []) lines ->
  exists groups,
    scan_lines index lines tokens = Ok (tokens ++ List.concat groups)
    /\ List.length groups = List.length lines
    /\ forall k, k < List.length lines ->
         scan_line (index + k) (nth k lines []) [] = Ok (nth k groups [])
         /\ forall t, In t (nth k groups []) -> line t = index + k + 1.
Proof.
  induction lines as [|l lines IH]; intros index tokens Hne.
  - exists []. simpl. rewrite app_nil_r. split; [reflexivity|].
    split; [reflexivity|]. intros k Hk. lia.
  - inversion Hne as [|? ? Hl Hrest]; subst.
    destruct (scan_line_returns index l [] Hl) as [g Hg]. simpl app in Hg.
    destruct (scan_line_line_number index l [] _ Hg) as (m & Hm & Hn).
    simpl app in Hm. subst m.
    assert (Hacc : scan_line index l tokens = Ok (tokens ++ g)).
    { destruct l as [|c r]; [congruence|].
      rewrite scan_line_is_lexer_aux in Hg |- *.
      destruct (Ascii.eqb c newline); inversion Hg; subst;
        [now rewrite app_nil_r|reflexivity]. }
    destruct (IH (S index) (tokens ++ g) Hrest) as (groups & Hrun & Hlen & Hk).
    exists (g :: groups). simpl scan_lines. rewrite Hacc, Hrun.
    split; [simpl List.concat; now rewrite app_assoc|].
    split; [simpl; now rewrite Hlen|].
    intros [|k] Hlt.
    + rewrite Nat.add_0_r. simpl nth. split; [exact Hg|exact Hn].
    + simpl in Hlt. simpl nth.
      replace (index + S k) with (S index + k) by lia.
      apply Hk. lia.
Qed.

(** X10. [scan_file] returns a token list for every text: no index is out
    of range and every loop ends.  The tokens are those of the first line,
    then those of the second, and so on, where the tokens of a line are
    what its scan alone gives, and each token carries the number of the
    line it was read on, counted from 1: the tokens of the line at
    position [k] of the file, from 0, all have the line number [k + 1].
    Hence every line number lies between 1 and the number of lines. *)
Theorem scan_file_returns_numbered_tokens (text : string) :
  let lines := file_lines (list_ascii_of_string text) [] in
  exists groups,
    scan_file text = Ok (List.concat groups)
    /\ List.length groups = List.length lines
    /\ (forall k, k < List.length lines ->
          scan_line k (nth k lines []) [] = Ok (nth k groups [])
          /\ forall t, In t (nth k groups []) -> line t = k + 1)
    /\ (forall t, In t (List.concat groups) ->
          1 <= line t /\ line t <= List.length lines).
Proof.
  intros lines. unfold scan_file. fold lines.
  destruct (scan_lines_groups lines 0 [] (file_lines_nonempty _ _))
    as (groups & Hrun & Hlen & Hk).
  exists groups. split; [exact Hrun|]. split; [exact Hlen|].
  split; [exact Hk|].
  intros t Ht. apply in_concat in Ht. destruct Ht as (g & Hg & Htg).
  destruct (In_nth groups g [] Hg) as (k & Hlt & Hnth).
  rewrite Hlen in Hlt. destruct (Hk k Hlt) as [_ Hline].
  rewrite Hnth in Hline. specialize (Hline t Htg). simpl in Hline. lia.
Qed.

(** * From the text of a well-formed file to its configuration *)

Definition is_word (v : string) : bool :=
  match list_ascii_of_string v with
  | [] => false
  | l => forallb is_valid_character l
  end.

Definition line_name (l : Line) : string :=
  match l with
  | SimpleLine s _ => simple_name s
  | ComplexLine a _ _ => complex_name a
  end.

Definition line_params (l : Line) : string * list string :=
  match l with
  | SimpleLine _ v => (v, [])
  | ComplexLine _ v vs => (v, vs)
  end.

Definition line_words (l : Line) : bool :=
  is_word (fst (line_params l)) && forallb is_word (snd (line_params l)).

(** The words and the punctuation marks of a line of text. *)
Inductive Item : Type :=
| Word (v : string)
| Open
| Close
| Comma.

Definition item_text (it : Item) : list ascii :=
  match it with
  | Word v => list_ascii_of_string v
  | Open => ["("%char]
  | Close => [")"%char]
  | Comma => [","%char]
  end.

Definition item_token (ln : nat) (it : Item) : Token :=
  match it with
  | Word v => STR ln v
  | Open => LPAREN ln
  | Close => RPAREN ln
  | Comma => mkToken COMMA "," ln
  end.

Fixpoint params_items (v : string) (vs : list string) : list Item :=
  Word v ::
  match vs with
  | [] => []
  | v' :: vs' => Comma :: params_items v' vs'
  end.

(** [Name(v, v1, ..., vn)] item by item. *)
Definition line_items (l : Line) : list Item :=
  Word (line_name l) :: Open
    :: params_items (fst (line_params l)) (snd (line_params l)) ++ [Close].

(** The text of the items with the blanks [gaps] between them: the string
    at position [k] of [gaps] stands in front of the item at position [k],
    the one after the last item stands at the end, and a missing string is
    empty.  Every place has its own blanks. *)
Fixpoint render_items (gaps : list (list ascii)) (items : list Item)
    : list ascii :=
  match items with
  | [] => hd [] gaps
  | it :: items' => hd [] gaps ++ item_text it ++ render_items (tl gaps) items'
  end.

(** The text of a line, without its terminator. *)
Definition render_body (gaps : list (list ascii)) (l : Line) : list ascii :=
  render_items gaps (line_items l).

Definition render_line (gl : list (list ascii) * Line) : list ascii :=
  render_body (fst gl) (snd gl) ++ [newline].

Definition render_file (ls : list (list (list ascii) * Line)) : list ascii :=
  flat_map render_line ls.

Example render_spec_line :
  string_of_list_ascii
    (render_line ([[]; []; []; []; [" "%char]],
                  ComplexLine AddFile "a.c" ["b.c"])) =
  ("AddFile(a.c, b.c)" ++ NL)%string.
Proof. reflexivity. Qed.

Definition blanks (gaps : list (list ascii)) : bool :=
  forallb (forallb whitespace) gaps.

Definition starts_with_word (items : list Item) : bool :=
  match items with
  | Word _ :: _ => true
  | _ => false
  end.

(** The words are runs of valid characters and no two of them are
    adjacent. *)
Fixpoint items_ok (items : list Item) : bool :=
  match items with
  | [] => true
  | Word v :: items' =>
      is_word v && negb (starts_with_word items') && items_ok items'
  | _ :: items' => items_ok items'
  end.

Lemma whitespace_cases c :
  whitespace c = true -> c = " "%char \/ c = tab \/ c = nul.
Proof.
  unfold whitespace, char_in. simpl. rewrite orb_false_r. intros H.
  apply orb_true_iff in H. destruct H as [H|H];
    [|apply orb_true_iff in H; destruct H as [H|H]];
    apply Ascii.eqb_eq in H; auto.
Qed.

Lemma lex_blanks index g rest :
  forallb whitespace g = true ->
  lex index 0 (g ++ rest) = lex index 0 rest.
Proof.
  induction g as [|c g IH]; intros Hg; simpl app; auto.
  simpl in Hg. apply andb_true_iff in Hg. destruct Hg as [Hc Hg].
  rewrite <- (IH Hg).
  destruct (whitespace_cases c Hc) as [->|[->| ->]]; reflexivity.
Qed.

Lemma lex_word index c w rest :
  forallb is_valid_character (c :: w) = true ->
  stops_run rest ->
  lex index 0 ((c :: w) ++ rest) =
  mkToken STRING (string_of_list_ascii (c :: w)) (index + 1) :: lex index 0 rest.
Proof.
  intros Hw Hr. pose proof Hw as Hcw. simpl in Hcw.
  apply andb_true_iff in Hcw. destruct Hcw as [Hc Hw'].
  simpl app. rewrite lex_cons.
  destruct (Ascii.eqb_spec c "("); [subst; discriminate|].
  destruct (Ascii.eqb_spec c ")"); [subst; discriminate|].
  destruct (Ascii.eqb_spec c ","); [subst; discriminate|].
  destruct (Ascii.eqb_spec c newline); [subst; discriminate|].
  destruct (char_in c [" "%char; tab; nul]) eqn:Hb.
  { destruct (whitespace_cases c Hb) as [->|[->| ->]]; discriminate. }
  rewrite (valid_run_app _ _ Hw' Hr), firstn_exact, lex_skip.
  rewrite <- (Nat.add_0_r (List.length w)). now rewrite skipn_past.
Qed.

Lemma is_word_spec v :
  is_word v = true ->
  exists c w, list_ascii_of_string v = c :: w
              /\ forallb is_valid_character (c :: w) = true.
Proof.
  unfold is_word. destruct (list_ascii_of_string v) as [|c w]; [discriminate|].
  intros H. now exists c, w.
Qed.

Lemma lex_word_string index v rest :
  is_word v = true ->
  stops_run rest ->
  lex index 0 (list_ascii_of_string v ++ rest) =
  STR (index + 1) v :: lex index 0 rest.
Proof.
  intros Hv Hr. destruct (is_word_spec v Hv) as (c & w & Ev & Hw).
  rewrite Ev, (lex_word index c w rest Hw Hr), <- Ev.
  now rewrite string_of_list_ascii_of_string.
Qed.

Lemma stops_run_blanks g rest :
  forallb whitespace g = true -> stops_run rest -> stops_run (g ++ rest).
Proof.
  intros Hg Hr. destruct g as [|c g]; simpl; auto.
  simpl in Hg. apply andb_true_iff in Hg. destruct Hg as [Hc _].
  destruct (whitespace_cases c Hc) as [->|[->| ->]]; reflexivity.
Qed.

Lemma blanks_hd gaps :
  blanks gaps = true ->
  forallb whitespace (hd [] gaps) = true /\ blanks (tl gaps) = true.
Proof.
  destruct gaps as [|g gaps]; simpl; [auto|].
  intros H. now apply andb_true_iff in H.
Qed.

Lemma stops_run_items items gaps rest :
  blanks gaps = true ->
  starts_with_word items = false ->
  stops_run rest ->
  stops_run (render_items gaps items ++ rest).
Proof.
  intros Hg Hw Hr. destruct (blanks_hd gaps Hg) as [Hh _].
  destruct items as [|[v| | |] items']; try discriminate;
    cbn [render_items item_text]; rewrite <- ?app_assoc;
    apply stops_run_blanks; auto; reflexivity.
Qed.

(** The lexer on the text of the items: the blanks give nothing and every
    item gives its token. *)
Lemma lex_render_items index items : forall gaps rest,
  blanks gaps = true ->
  items_ok items = true ->
  stops_run rest ->
  lex index 0 (render_items gaps items ++ rest) =
  map (item_token (index + 1)) items ++ lex index 0 rest.
Proof.
  induction items as [|it items IH]; intros gaps rest Hg Hok Hr;
    destruct (blanks_hd gaps Hg) as [Hh Ht]; cbn [render_items].
  - now apply lex_blanks.
  - rewrite <- !app_assoc. rewrite (lex_blanks index (hd [] gaps) _ Hh).
    destruct it as [v| | |]; cbn [items_ok] in Hok; cbn [item_text map item_token].
    + apply andb_true_iff in Hok. destruct Hok as [Hok Hrest].
      apply andb_true_iff in Hok. destruct Hok as [Hv Hnext].
      apply negb_true_iff in Hnext.
      rewrite lex_word_string;
        [|exact Hv|now apply stops_run_items].
      now rewrite (IH (tl gaps) rest Ht Hrest Hr).
    + simpl app. rewrite lex_cons. simpl Ascii.eqb. cbv iota.
      now rewrite (IH (tl gaps) rest Ht Hok Hr).
    + simpl app. rewrite lex_cons. simpl Ascii.eqb. cbv iota.
      now rewrite (IH (tl gaps) rest Ht Hok Hr).
    + simpl app. rewrite lex_cons. simpl Ascii.eqb. cbv iota.
      now rewrite (IH (tl gaps) rest Ht Hok Hr).
Qed.

Lemma line_name_word l : is_word (line_name l) = true.
Proof. destruct l as [s v|a v vs]; [destruct s|destruct a]; reflexivity. Qed.

Lemma line_tokens_params ln l :
  line_tokens ln l =
  [STR ln (line_name l); LPAREN ln]
    ++ params_tokens ln (fst (line_params l)) (snd (line_params l))
    ++ [RPAREN ln; EOL ln].
Proof. destruct l as [s v|a v vs]; reflexivity. Qed.

Lemma params_tokens_items ln vs : forall v,
  params_tokens ln v vs = map (item_token ln) (params_items v vs).
Proof.
  induction vs as [|x vs IH]; intros v; [reflexivity|].
  cbn [params_tokens params_items map item_token]. now rewrite IH.
Qed.

Lemma line_tokens_items ln l :
  line_tokens ln l = map (item_token ln) (line_items l) ++ [EOL ln].
Proof.
  rewrite line_tokens_params. unfold line_items.
  cbn [map item_token]. rewrite map_app, params_tokens_items.
  cbn [map item_token app]. now rewrite <- app_assoc.
Qed.

Lemma params_items_ok vs : forall v,
  is_word v = true ->
  forallb is_word vs = true ->
  items_ok (params_items v vs ++ [Close]) = true.
Proof.
  induction vs as [|x vs IH]; intros v Hv Hvs.
  - cbn [params_items app items_ok starts_with_word]. now rewrite Hv.
  - simpl in Hvs. apply andb_true_iff in Hvs. destruct Hvs as [Hx Hvs].
    cbn [params_items app items_ok starts_with_word].
    rewrite Hv. now apply IH.
Qed.

Lemma line_items_ok l :
  line_words l = true -> items_ok (line_items l) = true.
Proof.
  intros Hl. unfold line_words in Hl. apply andb_true_iff in Hl.
  destruct Hl as [Hv Hvs]. unfold line_items.
  cbn [items_ok starts_with_word]. rewrite line_name_word.
  now apply params_items_ok.
Qed.

Lemma lex_render_line index gaps l :
  blanks gaps = true ->
  line_words l = true ->
  lex index 0 (render_line (gaps, l)) = line_tokens (index + 1) l.
Proof.
  intros Hg Hl. unfold render_line, render_body. cbn [fst snd].
  rewrite (lex_render_items index (line_items l) gaps [newline] Hg
             (line_items_ok l Hl) eq_refl).
  now rewrite line_tokens_items.
Qed.

Lemma first_extra_none index c :
  whitespace c = true \/ is_valid_character c = true ->
  first_extra index c = [] /\ Ascii.eqb c newline = false.
Proof.
  intros [Hc|Hc].
  - destruct (whitespace_cases c Hc) as [->|[->| ->]]; split; reflexivity.
  - unfold first_extra.
    destruct (Ascii.eqb_spec c "("); [subst; discriminate|].
    destruct (Ascii.eqb_spec c ")"); [subst; discriminate|].
    destruct (Ascii.eqb_spec c ","); [subst; discriminate|].
    destruct (Ascii.eqb_spec c newline); [subst; discriminate|].
    rewrite Hc. now destruct (char_in c [" "%char; tab; nul]).
Qed.

Lemma render_line_head gaps l :
  blanks gaps = true ->
  exists c r,
    render_line (gaps, l) = c :: r
    /\ (whitespace c = true \/ is_valid_character c = true).
Proof.
  intros Hg. destruct (blanks_hd gaps Hg) as [Hh _].
  unfold render_line, render_body, line_items. cbn [fst snd render_items item_text].
  destruct (hd [] gaps) as [|c g].
  - destruct (is_word_spec _ (line_name_word l)) as (c & w & Ev & Hw).
    rewrite Ev. simpl in Hw.
    apply andb_true_iff in Hw. destruct Hw as [Hc _].
    simpl. eexists. eexists. split; [reflexivity|now right].
  - simpl in Hh. apply andb_true_iff in Hh. destruct Hh as [Hc _].
    simpl. eexists. eexists. split; [reflexivity|now left].
Qed.

Lemma scan_line_render index gaps l tokens :
  blanks gaps = true ->
  line_words l = true ->
  scan_line index (render_line (gaps, l)) tokens =
  Ok (tokens ++ line_tokens (index + 1) l).
Proof.
  intros Hg Hl.
  destruct (render_line_head gaps l Hg) as (c & r & Er & Hc).
  destruct (first_extra_none index c Hc) as [Hx Hnl].
  rewrite Er, scan_line_is_lexer_aux, Hnl, Hx, <- Er.
  now rewrite (lex_render_line index gaps l Hg Hl).
Qed.

Lemma file_lines_line body : forall rest cur,
  forallb not_newline body = true ->
  file_lines ((body ++ [newline]) ++ rest) cur =
  (cur ++ body ++ [newline]) :: file_lines rest [].
Proof.
  induction body as [|c body IH]; intros rest cur Hb; simpl.
  - reflexivity.
  - simpl in Hb. apply andb_true_iff in Hb. destruct Hb as [Hc Hb].
    unfold not_newline in Hc. apply negb_true_iff in Hc. rewrite Hc.
    rewrite IH by assumption. now rewrite <- app_assoc.
Qed.

Lemma blanks_not_newline g :
  forallb whitespace g = true -> forallb not_newline g = true.
Proof.
  induction g as [|c g IH]; simpl; auto. intros H.
  apply andb_true_iff in H. destruct H as [Hc Hg]. rewrite IH by assumption.
  destruct (whitespace_cases c Hc) as [->|[->| ->]]; reflexivity.
Qed.

Lemma is_word_not_newline v :
  is_word v = true -> forallb not_newline (list_ascii_of_string v) = true.
Proof.
  intros Hv. destruct (is_word_spec v Hv) as (c & w & Ev & Hw).
  rewrite Ev. now apply word_not_newline.
Qed.

Lemma render_items_not_newline items : forall gaps,
  blanks gaps = true ->
  items_ok items = true ->
  forallb not_newline (render_items gaps items) = true.
Proof.
  induction items as [|it items IH]; intros gaps Hg Hok;
    destruct (blanks_hd gaps Hg) as [Hh Ht]; cbn [render_items].
  - now apply blanks_not_newline.
  - rewrite !forallb_app, (blanks_not_newline _ Hh).
    destruct it as [v| | |]; cbn [items_ok] in Hok; cbn [item_text].
    + apply andb_true_iff in Hok. destruct Hok as [Hok Hrest].
      apply andb_true_iff in Hok. destruct Hok as [Hv _].
      now rewrite (is_word_not_newline v Hv), (IH (tl gaps) Ht Hrest).
    + now rewrite (IH (tl gaps) Ht Hok).
    + now rewrite (IH (tl gaps) Ht Hok).
    + now rewrite (IH (tl gaps) Ht Hok).
Qed.

Lemma render_body_not_newline gaps l :
  blanks gaps = true ->
  line_words l = true ->
  forallb not_newline (render_body gaps l) = true.
Proof.
  intros Hg Hl. apply render_items_not_newline; [exact Hg|].
  now apply line_items_ok.
Qed.

Definition rendered_ok (gl : list (list ascii) * Line) : bool :=
  blanks (fst gl) && line_ok (snd gl) && line_words (snd gl).

Lemma file_lines_render ls :
  forallb rendered_ok ls = true ->
  file_lines (render_file ls) [] = map render_line ls.
Proof.
  induction ls as [|[g l] ls IH]; intros Hok; simpl; auto.
  simpl in Hok. apply andb_true_iff in Hok. destruct Hok as [Hl Hls].
  unfold rendered_ok in Hl. simpl in Hl.
  apply andb_true_iff in Hl. destruct Hl as [Hl Hw].
  apply andb_true_iff in Hl. destruct Hl as [Hg Hl].
  unfold render_line at 1. simpl fst. simpl snd.
  rewrite file_lines_line by now apply render_body_not_newline.
  now rewrite (IH Hls).
Qed.

Lemma scan_lines_render ls : forall index tokens,
  forallb rendered_ok ls = true ->
  scan_lines index (map render_line ls) tokens =
  Ok (tokens ++ file_tokens (index + 1) (map snd ls)).
Proof.
  induction ls as [|[g l] ls IH]; intros index tokens Hok; simpl.
  - now rewrite app_nil_r.
  - simpl in Hok. apply andb_true_iff in Hok. destruct Hok as [Hl Hls].
    unfold rendered_ok in Hl. simpl in Hl.
    apply andb_true_iff in Hl. destruct Hl as [Hl Hw].
    apply andb_true_iff in Hl. destruct Hl as [Hg Hl].
    rewrite (scan_line_render index g l tokens Hg Hw).
    rewrite (IH (S index) _ Hls). now rewrite <- app_assoc.
Qed.

Lemma forallb_line_ok ls :
  forallb rendered_ok ls = true -> forallb line_ok (map snd ls) = true.
Proof.
  induction ls as [|[g l] ls IH]; simpl; auto. intros H.
  apply andb_true_iff in H. destruct H as [Hl Hls].
  unfold rendered_ok in Hl. simpl in Hl.
  apply andb_true_iff in Hl. destruct Hl as [Hl _].
  apply andb_true_iff in Hl. destruct Hl as [_ Hl].
  now rewrite Hl, IH.
Qed.

Lemma well_formed_text_round_trip_aux (ls : list (list (list ascii) * Line)) :
  forallb rendered_ok ls = true ->
  scan_file (string_of_list_ascii (render_file ls)) =
  Ok (file_tokens 1 (map snd ls))
  /\ parse (file_tokens 1 (map snd ls)) =
     (Ok (apply_lines (map snd ls) CompileInfo_init),
      W (file_tokens 1 (map snd ls)) (List.length (file_tokens 1 (map snd ls)))
        (apply_lines (map snd ls) CompileInfo_init) false []).
Proof.
  intros Hok. split.
  - unfold scan_file. rewrite list_ascii_of_string_of_list_ascii.
    rewrite (file_lines_render ls Hok).
    exact (scan_lines_render ls 0 [] Hok).
  - exact (parse_file (map snd ls) (forallb_line_ok ls Hok)).
Qed.

(** X11. Scanning and parsing the text of a well-formed file.  For every
    file whose lines read [Name(v1, ..., vn)] and end with the line
    terminator, with a command of the table, values that are non-empty
    runs of valid characters (accepted by the command when it is a simple
    one, one value exactly), and any spaces, tabs or NULs, chosen
    independently at each place, in front of the name, before and after
    each parenthesis and each comma, and before the line terminator:
    [scan_file] yields exactly the tokens of the commands, numbered by
    line from 1, and [parse_tokens] then returns the configuration
    obtained by applying the lines in order to the defaults, with no error
    recorded. *)
Theorem well_formed_text_round_trip (ls : list (list (list ascii) * Line)) :
  forallb rendered_ok ls = true ->
  let text := string_of_list_ascii (render_file ls) in
  let toks := file_tokens 1 (map snd ls) in
  let i := fold_left (fun i l => apply_line l i) (map snd ls) CompileInfo_init in
  scan_file text = Ok toks
  /\ scan_and_parse text = Ok (Ok i, W toks (List.length toks) i false []).
Proof.
  intros Hok text toks i.
  assert (Hscan : scan_file text = Ok toks).
  { unfold scan_file, text. rewrite list_ascii_of_string_of_list_ascii.
    rewrite (file_lines_render ls Hok).
    exact (scan_lines_render ls 0 [] Hok). }
  split; [exact Hscan|].
  unfold scan_and_parse. rewrite Hscan. f_equal.
  exact (parse_file (map snd ls) (forallb_line_ok ls Hok)).
Qed.

Lemma well_formed_text_round_trip_witness :
  scan_and_parse
    ("SetCompiler (clang )" ++ NL ++ String tab " AddFile(a.c, b.c)" ++ NL)%string =
  Ok (Ok (extend_files ["a.c"; "b.c"] (set_compiler "clang" CompileInfo_init)),
      W (file_tokens 1 [SimpleLine SetCompiler "clang";
                        ComplexLine AddFile "a.c" ["b.c"]]) 12
        (extend_files ["a.c"; "b.c"] (set_compiler "clang" CompileInfo_init))
        false []).
Proof.
  exact (proj2 (well_formed_text_round_trip
                  [([[]; [" "%char]; []; [" "%char]],
                    SimpleLine SetCompiler "clang");
                   ([[tab; " "%char]; []; []; []; [" "%char]],
                    ComplexLine AddFile "a.c" ["b.c"])]
                  eq_refl)).
Defined.

(** * The compiler command

    The four command builders and their helpers.  [osName] stands for the
    result of [platform.system()]; Python's [+] on strings associates to
    the left, as [+++] does. *)

Notation "a +++ b" := (String.append a b) (at level 50, left associativity).

(** [str.join(sep, xs)]. *)
Definition join (sep : string) (xs : list string) : string :=
  String.concat sep xs.

(** [s.endswith(suffix)]. *)
Definition endswith (s suffix : string) : bool :=
  let n := String.length s in
  let m := String.length suffix in
  (m <=? n) && String.eqb (substring (n - m) m s) suffix.

Definition get_executable_file_extension (osName : string) : string :=
  if String.eqb osName "Windows" then ".exe" else "".

Definition get_shared_library_file_extension (osName : string) : string :=
  if String.eqb osName "Windows" then ".dll" else ".so".

Definition get_object_file_extension (osName : string) : string :=
  if String.eqb osName "Window" then ".obj" else ".o".

Definition get_static_library_file_extension (osName : string) : string :=
  if String.eqb osName "Window" then ".lib" else ".a".

Definition get_gcc_libraries (osName : string) (libraries : list string) : string :=
  fold_left
    (fun result lib =>
       if endswith lib (get_object_file_extension osName)
       then result +++ " " +++ lib
       else result +++ " -l" +++ lib)
    libraries "".

Definition get_cl_libraries (osName : string) (libraries : list string) : string :=
  fold_left
    (fun result lib =>
       result +++ " " +++ lib +++ get_static_library_file_extension osName)
    libraries "".

Definition build_gcc_command (osName : string) (compileInfo : CompileInfo) : string :=
  let command := "gcc -Wall -std=" +++ languageVersion compileInfo in
  let command :=
    if String.eqb (buildType compileInfo) "release" then command +++ " -O2"
    else command +++ " -O0 -g" in
  let command := command +++ " -m" +++ arch compileInfo in
  let command := command +++ " " +++ join " " (compilerFlags compileInfo) in
  let command := command +++ " -D" +++ join " -D" (constants compileInfo) in
  let command := command +++ " -I" +++ join " -I" (includePaths compileInfo) in
  let command := command +++ " " +++ join " " (files compileInfo) in
  let command := command +++ " " +++ join " " (sourcePaths compileInfo) in
  if String.eqb (outputType compileInfo) "executable" then
    let command := command +++ " -o " +++ projectName compileInfo
                     +++ get_executable_file_extension osName in
    let command := command +++ " " +++ join " " (linkerFlags compileInfo) in
    command +++ " " +++ get_gcc_libraries osName (libraries compileInfo)
  else if String.eqb (outputType compileInfo) "shared" then
    let command := command +++ "-shared -o " +++ projectName compileInfo
                     +++ get_executable_file_extension osName in
    let command := command +++ " " +++ join " " (linkerFlags compileInfo) in
    command +++ " " +++ get_gcc_libraries osName (libraries compileInfo)
  else if String.eqb (outputType compileInfo) "object" then
    command +++ " -c"
  else command.

Definition build_clang_command (osName : string) (compileInfo : CompileInfo) : string :=
  let command := "clang -mno-incremental-linker-compatible -Wall -std="
                   +++ languageVersion compileInfo in
  let command :=
    if String.eqb (buildType compileInfo) "release" then command +++ " -O2"
    else command +++ " -O0 -g" in
  let command := command +++ " -m" +++ arch compileInfo in
  let command := command +++ " " +++ join " " (compilerFlags compileInfo) in
  let command := command +++ " -D" +++ join " -D" (constants compileInfo) in
  let command := command +++ " -I" +++ join " -I" (includePaths compileInfo) in
  let command := command +++ " " +++ join " " (files compileInfo) in
  let command := command +++ " " +++ join " " (sourcePaths compileInfo) in
  if String.eqb (outputType compileInfo) "executable" then
    let command := command +++ " -o " +++ projectName compileInfo
                     +++ get_executable_file_extension osName in
    let command := command +++ " " +++ join " " (linkerFlags compileInfo) in
    command +++ " " +++ get_gcc_libraries osName (libraries compileInfo)
  else if String.eqb (outputType compileInfo) "shared" then
    let command := command +++ "-shared -o " +++ projectName compileInfo
                     +++ get_executable_file_extension osName in
    let command := command +++ " " +++ join " " (linkerFlags compileInfo) in
    command +++ " " +++ get_gcc_libraries osName (libraries compileInfo)
  else if String.eqb (outputType compileInfo) "object" then
    command +++ " -c"
  else command.

Definition double_quote : string := String "034"%char EmptyString.
Definition backslash : string := String "092"%char EmptyString.

Definition build_clang_cl_command (osName : string) (compileInfo : CompileInfo)
    : string :=
  let command := "clang-cl /FC /W4 -Xclang -std=" +++ languageVersion compileInfo
                   +++ " -m" +++ arch compileInfo in
  let command :=
    if String.eqb (buildType compileInfo) "release"
    then command +++ " /O2 /Oi /fp:fast"
    else command +++ " /Od /Zi" in
  let command := command +++ " " +++ join " " (compilerFlags compileInfo) in
  let command := command +++ " -D" +++ join " -D" (constants compileInfo) in
  let command := command +++ " -I" +++ join " -I" (includePaths compileInfo) in
  let command := command +++ " " +++ join " " (files compileInfo) in
  let command := command +++ " " +++ join " " (sourcePaths compileInfo) in
  if String.eqb (outputType compileInfo) "executable" then
    let command := command +++ " /o " +++ projectName compileInfo
                     +++ get_executable_file_extension osName in
    let command := command +++ " /link /INCREMENTAL:NO /OPT:REF "
                     +++ join " " (linkerFlags compileInfo) in
    command +++ " " +++ get_cl_libraries osName (libraries compileInfo)
  else if String.eqb (outputType compileInfo) "shared" then
    let command := command +++ " /o " +++ projectName compileInfo
                     +++ get_executable_file_extension osName in
    let command := command +++ " /link /INCREMENTAL:NO /OPT:REF "
                     +++ join " " (linkerFlags compileInfo) in
    command +++ " " +++ get_cl_libraries osName (libraries compileInfo) +++ " /DLL"
  else if String.eqb (outputType compileInfo) "object" then
    command +++ " /c /Fo" +++ double_quote +++ outputType compileInfo
      +++ double_quote +++ backslash
  else command.

Definition build_cl_command (osName : string) (compileInfo : CompileInfo) : string :=
  let command := "cl /FC /W4 /std:" +++ languageVersion compileInfo in
  let command :=
    if String.eqb (buildType compileInfo) "release"
    then command +++ " /O2 /Oi /fp:fast"
    else command +++ " /Od /Zi" in
  let command := command +++ " " +++ join " " (compilerFlags compileInfo) in
  let command := command +++ " -D" +++ join " -D" (constants compileInfo) in
  let command := command +++ " -I" +++ join " -I" (includePaths compileInfo) in
  let command := command +++ " " +++ join " " (files compileInfo) in
  let command := command +++ " " +++ join " " (sourcePaths compileInfo) in
  if String.eqb (outputType compileInfo) "executable" then
    let command := command +++ " /link /INCREMENTAL:NO /OPT:REF "
                     +++ join " " (linkerFlags compileInfo) in
    let command := command +++ " "
                     +++ get_cl_libraries osName (libraries compileInfo) in
    command +++ " /OUT:" +++ projectName compileInfo
      +++ get_executable_file_extension osName
  else if String.eqb (outputType compileInfo) "shared" then
    let command := command +++ " /link /INCREMENTAL:NO /OPT:REF "
                     +++ join " " (linkerFlags compileInfo) in
    let command := command +++ " "
                     +++ get_cl_libraries osName (libraries compileInfo)
                     +++ " /DLL" in
    command +++ " /OUT:" +++ projectName compileInfo
      +++ get_executable_file_extension osName
  else if String.eqb (outputType compileInfo) "object" then
    command +++ " /c /Fo" +++ double_quote +++ outputType compileInfo
      +++ double_quote +++ backslash
  else command.

(** [build_compile_command]: without a branch for the compiler the Python
    function ends without a [return], that is with [None]. *)
Definition build_compile_command (osName : string) (compileInfo : CompileInfo)
    : option string :=
  if String.eqb (compiler compileInfo) "gcc" then
    Some (build_gcc_command osName compileInfo)
  else if String.eqb (compiler compileInfo) "clang" then
    Some (build_clang_command osName compileInfo)
  else if String.eqb (compiler compileInfo) "clang-cl" then
    Some (build_clang_cl_command osName compileInfo)
  else if String.eqb (compiler compileInfo) "cl" then
    Some (build_cl_command osName compileInfo)
  else None.

Example gcc_command_of_scenario :
  build_compile_command "Linux"
    (set_buildType "debug"
       (extend_files ["a.c"; "b.c"] (set_projectName "app" CompileInfo_init))) =
  Some "gcc -Wall -std=c99 -O0 -g -m64  -D -I a.c b.c  -o app  ".
Proof. reflexivity. Qed.

(** ** Properties of the command builders *)

Lemma append_assoc (a b c : string) : a +++ b +++ c = a +++ (b +++ c).
Proof. induction a as [|x a IH]; simpl; congruence. Qed.

Lemma append_empty_r (a : string) : a +++ "" = a.
Proof. induction a as [|x a IH]; simpl; congruence. Qed.

Lemma legal_compiler_cases v :
  str_in v compilers = true ->
  v = "gcc" \/ v = "cl" \/ v = "clang" \/ v = "clang-cl".
Proof.
  unfold str_in, compilers. simpl. rewrite orb_false_r. intros H.
  repeat match goal with
         | H : (_ || _)%bool = true |- _ =>
             apply orb_true_iff in H; destruct H as [H|H]
         end;
    apply String.eqb_eq in H; auto.
Qed.

Lemma command_of_legal_config osName i :
  legal_config i -> exists cmd, build_compile_command osName i = Some cmd.
Proof.
  intros (Hc & _). unfold build_compile_command.
  destruct (legal_compiler_cases _ Hc) as [H|[H|[H|H]]]; rewrite H; simpl;
    eexists; reflexivity.
Qed.

(** X12. [build_compile_command] has a branch for each of the four legal
    compilers and for nothing else: it yields a command for every
    configuration whose compiler is legal, hence for every configuration
    that [parse_tokens] returns, and no command ([None] in Python) for any
    other compiler name. *)
Theorem command_exists_for_parsed_configuration (osName : string) :
  (forall toks i,
     fst (parse toks) = Ok i ->
     exists cmd, build_compile_command osName i = Some cmd)
  /\ (forall i,
        str_in (compiler i) compilers = true ->
        exists cmd, build_compile_command osName i = Some cmd)
  /\ (forall i,
        str_in (compiler i) compilers = false ->
        build_compile_command osName i = None).
Proof.
  split; [|split].
  - intros toks i Hp. apply command_of_legal_config.
    exact (proj2 (parse_legal toks) i Hp).
  - intros i Hc. unfold build_compile_command.
    destruct (legal_compiler_cases _ Hc) as [H|[H|[H|H]]]; rewrite H; simpl;
      eexists; reflexivity.
  - intros i Hc. unfold build_compile_command.
    unfold str_in, compilers in Hc. simpl in Hc. rewrite orb_false_r in Hc.
    repeat match goal with
           | H : (_ || _)%bool = false |- _ =>
               apply orb_false_elim in H; destruct H as [? H]
           end.
    repeat match goal with
           | E : String.eqb _ _ = false |- _ => rewrite E; clear E
           end.
    reflexivity.
Qed.

Lemma command_exists_for_parsed_configuration_witness :
  exists cmd,
    build_compile_command "Linux" (set_compiler "clang-cl" CompileInfo_init)
    = Some cmd.
Proof.
  exact (proj1 (command_exists_for_parsed_configuration "Linux")
           (simple_line SetCompiler 1 "clang-cl")
           (set_compiler "clang-cl" CompileInfo_init) eq_refl).
Defined.

(** The configuration with its object files forgotten. *)
Definition without_objectFiles (i : CompileInfo) : CompileInfo :=
  mkCompileInfo (projectName i) (compiler i) (languageVersion i) (arch i)
    (outputType i) (buildType i) (files i) (sourcePaths i) (constants i)
    (includePaths i) (libraries i) [] (compilerFlags i) (linkerFlags i).

Lemma command_without_objectFiles osName i :
  build_compile_command osName (without_objectFiles i) =
  build_compile_command osName i.
Proof. reflexivity. Qed.

Lemma apply_line_without_objectFiles l i :
  without_objectFiles (apply_line l i) =
  without_objectFiles (apply_line l (without_objectFiles i)).
Proof.
  destruct l as [s v|a v vs]; [destruct s|destruct a]; reflexivity.
Qed.

Definition adds_object_files (l : Line) : bool :=
  match l with
  | ComplexLine AddObjectFile _ _ => true
  | _ => false
  end.

Lemma apply_lines_without_objectFiles ls : forall i j,
  without_objectFiles i = without_objectFiles j ->
  without_objectFiles (apply_lines ls i) =
  without_objectFiles
    (apply_lines (filter (fun l => negb (adds_object_files l)) ls) j).
Proof.
  induction ls as [|l ls IH]; intros i j Hij; simpl; auto.
  destruct (adds_object_files l) eqn:Hl; simpl.
  - apply IH. rewrite <- Hij.
    destruct l as [s v|a v vs]; [discriminate|].
    destruct a; try discriminate. reflexivity.
  - apply IH.
    rewrite apply_line_without_objectFiles, Hij.
    now rewrite <- apply_line_without_objectFiles.
Qed.

(** X13. The object files never reach the compiler command: none of the
    four builders reads the list that [AddObjectFile] fills.  Appending to
    it leaves the command unchanged, and a file of well-formed lines gives
    the same command as the file with its [AddObjectFile] lines removed. *)
Theorem object_files_never_reach_the_command (osName : string) :
  (forall xs i,
     build_compile_command osName (extend_objectFiles xs i) =
     build_compile_command osName i)
  /\ (forall ls,
        build_compile_command osName
          (fold_left (fun i l => apply_line l i) ls CompileInfo_init) =
        build_compile_command osName
          (fold_left (fun i l => apply_line l i)
             (filter (fun l => negb (adds_object_files l)) ls)
             CompileInfo_init)).
Proof.
  split.
  - intros xs i. reflexivity.
  - intros ls.
    rewrite <- (command_without_objectFiles osName
                  (fold_left (fun i l => apply_line l i) ls CompileInfo_init)).
    rewrite <- (command_without_objectFiles osName
                  (fold_left (fun i l => apply_line l i)
                     (filter (fun l => negb (adds_object_files l)) ls)
                     CompileInfo_init)).
    f_equal.
    exact (apply_lines_without_objectFiles ls CompileInfo_init CompileInfo_init
             eq_refl).
Qed.

(** X14. With the output type [object] the command does not depend on the
    project name, the libraries or the linker flags, for any of the four
    compilers: changing them leaves [build_compile_command] unchanged. *)
Theorem object_command_ignores_link_settings (osName : string) (i : CompileInfo)
    (name : string) (libs flags : list string) :
  outputType i = "object" ->
  build_compile_command osName
    (set_projectName name (extend_libraries libs (extend_linkerFlags flags i))) =
  build_compile_command osName i.
Proof.
  intros Ho.
  unfold build_compile_command, build_gcc_command, build_clang_command,
    build_clang_cl_command, build_cl_command.
  simpl. rewrite Ho. simpl. reflexivity.
Qed.

Lemma object_command_ignores_link_settings_witness :
  build_compile_command "Linux"
    (set_projectName "app"
       (extend_libraries ["m"]
          (extend_linkerFlags ["-s"] (set_outputType "object" CompileInfo_init)))) =
  build_compile_command "Linux" (set_outputType "object" CompileInfo_init).
Proof.
  exact (object_command_ignores_link_settings "Linux"
           (set_outputType "object" CompileInfo_init) "app" ["m"] ["-s"] eq_refl).
Defined.

Lemma fold_left_append (f : string -> string) (libs : list string) : forall acc,
  fold_left (fun result lib => result +++ f lib) libs acc =
  acc +++ fold_left (fun result lib => result +++ f lib) libs "".
Proof.
  induction libs as [|lib libs IH]; intros acc; simpl.
  - now rewrite append_empty_r.
  - rewrite IH. rewrite (IH (f lib)). now rewrite append_assoc.
Qed.

Definition gcc_library (osName lib : string) : string :=
  if endswith lib (get_object_file_extension osName) then " " +++ lib
  else " -l" +++ lib.

Definition cl_library (osName lib : string) : string :=
  " " +++ lib +++ get_static_library_file_extension osName.

Lemma gcc_libraries_fold osName libs : forall acc,
  fold_left
    (fun result lib =>
       if endswith lib (get_object_file_extension osName)
       then result +++ " " +++ lib
       else result +++ " -l" +++ lib) libs acc =
  fold_left (fun result lib => result +++ gcc_library osName lib) libs acc.
Proof.
  induction libs as [|lib libs IH]; intros acc; simpl; auto.
  rewrite IH. f_equal. unfold gcc_library.
  destruct (endswith lib (get_object_file_extension osName));
    now rewrite append_assoc.
Qed.

Lemma get_gcc_libraries_fold osName libs :
  get_gcc_libraries osName libs =
  fold_left (fun result lib => result +++ gcc_library osName lib) libs "".
Proof. apply gcc_libraries_fold. Qed.

Lemma cl_libraries_fold osName libs : forall acc,
  fold_left
    (fun result lib =>
       result +++ " " +++ lib +++ get_static_library_file_extension osName)
    libs acc =
  fold_left (fun result lib => result +++ cl_library osName lib) libs acc.
Proof.
  induction libs as [|lib libs IH]; intros acc; simpl; auto.
  rewrite IH. f_equal. unfold cl_library. now rewrite !append_assoc.
Qed.

Lemma get_cl_libraries_fold osName libs :
  get_cl_libraries osName libs =
  fold_left (fun result lib => result +++ cl_library osName lib) libs "".
Proof. apply cl_libraries_fold. Qed.

(** X15. The library arguments are built library by library, in order:
    [get_gcc_libraries] gives, for each library, a space and the library
    when its name ends with the object file extension and [ -l] and the
    library otherwise; [get_cl_libraries] gives a space, the library and
    the static library extension.  Hence the arguments of two lists one
    after the other are the arguments of the first followed by those of
    the second, and no library gives no argument. *)
Theorem library_arguments_compose (osName : string) :
  (forall lib libs,
     get_gcc_libraries osName (lib :: libs) =
     (if endswith lib (get_object_file_extension osName)
      then " " +++ lib else " -l" +++ lib)
     +++ get_gcc_libraries osName libs)
  /\ (forall lib libs,
        get_cl_libraries osName (lib :: libs) =
        " " +++ lib +++ get_static_library_file_extension osName
        +++ get_cl_libraries osName libs)
  /\ (forall libs1 libs2,
        get_gcc_libraries osName (libs1 ++ libs2) =
        get_gcc_libraries osName libs1 +++ get_gcc_libraries osName libs2)
  /\ (forall libs1 libs2,
        get_cl_libraries osName (libs1 ++ libs2) =
        get_cl_libraries osName libs1 +++ get_cl_libraries osName libs2)
  /\ get_gcc_libraries osName [] = ""
  /\ get_cl_libraries osName [] = "".
Proof.
  repeat split.
  - intros lib libs. rewrite !get_gcc_libraries_fold. simpl.
    now rewrite fold_left_append.
  - intros lib libs. rewrite !get_cl_libraries_fold. simpl.
    now rewrite fold_left_append.
  - intros libs1 libs2. rewrite !get_gcc_libraries_fold, fold_left_app.
    now rewrite fold_left_append.
  - intros libs1 libs2. rewrite !get_cl_libraries_fold, fold_left_app.
    now rewrite fold_left_append.
Qed.

(** X16. The extension of object files and of static libraries is the
    Unix one, [.o] and [.a], for every system name except the string
    [Window]: so also on Windows, where [platform.system()] is [Windows]
    and the executable extension is [.exe].  There [get_cl_libraries]
    gives each library the extension [.a], and [get_gcc_libraries] passes
    a library as a file when its name ends with [.o]. *)
Theorem object_extension_is_unix_unless_Window (osName : string) :
  osName <> "Window" ->
  get_object_file_extension osName = ".o"
  /\ get_static_library_file_extension osName = ".a"
  /\ (forall lib libs,
        get_cl_libraries osName (lib :: libs) =
        " " +++ lib +++ ".a" +++ get_cl_libraries osName libs)
  /\ (forall lib libs,
        get_gcc_libraries osName (lib :: libs) =
        (if endswith lib ".o" then " " +++ lib else " -l" +++ lib)
        +++ get_gcc_libraries osName libs).
Proof.
  intros Hos. apply String.eqb_neq in Hos.
  assert (Ho : get_object_file_extension osName = ".o")
    by (unfold get_object_file_extension; now rewrite Hos).
  assert (Ha : get_static_library_file_extension osName = ".a")
    by (unfold get_static_library_file_extension; now rewrite Hos).
  repeat split; auto.
  - intros lib libs. rewrite !get_cl_libraries_fold. simpl.
    rewrite fold_left_append. unfold cl_library at 1. now rewrite Ha.
  - intros lib libs. rewrite !get_gcc_libraries_fold. simpl.
    rewrite fold_left_append. unfold gcc_library at 1. now rewrite Ho.
Qed.

Lemma object_extension_is_unix_unless_Window_witness :
  get_executable_file_extension "Windows" = ".exe"
  /\ get_object_file_extension "Windows" = ".o"
  /\ get_static_library_file_extension "Windows" = ".a".
Proof.
  split; [reflexivity|].
  destruct (object_extension_is_unix_unless_Window "Windows"
              ltac:(discriminate)) as (Ho & Ha & _).
  exact (conj Ho Ha).
Defined.

(** * The entry point *)

(** The outcome of the loop over [sys.argv[1:]]: [print_help(); exit(0)]
    at the first help flag, otherwise the value of [buildFile] after the
    loop. *)
Inductive Arguments : Type :=
| Ask_help
| Build_file (buildFile : option string).

Fixpoint main_arguments (args : list string) (buildFile : option string)
    : Arguments :=
  match args with
  | [] => Build_file buildFile
  | arg :: args' =>
      if str_in arg ["-h"; "--help"] then Ask_help
      else main_arguments args' (Some arg)
  end.

(** What [main] itself prints on stderr. *)
Inductive MainReport : Type :=
| Requires_build_file
| File_not_found (buildFile : string).

(** How a run of [main] ends. *)
Inductive Ending : Type :=
| Exit_help                                   (* print_help(); exit(0) *)
| Exit_error (status : nat) (report : MainReport)
| Exit_had_error (diagnostics : list Diagnostic)   (* if hadError: exit(1) *)
| Uncaught (x : exn) (diagnostics : list Diagnostic)
| Runs (command : string)                     (* print(command); os.system(command) *)
| No_more_fuel.

(** [main], for the command line [argv], the file system [open] (the text
    of a file, or [None] where [open] raises [OSError]) and the system
    name.  Running the command and timing it are left out. *)
Definition main (argv : list string) (open : string -> option string)
    (osName : string) : Ending :=
  match main_arguments (tl argv) None with
  | Ask_help => Exit_help
  | Build_file None => Exit_error 1 Requires_build_file
  | Build_file (Some buildFile) =>
      match open buildFile with
      | None => Exit_error 2 (File_not_found buildFile)
      | Some text =>
          match scan_file text with
          | Ok tokenList =>
              match parse tokenList with
              | (Ok compileInfo, w) =>
                  if hadError w then Exit_had_error (stderr w)
                  else
                    match build_compile_command osName compileInfo with
                    | Some command => Runs command
                    | None => Uncaught TypeError (stderr w) (* os.system(None) *)
                    end
              | (Raise x, w) => Uncaught x (stderr w)
              | (OutOfFuel, _) => No_more_fuel
              end
          | Raise x => Uncaught x []
          | OutOfFuel => No_more_fuel
          end
      end
  end.

Definition is_help (arg : string) : bool := str_in arg ["-h"; "--help"].

Lemma main_arguments_cons arg args buildFile :
  main_arguments (arg :: args) buildFile =
  if is_help arg then Ask_help else main_arguments args (Some arg).
Proof. reflexivity. Qed.

Lemma main_arguments_help args : forall buildFile,
  existsb is_help args = true -> main_arguments args buildFile = Ask_help.
Proof.
  induction args as [|arg args IH]; intros b H; [discriminate|].
  rewrite main_arguments_cons. cbn [existsb] in H.
  destruct (is_help arg); [reflexivity|]. now apply IH.
Qed.

Lemma last_cons_default {A : Type} (l : list A) : forall x d,
  last (x :: l) d = last l x.
Proof.
  induction l as [|y l IH]; intros x d; [reflexivity|].
  change (last (x :: y :: l) d) with (last (y :: l) d).
  now rewrite (IH y d), (IH y x).
Qed.

Lemma main_arguments_last args : forall buildFile,
  existsb is_help args = false ->
  main_arguments args buildFile = Build_file (last (map Some args) buildFile).
Proof.
  induction args as [|arg args IH]; intros b H; [reflexivity|].
  rewrite main_arguments_cons. cbn [existsb] in H.
  destruct (is_help arg); [discriminate|].
  rewrite IH by assumption.
  change (map Some (arg :: args)) with (Some arg :: map Some args).
  now rewrite last_cons_default.
Qed.

(** X17. The command line of [main].  A help flag, [-h] or [--help],
    anywhere among the arguments makes [main] print the help and exit
    with status 0, whatever else is given and without opening any file.
    Without a help flag the build file is the last argument, the earlier
    ones being ignored; with no argument at all [main] reports that a
    build file is required and exits with status 1; and when the build
    file cannot be opened it reports the file as not found and exits with
    status 2. *)
Theorem main_command_line (argv : list string) (open : string -> option string)
    (osName : string) :
  (existsb is_help (tl argv) = true -> main argv open osName = Exit_help)
  /\ (existsb is_help (tl argv) = false ->
      main_arguments (tl argv) None = Build_file (last (map Some (tl argv)) None))
  /\ (tl argv = [] -> main argv open osName = Exit_error 1 Requires_build_file)
  /\ (forall buildFile,
        existsb is_help (tl argv) = false ->
        last (map Some (tl argv)) None = Some buildFile ->
        open buildFile = None ->
        main argv open osName = Exit_error 2 (File_not_found buildFile)).
Proof.
  split; [|split; [|split]].
  - intros H. unfold main. now rewrite main_arguments_help.
  - intros H. now apply main_arguments_last.
  - intros H. unfold main. now rewrite H.
  - intros buildFile Hh Hl Ho. unfold main.
    rewrite main_arguments_last, Hl, Ho by assumption. reflexivity.
Qed.

Lemma main_command_line_witness :
  main ["oatbuild"; "build.txt"; "--help"] (fun _ => None) "Linux" = Exit_help
  /\ main ["oatbuild"; "a.txt"; "b.txt"] (fun _ => None) "Linux" =
     Exit_error 2 (File_not_found "b.txt").
Proof.
  split.
  - exact (proj1 (main_command_line ["oatbuild"; "build.txt"; "--help"]
                    (fun _ => None) "Linux") eq_refl).
  - exact (proj2 (proj2 (proj2 (main_command_line ["oatbuild"; "a.txt"; "b.txt"]
                                  (fun _ => None) "Linux")))
             "b.txt" eq_refl eq_refl eq_refl).
Defined.

(** X18. When [main] runs a compiler command.  For every command line
    without a help flag whose last argument is the build file: [main]
    reaches the command only for a build file that could be opened and
    whose parse returned without printing any diagnostic, and the command
    is then the one [build_compile_command] gives for the parsed
    configuration; a parse that returns always has a command.  For the
    text of a well-formed file (as in X11, with blanks of its own at every
    place) [main] runs the command of the configuration obtained by
    applying the lines in order to the defaults. *)
Theorem main_runs_the_command (argv : list string) (buildFile : string)
    (open : string -> option string) (osName : string) :
  existsb is_help (tl argv) = false ->
  last (map Some (tl argv)) None = Some buildFile ->
  (forall command,
     main argv open osName = Runs command ->
     exists text toks i w,
       open buildFile = Some text
       /\ scan_file text = Ok toks
       /\ parse toks = (Ok i, w)
       /\ stderr w = []
       /\ build_compile_command osName i = Some command)
  /\ (forall text toks i w,
        open buildFile = Some text ->
        scan_file text = Ok toks ->
        parse toks = (Ok i, w) ->
        stderr w = [] ->
        exists command, main argv open osName = Runs command
                        /\ build_compile_command osName i = Some command)
  /\ (forall ls,
        forallb rendered_ok ls = true ->
        open buildFile = Some (string_of_list_ascii (render_file ls)) ->
        exists command,
          main argv open osName = Runs command
          /\ build_compile_command osName
               (fold_left (fun i l => apply_line l i) (map snd ls)
                  CompileInfo_init) = Some command).
Proof.
  intros Hh Hlast.
  assert (Hargs : main_arguments (tl argv) None = Build_file (Some buildFile))
    by (now rewrite main_arguments_last, Hlast).
  assert (Hrun : forall text toks i w,
        open buildFile = Some text ->
        scan_file text = Ok toks ->
        parse toks = (Ok i, w) ->
        stderr w = [] ->
        exists command, main argv open osName = Runs command
                        /\ build_compile_command osName i = Some command).
  { intros text toks i w Ho Hs Hp He.
    destruct (command_of_legal_config osName i) as [command Hc].
    { apply (proj2 (parse_legal toks) i). now rewrite Hp. }
    exists command. split; [|exact Hc].
    unfold main. rewrite Hargs, Ho, Hs, Hp.
    pose proof (error_flag_iff_diagnostic_aux toks) as Hflag.
    rewrite Hp in Hflag. simpl in Hflag.
    destruct (hadError w).
    - exfalso. apply (proj1 Hflag eq_refl). exact He.
    - now rewrite Hc. }
  split; [|split].
  - intros command Hm. unfold main in Hm. rewrite Hargs in Hm.
    destruct (open buildFile) as [text|] eqn:Ho; [|discriminate].
    destruct (scan_file text) as [toks|x|] eqn:Hs; try discriminate.
    destruct (parse toks) as [[i|x|] w] eqn:Hp; try discriminate.
    pose proof (error_flag_iff_diagnostic_aux toks) as Hflag.
    rewrite Hp in Hflag. simpl in Hflag.
    destruct (hadError w) eqn:Hw; [discriminate|].
    destruct (build_compile_command osName i) as [cmd|] eqn:Hc; [|discriminate].
    inversion Hm; subst.
    exists text, toks, i, w. repeat split; auto.
    destruct (stderr w) as [|d ds] eqn:He; [reflexivity|].
    assert (Hft : false = true) by (apply Hflag; discriminate).
    discriminate Hft.
  - exact Hrun.
  - intros ls Hok Ho.
    destruct (well_formed_text_round_trip_aux ls Hok) as [Hs Hp].
    exact (Hrun _ _ _ _ Ho Hs Hp eq_refl).
Qed.

Lemma main_runs_the_command_witness :
  exists command,
    main ["oatbuild"; "old.txt"; "build.txt"]
      (fun _ => Some ("SetCompiler( clang)" ++ NL ++ "AddFile(a.c ,b.c)" ++ NL)%string)
      "Linux" = Runs command
    /\ build_compile_command "Linux"
         (fold_left (fun i l => apply_line l i)
            (map snd [([[]; []; [" "%char]], SimpleLine SetCompiler "clang");
                      ([[]; []; []; [" "%char]],
                       ComplexLine AddFile "a.c" ["b.c"])])
            CompileInfo_init) = Some command.
Proof.
  exact (proj2 (proj2 (main_runs_the_command
                         ["oatbuild"; "old.txt"; "build.txt"] "build.txt"
                         (fun _ => Some ("SetCompiler( clang)" ++ NL
                                         ++ "AddFile(a.c ,b.c)" ++ NL)%string)
                         "Linux" eq_refl eq_refl))
           [([[]; []; [" "%char]], SimpleLine SetCompiler "clang");
            ([[]; []; []; [" "%char]], ComplexLine AddFile "a.c" ["b.c"])]
           eq_refl eq_refl).
Defined.
